(** * The SWIFT task queue ([src/queue.c]): a shallow embedding and its properties

    The queue keeps indices into an external task array in a binary max-heap
    keyed by the tasks' [float] weights, fed through a fixed-size incoming
    ring buffer.  This file embeds [queue_bubble_up], [queue_sift_down],
    [queue_get_incoming], [queue_insert], [queue_init] and [queue_gettask]
    as executable functions over an explicit queue record, as seen by one
    thread, and proves the properties of the heap, of the selection window
    and of the task accounting. *)

From Stdlib Require Import ZArith List Lia Bool Permutation Sorted.
From Stdlib Require Import Floats.SpecFloat.
Import ListNotations.
Local Open Scope Z_scope.

(** ** Floating-point weights and scores

    A C [float] is an IEEE-754 value: [spec_float] of the Standard Library,
    whose [SFcompare] is the IEEE comparison (no result on a NaN).  The C
    operators [<], [>] and [>=] are the three tests below. *)
Module Float.

Definition float := spec_float.

Definition is_nan (a : float) : bool :=
  match a with S754_nan => true | _ => false end.

(** C [a < b]. *)
Definition lt (a b : float) : bool := SFltb a b.

(** C [a > b]. *)
Definition gt (a b : float) : bool :=
  match SFcompare a b with Some Gt => true | _ => false end.

(** C [a >= b]. *)
Definition ge (a b : float) : bool :=
  match SFcompare a b with Some (Gt | Eq) => true | _ => false end.

(** The binary32 value of a small integer, for concrete scenarios. *)
Definition of_Z (z : Z) : float := binary_normalize 24 128 z 0 false.

(** An integer rank in three components that orders the non-NaN floats as
    [SFcompare] does. *)
Definition rank (a : float) : Z * Z * Z :=
  match a with
  | S754_nan => (0, 0, 0)
  | S754_zero _ => (0, 0, 0)
  | S754_infinity true => (-2, 0, 0)
  | S754_infinity false => (2, 0, 0)
  | S754_finite false m e => (1, e, Zpos m)
  | S754_finite true m e => (-1, - e, - Zpos m)
  end.

Definition rank_ge (x y : Z * Z * Z) : Prop :=
  let '(a1, a2, a3) := x in
  let '(b1, b2, b3) := y in
  a1 > b1 \/ (a1 = b1 /\ (a2 > b2 \/ (a2 = b2 /\ a3 >= b3))).

End Float.

Abbreviation float := Float.float.

(** ** C arrays

    An array is a list of cells read and written at an [int] index.  A read
    outside the list gives the default and a write outside it changes
    nothing (both are undefined in C). *)
Definition rd {A : Type} (d : A) (a : list A) (i : Z) : A :=
  if i <? 0 then d else nth (Z.to_nat i) a d.

Fixpoint upd {A : Type} (a : list A) (n : nat) (v : A) : list A :=
  match a, n with
  | [], _ => []
  | _ :: a', O => v :: a'
  | x :: a', S n' => x :: upd a' n' v
  end.

Definition wr {A : Type} (a : list A) (i : Z) (v : A) : list A :=
  if i <? 0 then a else upd a (Z.to_nat i) v.

(** [malloc] of [n] ints: the cells are indeterminate in C and are written
    before they are read; the model fills them with zeros. *)
Definition malloc (n : Z) : list Z := repeat 0 (Z.to_nat n).

(** [memcpy(dst, src, n)] on int cells. *)
Definition memcpy (dst src : list Z) (n : Z) : list Z :=
  firstn (Z.to_nat n) src ++ skipn (Z.to_nat n) dst.

(** The exchange of two cells, as both sift functions write it. *)
Definition swap_cells (a : list Z) (i j : Z) : list Z :=
  wr (wr a i (rd 0 a j)) j (rd 0 a i).

(** The first [n] cells of an array. *)
Definition take {A : Type} (a : list A) (n : Z) : list A :=
  firstn (Z.to_nat n) a.

(** ** Unsigned counters

    [first_incoming], [last_incoming] and [count_incoming] are
    [unsigned int]: they wrap at [2^32]. *)
Definition UINT_MOD : Z := 2 ^ 32.
Definition uint_inc (x : Z) : Z := (x + 1) mod UINT_MOD.
Definition uint_dec (x : Z) : Z := (x - 1) mod UINT_MOD.

(** ** The queue *)

(** [struct queue], without the pointer to the task array (see [weight]
    below).  [lock] is [true] while the queue lock is held. *)
Record queue : Type := mkQueue {
  lock : bool;
  tid : list Z;
  size : Z;
  count : Z;
  tid_incoming : list Z;
  first_incoming : Z;
  last_incoming : Z;
  count_incoming : Z
}.

Definition set_lock (q : queue) (b : bool) : queue :=
  mkQueue b (tid q) (size q) (count q) (tid_incoming q)
          (first_incoming q) (last_incoming q) (count_incoming q).

Definition set_tid (q : queue) (t : list Z) : queue :=
  mkQueue (lock q) t (size q) (count q) (tid_incoming q)
          (first_incoming q) (last_incoming q) (count_incoming q).

Definition set_size (q : queue) (n : Z) : queue :=
  mkQueue (lock q) (tid q) n (count q) (tid_incoming q)
          (first_incoming q) (last_incoming q) (count_incoming q).

Definition set_count (q : queue) (n : Z) : queue :=
  mkQueue (lock q) (tid q) (size q) n (tid_incoming q)
          (first_incoming q) (last_incoming q) (count_incoming q).

Definition set_tid_incoming (q : queue) (t : list Z) : queue :=
  mkQueue (lock q) (tid q) (size q) (count q) t
          (first_incoming q) (last_incoming q) (count_incoming q).

Definition set_first_incoming (q : queue) (n : Z) : queue :=
  mkQueue (lock q) (tid q) (size q) (count q) (tid_incoming q)
          n (last_incoming q) (count_incoming q).

Definition set_last_incoming (q : queue) (n : Z) : queue :=
  mkQueue (lock q) (tid q) (size q) (count q) (tid_incoming q)
          (first_incoming q) n (count_incoming q).

Definition set_count_incoming (q : queue) (n : Z) : queue :=
  mkQueue (lock q) (tid q) (size q) (count q) (tid_incoming q)
          (first_incoming q) (last_incoming q) n.

(** One entry of the selection window of [queue_gettask]. *)
Record wentry : Type := mkW { w_ind : Z; w_tid : Z; w_score : float }.

Definition wentry0 : wentry := mkW 0 0 (S754_zero false).

(** The local variables of [queue_gettask] while it selects a task: the loop
    counter [k], the window and its fill count, the task found ([tid], [ind],
    both [-1] until a task is locked), the state of the task locks, and
    whether the running loop was left by [break]. *)
Record sel (L : Type) : Type := mkSel {
  s_k : Z;
  s_window : list wentry;
  s_window_count : Z;
  s_tid : Z;
  s_ind : Z;
  s_locks : L;
  s_break : bool
}.
Arguments mkSel {L}.
Arguments s_k {L}.
Arguments s_window {L}.
Arguments s_window_count {L}.
Arguments s_tid {L}.
Arguments s_ind {L}.
Arguments s_locks {L}.
Arguments s_break {L}.

(** * The program *)

Section Queue.

(** The external task array [q->tasks]: the queue reads the weight of the
    task at an index and never writes a task. *)
Variable weight : Z -> float.

(** [task_overlap(prev, t)], with [prev] possibly [NULL]. *)
Variable task_overlap : option Z -> Z -> float.

(** [task_lock(t)]: a try-lock on a task, which reads and changes the state of
    the task locks and answers whether the task is now locked by the caller. *)
Variable LockState : Type.
Variable task_lock : LockState -> Z -> bool * LockState.

(** The constants of [queue.h]. *)
Variable queue_sizeinit : Z.
Variable queue_sizegrow : Z.
Variable queue_search_window : Z.
Variable queue_incoming_size : Z.

Definition w_of (qtid : list Z) (i : Z) : float := weight (rd 0 qtid i).

(** *** [queue_bubble_up] *)

(** The [while (ind > 0)] loop.  The index strictly decreases, so [ind] turns
    are enough ([bubble_up_loop_fuel]). *)
Fixpoint bubble_up_loop (fuel : nat) (w : float) (qtid : list Z) (ind : Z)
  : list Z * Z :=
  match fuel with
  | O => (qtid, ind)
  | S fuel' =>
    if ind >? 0 then
      let parent := (ind - 1) ÷ 2 in
      if Float.lt w (w_of qtid parent) then (qtid, ind)
      else
        let temp := rd 0 qtid ind in
        let qtid := wr qtid ind (rd 0 qtid parent) in
        let qtid := wr qtid parent temp in
        bubble_up_loop fuel' w qtid parent
    else (qtid, ind)
  end.

Definition queue_bubble_up (q : queue) (ind : Z) : queue * Z :=
  let w := w_of (tid q) ind in
  let '(qtid, ind') := bubble_up_loop (Z.to_nat ind) w (tid q) ind in
  (set_tid q qtid, ind').

(** *** [queue_sift_down] *)

(** The child that [queue_sift_down] compares the entry with. *)
Definition sift_child (qcount : Z) (qtid : list Z) (ind : Z) : Z :=
  let child := 2 * ind + 1 in
  if (child + 1 <? qcount)
     && Float.gt (w_of qtid (child + 1)) (w_of qtid child)
  then child + 1 else child.

(** The [while (1)] loop.  The index strictly increases and stays below
    [qcount], so [qcount - ind] turns are enough ([sift_down_loop_fuel]). *)
Fixpoint sift_down_loop (fuel : nat) (w : float) (qcount : Z) (qtid : list Z)
    (ind : Z) : list Z * Z :=
  match fuel with
  | O => (qtid, ind)
  | S fuel' =>
    if 2 * ind + 1 >=? qcount then (qtid, ind)
    else
      let child := sift_child qcount qtid ind in
      if Float.gt (w_of qtid child) w then
        let temp := rd 0 qtid child in
        let qtid := wr qtid child (rd 0 qtid ind) in
        let qtid := wr qtid ind temp in
        sift_down_loop fuel' w qcount qtid child
      else (qtid, ind)
  end.

Definition queue_sift_down (q : queue) (ind : Z) : queue * Z :=
  let w := w_of (tid q) ind in
  let '(qtid, ind') :=
    sift_down_loop (Z.to_nat (count q - ind)) w (count q) (tid q) ind in
  (set_tid q qtid, ind').

(** *** [queue_get_incoming] *)

(** The growth of the heap array when [count == size]. *)
Definition queue_grow (q : queue) : queue :=
  let q := set_size q (size q * queue_sizegrow) in
  let temp := malloc (size q) in
  let temp := memcpy temp (tid q) (count q) in
  set_tid q temp.

(** One turn of the loop for a slot that holds an offset. *)
Definition get_incoming_body (q : queue) (ind : Z) : queue :=
  let offset := rd 0 (tid_incoming q) ind in
  let q := set_tid_incoming q (wr (tid_incoming q) ind (-1)) in
  let q := set_first_incoming q (uint_inc (first_incoming q)) in
  let q := if count q =? size q then queue_grow q else q in
  let q := set_tid q (wr (tid q) (count q) offset) in
  let q := set_count q (count q + 1) in
  let q := set_count_incoming q (uint_dec (count_incoming q)) in
  fst (queue_bubble_up q (count q - 1)).

(** The [while (1)] loop.  Every turn empties one slot and none is filled
    meanwhile, so one turn per slot is enough ([get_incoming_loop_fuel]). *)
Fixpoint get_incoming_loop (fuel : nat) (q : queue) : queue :=
  match fuel with
  | O => q
  | S fuel' =>
    let ind := Z.rem (first_incoming q) queue_incoming_size in
    if rd 0 (tid_incoming q) ind <? 0 then q
    else get_incoming_loop fuel' (get_incoming_body q ind)
  end.

Definition queue_get_incoming (q : queue) : queue :=
  get_incoming_loop (length (tid_incoming q)) q.

(** *** [queue_insert] *)

(** The spin loop around [atomic_cas], as one thread sees it when no other
    thread touches the queue: [None] when the turns run out. A failed
    [lock_trylock] leaves the queue as it is; a successful one drains the
    incoming buffer and releases the lock. *)
Fixpoint insert_spin (fuel : nat) (q : queue) (ind t : Z) : option queue :=
  match fuel with
  | O => None
  | S fuel' =>
    if rd 0 (tid_incoming q) ind =? -1 then
      Some (set_tid_incoming q (wr (tid_incoming q) ind t))
    else if lock q then insert_spin fuel' q ind t
    else
      let q := set_lock q true in
      let q := queue_get_incoming q in
      let q := set_lock q false in
      insert_spin fuel' q ind t
  end.

(** [queue_insert(q, t)] with [t] the offset [t - q->tasks].  Two turns of
    the spin loop decide: a third would find the queue as the second left it
    ([insert_spin_fuel]), so [None] stands for a call that spins for ever. *)
Definition queue_insert (q : queue) (t : Z) : option queue :=
  let ind := Z.rem (last_incoming q) queue_incoming_size in
  let q := set_last_incoming q (uint_inc (last_incoming q)) in
  match insert_spin 2 q ind t with
  | Some q => Some (set_count_incoming q (uint_inc (count_incoming q)))
  | None => None
  end.

(** *** [queue_init] *)
Definition queue_init : queue :=
  mkQueue false (malloc queue_sizeinit) queue_sizeinit 0
          (repeat (-1) (Z.to_nat queue_incoming_size)) 0 0 0.

(** *** [queue_gettask] *)

(** The inner [for (i = 1; i < window_count; i++)] loop that finds the window
    entry with the largest score. *)
Fixpoint best_loop (n : nat) (window : list wentry) (i ind_max : Z) : Z :=
  match n with
  | O => ind_max
  | S n' =>
    let ind_max :=
      if Float.gt (w_score (rd wentry0 window i))
                  (w_score (rd wentry0 window ind_max))
      then i else ind_max in
    best_loop n' window (i + 1) ind_max
  end.

Definition window_best (window : list wentry) (window_count : Z) : Z :=
  best_loop (Z.to_nat (window_count - 1)) window 1 0.

Definition sel_init (ls : LockState) : sel LockState :=
  mkSel 0 (repeat wentry0 (Z.to_nat queue_search_window)) 0 (-1) (-1) ls false.

(** The body of the loop over the queue entries, at entry [k]. *)
Definition scan_body (qtid : list Z) (prev : option Z) (s : sel LockState)
  : sel LockState :=
  let k := s_k s in
  let e := mkW k (rd 0 qtid k) (task_overlap prev (rd 0 qtid k)) in
  if k <? queue_search_window then
    mkSel (k + 1) (wr (s_window s) (s_window_count s) e)
          (s_window_count s + 1) (s_tid s) (s_ind s) (s_locks s) false
  else
    let ind_max := window_best (s_window s) (s_window_count s) in
    let c := rd wentry0 (s_window s) ind_max in
    let '(ok, ls) := task_lock (s_locks s) (w_tid c) in
    if ok then
      mkSel k (s_window s) (s_window_count s) (w_tid c) (w_ind c) ls true
    else
      mkSel (k + 1) (wr (s_window s) ind_max e) (s_window_count s)
            (s_tid s) (s_ind s) ls false.

(** One turn of [for (k = 0; k < old_qcount; k++)]; a finished loop stays as
    it is. *)
Definition scan_step (old_qcount : Z) (qtid : list Z) (prev : option Z)
    (s : sel LockState) : sel LockState :=
  if s_break s || (s_k s >=? old_qcount) then s else scan_body qtid prev s.

(** The body of the loop over what is left in the window. *)
Definition rest_body (s : sel LockState) : sel LockState :=
  let ind_max := window_best (s_window s) (s_window_count s) in
  let c := rd wentry0 (s_window s) ind_max in
  let '(ok, ls) := task_lock (s_locks s) (w_tid c) in
  if ok then
    mkSel (s_k s) (s_window s) (s_window_count s) (w_tid c) (w_ind c) ls true
  else
    let window_count := s_window_count s - 1 in
    mkSel (s_k s)
          (wr (s_window s) ind_max (rd wentry0 (s_window s) window_count))
          window_count (s_tid s) (s_ind s) ls false.

(** One turn of [while (window_count > 0)]. *)
Definition rest_step (s : sel LockState) : sel LockState :=
  if s_break s || (s_window_count s <=? 0) then s else rest_body s.

(** The first loop runs at most [old_qcount] turns. *)
Definition scan_loop (old_qcount : Z) (qtid : list Z) (prev : option Z)
    (ls : LockState) : sel LockState :=
  Nat.iter (Z.to_nat old_qcount) (scan_step old_qcount qtid prev) (sel_init ls).

(** A loop starts with no [break] taken. *)
Definition unbroken (s : sel LockState) : sel LockState :=
  mkSel (s_k s) (s_window s) (s_window_count s) (s_tid s) (s_ind s)
        (s_locks s) false.

(** The second loop runs when no task was found, at most [window_count]
    turns. *)
Definition rest_loop (s : sel LockState) : sel LockState :=
  if s_tid s <? 0 then
    Nat.iter (Z.to_nat (s_window_count s)) rest_step (unbroken s)
  else s.

Definition select_task (q : queue) (prev : option Z) (ls : LockState)
  : sel LockState :=
  rest_loop (scan_loop (count q) (tid q) prev ls).

(** The removal of the heap entry [ind]: the last entry takes its place
    and is moved up, then down. *)
Definition queue_remove (q : queue) (ind : Z) : queue :=
  let qcount := count q - 1 in
  let q := set_count q qcount in
  if ind <? qcount then
    let q := set_tid q (wr (tid q) ind (rd 0 (tid q) qcount)) in
    let '(q, ind) := queue_bubble_up q ind in
    let '(q, ind) := queue_sift_down q ind in
    q
  else q.

(** [queue_gettask(q, prev, blocking)].  The answer is [None] when the call
    does not return in this one-thread view (a blocking call on a held
    lock), and otherwise the task returned ([None] for [NULL]), the queue
    and the state of the task locks. *)
Definition queue_gettask (q : queue) (prev : option Z) (blocking : bool)
    (ls : LockState) : option (option Z * queue * LockState) :=
  if lock q then
    if blocking then None else Some (None, q, ls)
  else
    let q := set_lock q true in
    let q := queue_get_incoming q in
    if count q =? 0 then Some (None, set_lock q false, ls)
    else
      let s := select_task q prev ls in
      if s_ind s >=? 0 then
        Some (Some (s_tid s), set_lock (queue_remove q (s_ind s)) false,
              s_locks s)
      else Some (None, set_lock q false, s_locks s).

(** *** Vocabulary of the properties *)

(** The heap: the first [n] cells of the array. *)
Definition heap_of (qtid : list Z) (n : Z) : list Z := firstn (Z.to_nat n) qtid.

(** The weight of the task at heap index [i] is at least that of the task
    at heap index [j]. *)
Definition hge (qtid : list Z) (i j : Z) : Prop :=
  Float.ge (w_of qtid i) (w_of qtid j) = true.

(** The max-heap property on the first [n] cells. *)
Definition heap_ok (qtid : list Z) (n : Z) : Prop :=
  forall k, 1 <= k < n -> hge qtid ((k - 1) ÷ 2) k.

(** The heap property everywhere but around index [i]: pairs that do not
    involve [i] are in order, and the children of [i] are below the parent
    of [i]. *)
Definition heap_but (qtid : list Z) (n i : Z) : Prop :=
  (forall k, 1 <= k < n -> k <> i -> (k - 1) ÷ 2 <> i ->
             hge qtid ((k - 1) ÷ 2) k)
  /\ (forall k, 1 <= k < n -> (k - 1) ÷ 2 = i -> 1 <= i ->
                hge qtid ((i - 1) ÷ 2) k).

Definition parent_ok (qtid : list Z) (i : Z) : Prop :=
  1 <= i -> hge qtid ((i - 1) ÷ 2) i.

Definition children_ok (qtid : list Z) (n i : Z) : Prop :=
  forall k, 1 <= k < n -> (k - 1) ÷ 2 = i -> hge qtid i k.

(** What the queue keeps true of its heap array and of its incoming
    buffer. *)
Definition heap_wf (q : queue) : Prop :=
  Z.of_nat (length (tid q)) = size q /\ 0 <= count q <= size q /\ 0 < size q
  /\ Forall (fun t => 0 <= t) (heap_of (tid q) (count q)).

Definition incoming_wf (q : queue) : Prop :=
  Z.of_nat (length (tid_incoming q)) = queue_incoming_size
  /\ 0 <= first_incoming q.

Definition queue_wf (q : queue) : Prop := heap_wf q /\ incoming_wf q.

Definition queue_heap_ok (q : queue) : Prop := heap_ok (tid q) (count q).

(** The child the specification's words select: the larger one, the right
    child on a tie. *)
Definition sift_child_right_ties (qcount : Z) (qtid : list Z) (ind : Z) : Z :=
  let left := 2 * ind + 1 in
  let right := 2 * ind + 2 in
  if (right <? qcount) && Float.ge (w_of qtid right) (w_of qtid left)
  then right else left.

(** The larger child, the left one on a tie. *)
Definition sift_child_left_ties (qcount : Z) (qtid : list Z) (ind : Z) : Z :=
  let left := 2 * ind + 1 in
  let right := 2 * ind + 2 in
  if (right <? qcount) && negb (Float.ge (w_of qtid left) (w_of qtid right))
  then right else left.

(** The offsets waiting in the incoming buffer, and how many they are. *)
Definition pending_list (q : queue) : list Z :=
  filter (fun x => 0 <=? x) (tid_incoming q).

Definition pending (q : queue) : Z := Z.of_nat (length (pending_list q)).

(** The tasks of the heap. *)
Definition heap (q : queue) : list Z := heap_of (tid q) (count q).

(** The window cell that a turn of the first loop writes ([k] inside the
    window) or reads and may replace (the best entry). *)
Definition scan_cell (s : sel LockState) : Z :=
  if s_k s <? queue_search_window then s_window_count s
  else window_best (s_window s) (s_window_count s).

(** An index inside the [window] array. *)
Definition in_window (i : Z) : Prop := 0 <= i < queue_search_window.

(** The entries of the window in use. *)
Definition active (s : sel LockState) : list wentry :=
  take (s_window s) (s_window_count s).

(** A window entry names a heap index below [k] and the task stored there. *)
Definition entry_ok (qtid : list Z) (k : Z) (e : wentry) : Prop :=
  0 <= w_ind e < k /\ w_tid e = rd 0 qtid (w_ind e).

(** [lock_fails ls l ls']: from the lock state [ls], [task_lock] is tried on
    the tasks of [l] in turn, fails on each and leaves the state [ls']. *)
Inductive lock_fails : LockState -> list Z -> LockState -> Prop :=
| lock_fails_nil : forall ls, lock_fails ls [] ls
| lock_fails_cons : forall ls t ls1 l ls2,
    task_lock ls t = (false, ls1) -> lock_fails ls1 l ls2 ->
    lock_fails ls (t :: l) ls2.

(** *** Sequences of calls *)

(** What happens to a queue: the calls of the thread that is followed, and
    the taking or the release of the queue lock by another thread. *)
Inductive op : Type :=
| OpInsert (t : Z)
| OpDrain
| OpGet (prev : option Z) (blocking : bool)
| OpLock (held : bool).

(** The queue, the task locks, the tasks inserted and the tasks returned so
    far (latest first). *)
Record trace : Type := mkTrace {
  r_queue : queue;
  r_locks : LockState;
  r_inserted : list Z;
  r_returned : list Z
}.

(** One call; [None] when it does not return. [OpDrain] is
    [queue_get_incoming] under the queue lock. *)
Definition run_op (o : op) (r : trace) : option trace :=
  match o with
  | OpInsert t =>
      match queue_insert (r_queue r) t with
      | Some q => Some (mkTrace q (r_locks r) (t :: r_inserted r)
                                (r_returned r))
      | None => None
      end
  | OpDrain =>
      if lock (r_queue r) then None
      else Some (mkTrace (queue_get_incoming (r_queue r)) (r_locks r)
                         (r_inserted r) (r_returned r))
  | OpGet prev blocking =>
      match queue_gettask (r_queue r) prev blocking (r_locks r) with
      | Some (Some t, q, ls) =>
          Some (mkTrace q ls (r_inserted r) (t :: r_returned r))
      | Some (None, q, ls) =>
          Some (mkTrace q ls (r_inserted r) (r_returned r))
      | None => None
      end
  | OpLock held =>
      Some (mkTrace (set_lock (r_queue r) held) (r_locks r) (r_inserted r)
                    (r_returned r))
  end.

Fixpoint run (ops : list op) (r : trace) : option trace :=
  match ops with
  | [] => Some r
  | o :: ops' =>
      match run_op o r with
      | Some r' => run ops' r'
      | None => None
      end
  end.

(** An inserted task is a task of the array: its offset is not negative. *)
Definition op_valid (o : op) : Prop :=
  match o with
  | OpInsert t => 0 <= t
  | _ => True
  end.

(** A new queue and nothing inserted or returned yet. *)
Definition start (ls : LockState) : trace := mkTrace queue_init ls [] [].

(** The incoming buffer seen as a ring whose counters have not wrapped: the
    slots of the counters from [first_incoming] up to [last_incoming] hold
    offsets and the other slots are free. *)
Definition ring_ok (q : queue) : Prop :=
  0 <= first_incoming q <= last_incoming q
  /\ last_incoming q - first_incoming q <= queue_incoming_size
  /\ last_incoming q < UINT_MOD
  /\ (forall c, first_incoming q <= c < last_incoming q ->
                0 <= rd 0 (tid_incoming q) (Z.rem c queue_incoming_size))
  /\ (forall j, 0 <= j < queue_incoming_size ->
                (forall c, first_incoming q <= c < last_incoming q ->
                           Z.rem c queue_incoming_size <> j) ->
                rd 0 (tid_incoming q) j = -1).

(** [n] calls of [queue_gettask] in a row with the same [prev]: the answers
    in the order of the calls, [None] if a call does not return. *)
Fixpoint gettask_repeat (n : nat) (q : queue) (prev : option Z)
    (blocking : bool) (ls : LockState)
  : option (list (option Z) * queue * LockState) :=
  match n with
  | O => Some ([], q, ls)
  | S n' =>
      match queue_gettask q prev blocking ls with
      | Some (res, q', ls') =>
          match gettask_repeat n' q' prev blocking ls' with
          | Some (l, q'', ls'') => Some (res :: l, q'', ls'')
          | None => None
          end
      | None => None
      end
  end.

(** [queue_insert] of every task of a list, each followed by
    [queue_get_incoming]. *)
Fixpoint insert_drain_all (ts : list Z) (q : queue) : option queue :=
  match ts with
  | [] => Some q
  | t :: ts' =>
      match queue_insert q t with
      | Some q' => insert_drain_all ts' (queue_get_incoming q')
      | None => None
      end
  end.

(** Nothing waits in the incoming buffer: every slot is free and the two
    counters agree. *)
Definition incoming_idle (q : queue) : Prop :=
  first_incoming q = last_incoming q
  /\ Forall (fun x => x = -1) (tid_incoming q).

(** *** Vocabulary of the proofs *)

(** The store of [atomic_cas] into a free slot and the count that follows. *)
Definition fill_slot (q : queue) (ind t : Z) : queue :=
  set_count_incoming (set_tid_incoming q (wr (tid_incoming q) ind t))
                     (uint_inc (count_incoming q)).

(** The tasks inserted are the tasks returned, in the heap or waiting. *)
Definition conserved (r : trace) : Prop :=
  Permutation (r_inserted r)
              (r_returned r ++ heap (r_queue r) ++ pending_list (r_queue r)).

(** What the first loop keeps true of the window: it is filled with the
    first [min k queue_search_window] entries. *)
Definition scan_window_inv (s : sel LockState) : Prop :=
  0 <= s_k s
  /\ s_window_count s = Z.min (s_k s) queue_search_window
  /\ Z.of_nat (length (s_window s)) = queue_search_window.

(** What the second loop keeps true of the window: its count stays within
    the window. *)
Definition rest_window_inv (s : sel LockState) : Prop :=
  0 <= s_window_count s <= queue_search_window
  /\ Z.of_nat (length (s_window s)) = queue_search_window.

(** No task found yet, in the first loop: the window holds the first
    [k] heap entries but for those whose lock failed. *)
Definition scan_inv (a : list Z) (n : Z) (ls0 : LockState)
    (s : sel LockState) : Prop :=
  s_break s = false /\ 0 <= s_k s <= n
  /\ s_window_count s = Z.min (s_k s) queue_search_window
  /\ Z.of_nat (length (s_window s)) = queue_search_window
  /\ Forall (entry_ok a (s_k s)) (active s)
  /\ s_tid s = -1 /\ s_ind s = -1
  /\ exists tried,
       lock_fails ls0 tried (s_locks s)
       /\ Permutation (tried ++ map w_tid (active s)) (heap_of a (s_k s)).

(** No task found yet, in the second loop. *)
Definition rest_inv (a : list Z) (n : Z) (ls0 : LockState)
    (s : sel LockState) : Prop :=
  s_break s = false
  /\ 0 <= s_window_count s <= queue_search_window
  /\ Z.of_nat (length (s_window s)) = queue_search_window
  /\ Forall (entry_ok a n) (active s)
  /\ s_tid s = -1 /\ s_ind s = -1
  /\ exists tried,
       lock_fails ls0 tried (s_locks s)
       /\ Permutation (tried ++ map w_tid (active s)) (heap_of a n).

(** A task was locked: it is the heap entry [s_ind], and the locks tried
    before it failed. *)
Definition found (a : list Z) (n : Z) (ls0 : LockState)
    (s : sel LockState) : Prop :=
  s_break s = true /\ 0 <= s_ind s < n /\ s_tid s = rd 0 a (s_ind s)
  /\ exists tried ls1,
       lock_fails ls0 tried ls1
       /\ task_lock ls1 (s_tid s) = (true, s_locks s)
       /\ incl tried (heap_of a n).

(** No task tried yet: the window holds scores of tasks and its first entry
    is the root of the heap. *)
Definition root_inv (a : list Z) (prev : option Z) (s : sel LockState)
  : Prop :=
  s_break s = false /\ 0 <= s_k s
  /\ s_window_count s = Z.min (s_k s) queue_search_window
  /\ Z.of_nat (length (s_window s)) = queue_search_window
  /\ s_tid s = -1
  /\ (forall i, 0 <= i < s_window_count s ->
        exists t, w_score (rd wentry0 (s_window s) i) = task_overlap prev t)
  /\ (0 < s_window_count s ->
      w_ind (rd wentry0 (s_window s) 0) = 0
      /\ w_tid (rd wentry0 (s_window s) 0) = rd 0 a 0).

(** The task locked is the root of the heap. *)
Definition root_found (a : list Z) (s : sel LockState) : Prop :=
  s_break s = true /\ s_ind s = 0 /\ s_tid s = rd 0 a 0.

End Queue.

(** * Concrete queues

    Four tasks of weights 5, 1, 9, 3 (every other index weighs 3), task
    locks that are always free, an overlap that is always zero, and small
    constants: an initial capacity of 2 doubled on growth, a window of 2
    entries and 4 incoming slots. *)

Definition demo_weight (t : Z) : float :=
  if t =? 0 then Float.of_Z 5
  else if t =? 1 then Float.of_Z 1
  else if t =? 2 then Float.of_Z 9
  else Float.of_Z 3.

Definition demo_overlap (prev : option Z) (t : Z) : float := S754_zero false.

Definition demo_lock (ls : unit) (t : Z) : bool * unit := (true, ls).

Abbreviation demo_run ops :=
  (run demo_weight demo_overlap unit demo_lock 2 2 4 ops (start unit 2 4 tt)).

Definition demo_ops : list op :=
  [OpInsert 1; OpInsert 0; OpGet None false; OpInsert 2; OpInsert 3; OpDrain].

Definition demo_trace : trace unit :=
  Eval vm_compute in
    match demo_run demo_ops with
    | Some r => r
    | None => start unit 2 4 tt
    end.

Definition demo_queue : queue := r_queue unit demo_trace.

(** Two children of equal weight 5 under a root of weight 1. *)
Definition tie_weight (t : Z) : float :=
  if t =? 0 then Float.of_Z 1 else Float.of_Z 5.

Definition tie_queue : queue := mkQueue false [0; 1; 2] 3 3 [-1] 0 0 0.

(** A root of weight 1 above tasks of weights 5 and 9. *)
Definition light_root_queue : queue :=
  mkQueue false [1; 0; 2] 3 3 [-1] 0 0 0.

(** Two tasks waiting in an incoming buffer of four slots, none in the
    heap. *)
Definition demo_pending : queue :=
  mkQueue false [0; 0] 2 0 [1; 0; -1; -1] 0 2 2.

(** An incoming buffer of one slot, which is occupied. *)
Definition full_queue : queue := mkQueue false [0; 0] 2 0 [3] 0 1 1.

(** The queue [demo_queue] once its heaviest task was taken. *)
Definition demo_queue_taken : queue :=
  mkQueue false [3; 1; 3; 0] 4 2 [-1; -1; -1; -1] 4 4 0.

(** An overlap that prefers task 3. *)
Definition demo_affinity (prev : option Z) (t : Z) : float :=
  if t =? 3 then Float.of_Z 1 else Float.of_Z 0.

(** * Facts on floats and arrays *)

(** ** Order facts on floats *)
Module FloatFacts.
Import Float.

Lemma compare_not_nan (a b : float) :
  is_nan a = false -> is_nan b = false -> exists c, SFcompare a b = Some c.
Proof.
  destruct a, b; simpl; intros; try discriminate; eauto.
Qed.

Lemma compare_refl (a : float) : is_nan a = false -> SFcompare a a = Some Eq.
Proof.
  destruct a as [s|s| |s m e]; simpl; intros H; try discriminate; try reflexivity.
  - destruct s; reflexivity.
  - rewrite Z.compare_refl.
    change (Pos.compare_cont Eq m m) with (Pos.compare m m).
    rewrite Pos.compare_refl. destruct s; reflexivity.
Qed.

Lemma compare_antisym (a b : float) :
  SFcompare b a = option_map CompOpp (SFcompare a b).
Proof.
  destruct a as [sa|sa| |sa ma ea], b as [sb|sb| |sb mb eb]; simpl;
    try reflexivity;
    try (destruct sa; reflexivity); try (destruct sb; reflexivity);
    try (destruct sa, sb; reflexivity).
  change (Pos.compare_cont Eq mb ma) with (Pos.compare mb ma).
  change (Pos.compare_cont Eq ma mb) with (Pos.compare ma mb).
  rewrite (Z.compare_antisym ea eb), (Pos.compare_antisym ma mb).
  destruct sa, sb; simpl; try reflexivity;
    destruct (ea ?= eb); simpl; try reflexivity;
    destruct (ma ?= mb); reflexivity.
Qed.

Lemma ge_rank (a b : float) :
  is_nan a = false -> is_nan b = false ->
  (ge a b = true <-> rank_ge (rank a) (rank b)).
Proof.
  unfold ge.
  destruct a as [sa|sa| |sa ma ea], b as [sb|sb| |sb mb eb]; simpl;
    intros Ha Hb; try discriminate;
    try (destruct sa); try (destruct sb); simpl;
    try (split; [intros _; lia | reflexivity]);
    try (split; [discriminate | lia]).
  - (* both negative *)
    change (Pos.compare_cont Eq ma mb) with (Pos.compare ma mb).
    destruct (Z.compare_spec ea eb); [destruct (Pos.compare_spec ma mb)| |];
      simpl; (split; [try discriminate; intros _; lia | try reflexivity; lia]).
  - (* both positive *)
    change (Pos.compare_cont Eq ma mb) with (Pos.compare ma mb).
    destruct (Z.compare_spec ea eb); [destruct (Pos.compare_spec ma mb)| |];
      simpl; (split; [try discriminate; intros _; lia | try reflexivity; lia]).
Qed.

Lemma ge_refl (a : float) : is_nan a = false -> ge a a = true.
Proof. intros H. unfold ge. rewrite compare_refl by exact H. reflexivity. Qed.

Lemma ge_trans (a b c : float) :
  is_nan a = false -> is_nan b = false -> is_nan c = false ->
  ge a b = true -> ge b c = true -> ge a c = true.
Proof.
  intros Ha Hb Hc.
  rewrite (ge_rank a b), (ge_rank b c), (ge_rank a c) by assumption.
  destruct (rank a) as [[a1 a2] a3], (rank b) as [[b1 b2] b3],
    (rank c) as [[c1 c2] c3]; simpl; lia.
Qed.

(** Without NaN the comparison is total: [a < b] fails exactly when
    [a >= b] holds, and [a > b] fails exactly when [b >= a] holds. *)
Lemma lt_false_ge (a b : float) :
  is_nan a = false -> is_nan b = false -> lt a b = negb (ge a b).
Proof.
  intros Ha Hb. unfold lt, SFltb, ge.
  destruct (compare_not_nan a b Ha Hb) as [c ->]. destruct c; reflexivity.
Qed.

Lemma gt_false_ge (a b : float) :
  is_nan a = false -> is_nan b = false -> gt a b = negb (ge b a).
Proof.
  intros Ha Hb. unfold gt, ge. rewrite (compare_antisym a b).
  destruct (compare_not_nan a b Ha Hb) as [c ->]. destruct c; reflexivity.
Qed.

Lemma gt_ge (a b : float) : gt a b = true -> ge a b = true.
Proof. unfold gt, ge. destruct (SFcompare a b) as [[]|]; easy. Qed.

Lemma gt_irrefl (a : float) : gt a a = false.
Proof.
  unfold gt. destruct (is_nan a) eqn:E.
  - destruct a; try discriminate; reflexivity.
  - rewrite compare_refl by exact E. reflexivity.
Qed.


Lemma lt_ge (a b : float) : lt a b = true -> ge b a = true.
Proof.
  unfold lt, SFltb, ge. rewrite (compare_antisym a b).
  destruct (SFcompare a b) as [[]|]; simpl; easy.
Qed.

End FloatFacts.

(** ** Array facts *)

Lemma length_upd {A} (a : list A) n v : length (upd a n v) = length a.
Proof.
  revert n; induction a as [|x a IH]; intros [|n]; simpl; auto.
Qed.

Lemma length_wr {A} (a : list A) i v : length (wr a i v) = length a.
Proof. unfold wr. destruct (i <? 0); auto using length_upd. Qed.

Lemma nth_upd_same {A} (d : A) a n v :
  (n < length a)%nat -> nth n (upd a n v) d = v.
Proof.
  revert n; induction a as [|x a IH]; intros [|n]; simpl; intros H;
    try lia; auto. apply IH. lia.
Qed.

Lemma nth_upd_other {A} (d : A) a n m v :
  n <> m -> nth m (upd a n v) d = nth m a d.
Proof.
  revert n m; induction a as [|x a IH]; intros [|n] [|m]; simpl; intros H;
    try congruence; auto.
Qed.

Lemma rd_wr_same {A} (d : A) a i v :
  0 <= i < Z.of_nat (length a) -> rd d (wr a i v) i = v.
Proof.
  intros H. unfold rd, wr. destruct (Z.ltb_spec i 0); [lia|].
  apply nth_upd_same. lia.
Qed.

Lemma rd_wr_other {A} (d : A) a i j v :
  i <> j -> rd d (wr a i v) j = rd d a j.
Proof.
  intros H. unfold rd, wr.
  destruct (Z.ltb_spec j 0); [reflexivity|].
  destruct (Z.ltb_spec i 0); [reflexivity|].
  apply nth_upd_other. lia.
Qed.

Lemma upd_perm {A} (d : A) a n v :
  (n < length a)%nat -> Permutation (v :: a) (nth n a d :: upd a n v).
Proof.
  revert n; induction a as [|x a IH]; intros [|n]; simpl; intros H; try lia.
  - apply perm_swap.
  - etransitivity; [apply perm_swap|].
    etransitivity; [apply perm_skip, (IH n); lia|]. apply perm_swap.
Qed.

Lemma firstn_upd {A} (a : list A) m n v :
  firstn m (upd a n v) = upd (firstn m a) n v.
Proof.
  revert m n; induction a as [|x a IH]; intros [|m] [|n]; simpl; auto.
  f_equal. apply IH.
Qed.

Lemma skipn_upd {A} (a : list A) m n v :
  (n < m)%nat -> skipn m (upd a n v) = skipn m a.
Proof.
  revert m n; induction a as [|x a IH]; intros [|m] [|n]; simpl; intros H;
    try lia; auto. apply IH. lia.
Qed.

Lemma upd_out {A} (a : list A) n v : (length a <= n)%nat -> upd a n v = a.
Proof.
  revert n; induction a as [|x a IH]; intros [|n]; simpl; intros H;
    try lia; auto. f_equal. apply IH. lia.
Qed.

Lemma nth_firstn_lt {A} (d : A) a m n :
  (n < m)%nat -> nth n (firstn m a) d = nth n a d.
Proof.
  revert m n; induction a as [|x a IH]; intros [|m] [|n]; simpl; intros H;
    try lia; auto. apply IH. lia.
Qed.

Lemma firstn_snoc {A} (d : A) a n :
  (n < length a)%nat -> firstn (S n) a = firstn n a ++ [nth n a d].
Proof.
  revert n; induction a as [|x a IH]; intros [|n]; simpl; intros H;
    try lia; auto. f_equal. apply IH. lia.
Qed.

Lemma length_swap a i j : length (swap_cells a i j) = length a.
Proof. unfold swap_cells. now rewrite !length_wr. Qed.

Lemma rd_swap a i j k :
  0 <= i < Z.of_nat (length a) -> 0 <= j < Z.of_nat (length a) ->
  rd 0 (swap_cells a i j) k =
  if k =? j then rd 0 a i else if k =? i then rd 0 a j else rd 0 a k.
Proof.
  intros Hi Hj. unfold swap_cells.
  destruct (Z.eqb_spec k j) as [->|Hkj].
  - apply rd_wr_same. now rewrite length_wr.
  - rewrite rd_wr_other by congruence.
    destruct (Z.eqb_spec k i) as [->|Hki].
    + now apply rd_wr_same.
    + now rewrite rd_wr_other by congruence.
Qed.

Lemma swap_perm a i j n :
  0 <= i < Z.of_nat n -> 0 <= j < Z.of_nat n -> (n <= length a)%nat ->
  Permutation (firstn n (swap_cells a i j)) (firstn n a).
Proof.
  intros Hi Hj Hn. unfold swap_cells, wr.
  destruct (Z.ltb_spec i 0); [lia|]. destruct (Z.ltb_spec j 0); [lia|].
  rewrite !firstn_upd.
  assert (Li : (Z.to_nat i < length (firstn n a))%nat)
    by (rewrite length_firstn; lia).
  assert (Lj : (Z.to_nat j < length (firstn n a))%nat)
    by (rewrite length_firstn; lia).
  set (b := firstn n a).
  assert (Ei : rd 0 a i = nth (Z.to_nat i) b 0).
  { unfold rd, b. destruct (Z.ltb_spec i 0); [lia|].
    now rewrite nth_firstn_lt by lia. }
  assert (Ej : rd 0 a j = nth (Z.to_nat j) b 0).
  { unfold rd, b. destruct (Z.ltb_spec j 0); [lia|].
    now rewrite nth_firstn_lt by lia. }
  rewrite Ei, Ej.
  apply (Permutation_cons_inv (a := nth (Z.to_nat j) b 0)). symmetry.
  etransitivity; [apply (upd_perm 0 b (Z.to_nat i)); exact Li|].
  etransitivity;
    [apply (upd_perm 0 (upd b (Z.to_nat i) (nth (Z.to_nat j) b 0))
                     (Z.to_nat j)); now rewrite length_upd|].
  destruct (Nat.eq_dec (Z.to_nat i) (Z.to_nat j)) as [E|E].
  - rewrite E, nth_upd_same by exact Lj. reflexivity.
  - rewrite nth_upd_other by exact E. reflexivity.
Qed.

Lemma skipn_swap a i j n :
  0 <= i < Z.of_nat n -> 0 <= j < Z.of_nat n ->
  skipn n (swap_cells a i j) = skipn n a.
Proof.
  intros Hi Hj. unfold swap_cells, wr.
  destruct (Z.ltb_spec i 0); [lia|]. destruct (Z.ltb_spec j 0); [lia|].
  rewrite !skipn_upd by lia. reflexivity.
Qed.

Lemma rd_take {A} (d : A) a n k : 0 <= k < n -> rd d (take a n) k = rd d a k.
Proof.
  intros H. unfold rd, take. destruct (Z.ltb_spec k 0); [lia|].
  apply nth_firstn_lt. lia.
Qed.

Lemma length_take {A} (a : list A) n :
  0 <= n <= Z.of_nat (length a) -> Z.of_nat (length (take a n)) = n.
Proof. intros H. unfold take. rewrite length_firstn. lia. Qed.

Lemma upd_snoc {A} (l : list A) x v : upd (l ++ [x]) (length l) v = l ++ [v].
Proof. induction l as [|y l IH]; simpl; [reflexivity|now rewrite IH]. Qed.

Lemma take_snoc {A} (d : A) a n :
  0 <= n < Z.of_nat (length a) -> take a (n + 1) = take a n ++ [rd d a n].
Proof.
  intros H. unfold take, rd. destruct (Z.ltb_spec n 0); [lia|].
  replace (Z.to_nat (n + 1)) with (S (Z.to_nat n)) by lia.
  apply firstn_snoc. lia.
Qed.

Lemma take_wr_out {A} (a : list A) n i v :
  n <= i -> take (wr a i v) n = take a n.
Proof.
  intros H. unfold take, wr. destruct (Z.ltb_spec i 0); [reflexivity|].
  rewrite firstn_upd. apply upd_out. rewrite length_firstn. lia.
Qed.

Lemma take_wr_end {A} (a : list A) n v :
  0 <= n < Z.of_nat (length a) -> take (wr a n v) (n + 1) = take a n ++ [v].
Proof.
  intros H. rewrite (take_snoc v) by (rewrite length_wr; lia).
  now rewrite take_wr_out, rd_wr_same by lia.
Qed.

Lemma take_wr_in {A} (a : list A) n i v :
  0 <= i -> take (wr a i v) n = upd (take a n) (Z.to_nat i) v.
Proof.
  intros H. unfold take, wr. destruct (Z.ltb_spec i 0); [lia|].
  apply firstn_upd.
Qed.

Lemma rd_in_take {A} (d : A) a n k :
  0 <= k < n -> n <= Z.of_nat (length a) -> In (rd d a k) (take a n).
Proof.
  intros Hk Hn. rewrite <- (rd_take d a n k) by lia. unfold rd.
  destruct (Z.ltb_spec k 0); [lia|]. apply nth_In.
  pose proof (length_take a n). lia.
Qed.

Lemma in_firstn_le {A} (a : list A) (n m : nat) x :
  (n <= m)%nat -> In x (firstn n a) -> In x (firstn m a).
Proof.
  revert n m; induction a as [|y a IH]; intros [|n] [|m]; simpl; intros H Hx;
    try lia; auto.
  destruct Hx as [->|Hx]; [now left|right]. apply (IH n); [lia|exact Hx].
Qed.

Lemma in_take_le {A} (a : list A) n m x :
  n <= m -> In x (take a n) -> In x (take a m).
Proof. intros H. apply in_firstn_le. lia. Qed.

(** Removing the cell [i] of the first [n] by moving the last of them
    into it. *)
Lemma take_remove {A} (d : A) a n i :
  0 <= i < n -> n <= Z.of_nat (length a) ->
  Permutation (take a n)
              (rd d a i :: take (wr a i (rd d a (n - 1))) (n - 1)).
Proof.
  intros Hi Hn.
  replace (take a n) with (take a (n - 1 + 1)) by (f_equal; lia).
  rewrite (take_snoc d) by lia.
  etransitivity; [symmetry; apply Permutation_cons_append|].
  rewrite take_wr_in by lia.
  destruct (Z.eq_dec i (n - 1)) as [->|Hne].
  - rewrite upd_out; [reflexivity|].
    pose proof (length_take a (n - 1)). lia.
  - rewrite <- (rd_take d a (n - 1) i) by lia.
    unfold rd at 2. destruct (Z.ltb_spec i 0); [lia|].
    apply upd_perm. pose proof (length_take a (n - 1)). lia.
Qed.

Lemma Forall_upd {A} (P : A -> Prop) l n v :
  Forall P l -> P v -> Forall P (upd l n v).
Proof.
  intros H Hv. revert n. induction H as [|x l Hx Hl IH]; intros [|n]; simpl;
    constructor; auto.
Qed.

Lemma map_upd {A B} (f : A -> B) l n v :
  map f (upd l n v) = upd (map f l) n (f v).
Proof.
  revert n; induction l as [|x l IH]; intros [|n]; simpl; auto.
  now rewrite IH.
Qed.

(** * Properties of the program *)

Section QueueFacts.

Variable weight : Z -> float.
Variable task_overlap : option Z -> Z -> float.
Variable LockState : Type.
Variable task_lock : LockState -> Z -> bool * LockState.
Variable queue_sizeinit : Z.
Variable queue_sizegrow : Z.
Variable queue_search_window : Z.
Variable queue_incoming_size : Z.

(** The definitions of the program at these parameters. *)
Local Abbreviation w_of := (w_of weight).
Local Abbreviation bubble_up_loop := (bubble_up_loop weight).
Local Abbreviation queue_bubble_up := (queue_bubble_up weight).
Local Abbreviation sift_child := (sift_child weight).
Local Abbreviation sift_down_loop := (sift_down_loop weight).
Local Abbreviation queue_sift_down := (queue_sift_down weight).
Local Abbreviation queue_grow := (queue_grow queue_sizegrow).
Local Abbreviation get_incoming_body :=
  (get_incoming_body weight queue_sizegrow).
Local Abbreviation get_incoming_loop :=
  (get_incoming_loop weight queue_sizegrow queue_incoming_size).
Local Abbreviation queue_get_incoming :=
  (queue_get_incoming weight queue_sizegrow queue_incoming_size).
Local Abbreviation insert_spin :=
  (insert_spin weight queue_sizegrow queue_incoming_size).
Local Abbreviation queue_insert :=
  (queue_insert weight queue_sizegrow queue_incoming_size).
Local Abbreviation queue_init :=
  (queue_init queue_sizeinit queue_incoming_size).
Local Abbreviation sel_init := (sel_init LockState queue_search_window).
Local Abbreviation scan_body :=
  (scan_body task_overlap LockState task_lock queue_search_window).
Local Abbreviation scan_step :=
  (scan_step task_overlap LockState task_lock queue_search_window).
Local Abbreviation rest_body := (rest_body LockState task_lock).
Local Abbreviation rest_step := (rest_step LockState task_lock).
Local Abbreviation scan_loop :=
  (scan_loop task_overlap LockState task_lock queue_search_window).
Local Abbreviation unbroken := (unbroken LockState).
Local Abbreviation rest_loop := (rest_loop LockState task_lock).
Local Abbreviation select_task :=
  (select_task task_overlap LockState task_lock queue_search_window).
Local Abbreviation queue_remove := (queue_remove weight).
Local Abbreviation queue_gettask :=
  (queue_gettask weight task_overlap LockState task_lock queue_sizegrow
   queue_search_window queue_incoming_size).
Local Abbreviation hge := (hge weight).
Local Abbreviation heap_ok := (heap_ok weight).
Local Abbreviation heap_but := (heap_but weight).
Local Abbreviation parent_ok := (parent_ok weight).
Local Abbreviation children_ok := (children_ok weight).
Local Abbreviation incoming_wf := (incoming_wf queue_incoming_size).
Local Abbreviation queue_wf := (queue_wf queue_incoming_size).
Local Abbreviation queue_heap_ok := (queue_heap_ok weight).
Local Abbreviation sift_child_right_ties := (sift_child_right_ties weight).
Local Abbreviation sift_child_left_ties := (sift_child_left_ties weight).
Local Abbreviation scan_cell := (scan_cell LockState queue_search_window).
Local Abbreviation in_window := (in_window queue_search_window).
Local Abbreviation active := (active LockState).
Local Abbreviation lock_fails := (lock_fails LockState task_lock).
Local Abbreviation trace := (trace LockState).
Local Abbreviation run_op :=
  (run_op weight task_overlap LockState task_lock queue_sizegrow
   queue_search_window queue_incoming_size).
Local Abbreviation run :=
  (run weight task_overlap LockState task_lock queue_sizegrow
   queue_search_window queue_incoming_size).
Local Abbreviation start :=
  (start LockState queue_sizeinit queue_incoming_size).
Local Abbreviation ring_ok := (ring_ok queue_incoming_size).
Local Abbreviation gettask_repeat :=
  (gettask_repeat weight task_overlap LockState task_lock queue_sizegrow
   queue_search_window queue_incoming_size).
Local Abbreviation insert_drain_all :=
  (insert_drain_all weight queue_sizegrow queue_incoming_size).
Local Abbreviation conserved := (conserved LockState).
Local Abbreviation scan_window_inv :=
  (scan_window_inv LockState queue_search_window).
Local Abbreviation rest_window_inv :=
  (rest_window_inv LockState queue_search_window).
Local Abbreviation scan_inv :=
  (scan_inv LockState task_lock queue_search_window).
Local Abbreviation rest_inv :=
  (rest_inv LockState task_lock queue_search_window).
Local Abbreviation found := (found LockState task_lock).
Local Abbreviation root_inv :=
  (root_inv task_overlap LockState queue_search_window).
Local Abbreviation root_found := (root_found LockState).
Local Abbreviation lock_fails_nil := (lock_fails_nil LockState task_lock).
Local Abbreviation lock_fails_cons := (lock_fails_cons LockState task_lock).
Local Abbreviation mkTrace := (mkTrace LockState).
Local Abbreviation r_queue := (r_queue LockState).
Local Abbreviation r_locks := (r_locks LockState).
Local Abbreviation r_inserted := (r_inserted LockState).
Local Abbreviation r_returned := (r_returned LockState).

(** ** The two sift loops: shape of the result *)

Lemma parent_range (i : Z) : 0 < i -> 0 <= (i - 1) ÷ 2 < i.
Proof.
  intros H. rewrite Z.quot_div_nonneg by lia. split.
  - apply Z.div_pos; lia.
  - apply Z.div_lt_upper_bound; lia.
Qed.

Lemma bubble_up_loop_shape (fuel : nat) (w : float) (n : Z) :
  forall a i a' i',
    0 <= i < n -> n <= Z.of_nat (length a) ->
    bubble_up_loop fuel w a i = (a', i') ->
    length a' = length a /\ 0 <= i' <= i
    /\ Permutation (heap_of a' n) (heap_of a n)
    /\ skipn (Z.to_nat n) a' = skipn (Z.to_nat n) a
    /\ rd 0 a' i' = rd 0 a i.
Proof.
  induction fuel as [|fuel IH]; intros a i a' i' Hi Hn E; simpl in E.
  - inversion E; subst. repeat split; auto; lia.
  - destruct (Z.gtb_spec i 0) as [Hpos|Hz].
    2:{ inversion E; subst. repeat split; auto; lia. }
    destruct (Float.lt w (w_of a ((i - 1) ÷ 2))).
    { inversion E; subst. repeat split; auto; lia. }
    pose proof (parent_range i Hpos) as Hp.
    fold (swap_cells a i ((i - 1) ÷ 2)) in E.
    apply IH in E; [|lia|rewrite length_swap; lia].
    destruct E as (L & R & P & S & V).
    rewrite length_swap in L. repeat split; auto; try lia.
    + rewrite P. apply swap_perm; lia.
    + rewrite S. apply skipn_swap; lia.
    + rewrite V, rd_swap by lia. now rewrite Z.eqb_refl.
Qed.

Lemma bubble_up_loop_fuel (w : float) :
  forall fuel fuel' a i,
    (Z.to_nat i <= fuel)%nat -> (Z.to_nat i <= fuel')%nat ->
    bubble_up_loop fuel w a i = bubble_up_loop fuel' w a i.
Proof.
  induction fuel as [|fuel IH]; intros [|fuel'] a i Hf Hf'; simpl;
    try reflexivity;
    destruct (Z.gtb_spec i 0) as [Hpos|]; try reflexivity; try lia.
  destruct (Float.lt w (w_of a ((i - 1) ÷ 2))); [reflexivity|].
  pose proof (parent_range i Hpos) as Hp. apply IH; lia.
Qed.

Lemma sift_child_range (n : Z) (a : list Z) (i : Z) :
  0 <= i -> 2 * i + 1 < n ->
  (sift_child n a i = 2 * i + 1 \/ sift_child n a i = 2 * i + 2)
  /\ i < sift_child n a i < n.
Proof.
  intros Hi Hc. unfold sift_child.
  destruct (Z.ltb_spec (2 * i + 1 + 1) n); cbn [andb].
  - destruct (Float.gt _ _); lia.
  - lia.
Qed.

Lemma sift_down_loop_shape (fuel : nat) (w : float) (n : Z) :
  forall a i a' i',
    0 <= i < n -> n <= Z.of_nat (length a) ->
    sift_down_loop fuel w n a i = (a', i') ->
    length a' = length a /\ i <= i' < n
    /\ Permutation (heap_of a' n) (heap_of a n)
    /\ skipn (Z.to_nat n) a' = skipn (Z.to_nat n) a
    /\ rd 0 a' i' = rd 0 a i.
Proof.
  induction fuel as [|fuel IH]; intros a i a' i' Hi Hn E; cbn [sift_down_loop] in E.
  - inversion E; subst. repeat split; auto; lia.
  - destruct (Z.geb_spec (2 * i + 1) n) as [Hc|Hc].
    { inversion E; subst. repeat split; auto; lia. }
    destruct (sift_child_range n a i) as [_ Hr]; [lia..|].
    set (c := sift_child n a i) in *.
    destruct (Float.gt (w_of a c) w).
    2:{ inversion E; subst. repeat split; auto; lia. }
    fold (swap_cells a c i) in E.
    apply IH in E; [|lia|rewrite length_swap; lia].
    destruct E as (L & R & P & S & V).
    rewrite length_swap in L. repeat split; auto; try lia.
    + rewrite P. apply swap_perm; lia.
    + rewrite S. apply skipn_swap; lia.
    + rewrite V, rd_swap by lia.
      destruct (Z.eqb_spec c i); [lia|]. now rewrite Z.eqb_refl.
Qed.

Lemma sift_down_loop_fuel (w : float) (n : Z) :
  forall fuel fuel' a i,
    0 <= i -> (Z.to_nat (n - i) <= fuel)%nat ->
    (Z.to_nat (n - i) <= fuel')%nat ->
    sift_down_loop fuel w n a i = sift_down_loop fuel' w n a i.
Proof.
  induction fuel as [|fuel IH]; intros [|fuel'] a i Hi Hf Hf'; cbn [sift_down_loop];
    try reflexivity;
    destruct (Z.geb_spec (2 * i + 1) n) as [|Hc]; try reflexivity; try lia.
  destruct (sift_child_range n a i) as [_ Hr]; [lia..|].
  set (c := sift_child n a i) in *.
  destruct (Float.gt (w_of a c) w); [|reflexivity].
  apply IH; lia.
Qed.

(** ** The two sift loops: order *)

Hypothesis weight_not_nan : forall t, Float.is_nan (weight t) = false.

Lemma quot2_spec (k : Z) :
  1 <= k -> 2 * ((k - 1) ÷ 2) + 1 <= k <= 2 * ((k - 1) ÷ 2) + 2.
Proof.
  intros H. rewrite Z.quot_div_nonneg by lia.
  pose proof (Z.div_mod (k - 1) 2). pose proof (Z.mod_pos_bound (k - 1) 2).
  lia.
Qed.

Lemma hge_refl a i : hge a i i.
Proof. apply FloatFacts.ge_refl, weight_not_nan. Qed.

Lemma hge_trans a b c i j k :
  Float.ge (w_of a i) (w_of b j) = true ->
  Float.ge (w_of b j) (w_of c k) = true ->
  Float.ge (w_of a i) (w_of c k) = true.
Proof. apply FloatFacts.ge_trans; apply weight_not_nan. Qed.

Lemma not_lt_ge a b i j :
  Float.lt (w_of a i) (w_of b j) = false ->
  Float.ge (w_of a i) (w_of b j) = true.
Proof.
  rewrite FloatFacts.lt_false_ge by apply weight_not_nan.
  now destruct (Float.ge _ _).
Qed.

Lemma not_gt_ge a b i j :
  Float.gt (w_of a i) (w_of b j) = false ->
  Float.ge (w_of b j) (w_of a i) = true.
Proof.
  rewrite FloatFacts.gt_false_ge by apply weight_not_nan.
  now destruct (Float.ge _ _).
Qed.

Lemma w_of_swap a i j k :
  0 <= i < Z.of_nat (length a) -> 0 <= j < Z.of_nat (length a) ->
  w_of (swap_cells a i j) k =
  if k =? j then w_of a i else if k =? i then w_of a j else w_of a k.
Proof.
  intros Hi Hj. unfold w_of. rewrite rd_swap by assumption.
  destruct (k =? j); [reflexivity|]. now destruct (k =? i).
Qed.

Lemma heap_ok_split a n i :
  heap_but a n i -> parent_ok a i -> children_ok a n i -> heap_ok a n.
Proof.
  intros [H1 H2] Hp Hc k Hk.
  destruct (Z.eq_dec k i) as [->|Hki]; [apply Hp; lia|].
  destruct (Z.eq_dec ((k - 1) ÷ 2) i) as [E|E].
  - rewrite E. now apply Hc.
  - now apply H1.
Qed.

Lemma heap_but_of_ok a n i : heap_ok a n -> heap_but a n i.
Proof.
  intros H. split.
  - intros k Hk _ _. now apply H.
  - intros k Hk E Hi. pose proof (quot2_spec k).
    apply (hge_trans a a a _ i).
    + apply H. lia.
    + rewrite <- E. now apply H.
Qed.

Lemma bubble_up_loop_order (w : float) (n : Z) :
  forall fuel a i a' i',
    0 <= i < n -> n <= Z.of_nat (length a) -> (Z.to_nat i <= fuel)%nat ->
    w = w_of a i -> heap_but a n i ->
    bubble_up_loop fuel w a i = (a', i') ->
    heap_but a' n i' /\ parent_ok a' i'
    /\ (children_ok a n i \/ i' < i -> children_ok a' n i').
Proof.
  induction fuel as [|fuel IH]; intros a i a' i' Hi Hn Hf Hw Hb E;
    cbn [bubble_up_loop] in E.
  - inversion E; subst a' i'. repeat split; try apply Hb.
    + intros ?; lia.
    + intros [?|?]; [assumption|lia].
  - destruct (Z.gtb_spec i 0) as [Hpos|Hz].
    2:{ inversion E; subst a' i'. repeat split; try apply Hb.
        - intros ?; lia.
        - intros [?|?]; [assumption|lia]. }
    destruct (Float.lt w (w_of a ((i - 1) ÷ 2))) eqn:Hlt.
    { inversion E; subst a' i'. repeat split; try apply Hb.
      - intros _. unfold hge. rewrite <- Hw. now apply FloatFacts.lt_ge.
      - intros [?|?]; [assumption|lia]. }
    pose proof (quot2_spec i) as Hq.
    set (p := (i - 1) ÷ 2) in *.
    fold (swap_cells a i p) in E.
    assert (Hwp : Float.ge (w_of a i) (w_of a p) = true)
      by (apply not_lt_ge; now rewrite <- Hw).
    destruct Hb as [H1 H2].
    assert (Hsw : forall k, w_of (swap_cells a i p) k =
                  if k =? p then w_of a i else
                  if k =? i then w_of a p else w_of a k)
      by (intros k; apply w_of_swap; lia).
    assert (Hch : children_ok (swap_cells a i p) n p).
    { intros k Hk Ek. unfold hge. rewrite !Hsw, Z.eqb_refl.
      pose proof (quot2_spec k).
      destruct (Z.eqb_spec k p); [lia|].
      destruct (Z.eqb_spec k i) as [->|Hki]; [exact Hwp|].
      apply (hge_trans a a a i p k); [exact Hwp|].
      rewrite <- Ek. apply H1; lia. }
    apply IH in E; try lia.
    + destruct E as (B & P & C). repeat split; try apply B; try exact P.
      intros _. apply C. now left.
    + rewrite length_swap. lia.
    + now rewrite Hsw, Z.eqb_refl.
    + split.
      * intros k Hk Hkp Hpar. pose proof (quot2_spec k).
        unfold hge. rewrite !Hsw.
        destruct (Z.eqb_spec k p); [lia|].
        destruct (Z.eqb_spec k i); [lia|].
        destruct (Z.eqb_spec ((k - 1) ÷ 2) p); [lia|].
        destruct (Z.eqb_spec ((k - 1) ÷ 2) i) as [Ei|Ei].
        -- apply (H2 k); lia.
        -- apply H1; lia.
      * intros k Hk Ek Hp1. pose proof (quot2_spec k).
        pose proof (quot2_spec p).
        unfold hge. rewrite !Hsw.
        destruct (Z.eqb_spec ((p - 1) ÷ 2) p); [lia|].
        destruct (Z.eqb_spec ((p - 1) ÷ 2) i); [lia|].
        destruct (Z.eqb_spec k p); [lia|].
        assert (Hpp : hge a ((p - 1) ÷ 2) p) by (apply H1; lia).
        destruct (Z.eqb_spec k i) as [->|Hki]; [exact Hpp|].
        apply (hge_trans a a a _ p k); [exact Hpp|].
        rewrite <- Ek. apply H1; lia.
Qed.

Lemma sift_down_loop_order (w : float) (n : Z) :
  forall fuel a i a' i',
    0 <= i < n -> n <= Z.of_nat (length a) ->
    (Z.to_nat (n - i) <= fuel)%nat ->
    w = w_of a i -> heap_but a n i -> parent_ok a i ->
    sift_down_loop fuel w n a i = (a', i') ->
    heap_ok a' n.
Proof.
  induction fuel as [|fuel IH]; intros a i a' i' Hi Hn Hf Hw Hb Hp E;
    cbn [sift_down_loop] in E; [lia|].
  destruct (Z.geb_spec (2 * i + 1) n) as [Hc|Hc].
  { inversion E; subst a' i'. apply (heap_ok_split a n i); auto.
    intros k Hk Ek. pose proof (quot2_spec k). lia. }
  destruct (sift_child_range n a i) as [Hc12 Hr]; [lia..|].
  assert (Hmax : forall k, 1 <= k < n -> (k - 1) ÷ 2 = i ->
                           hge a (sift_child n a i) k).
  { intros k Hk Ek. pose proof (quot2_spec k).
    unfold sift_child in *.
    destruct (Z.ltb_spec (2 * i + 1 + 1) n) as [H2|H2]; cbn [andb] in *.
    - destruct (Float.gt (w_of a (2 * i + 1 + 1)) (w_of a (2 * i + 1)))
        eqn:G.
      + assert (k = 2 * i + 1 + 1 \/ k = 2 * i + 1) as [->| ->] by lia.
        * apply hge_refl.
        * now apply FloatFacts.gt_ge.
      + assert (k = 2 * i + 1 + 1 \/ k = 2 * i + 1) as [->| ->] by lia.
        * now apply not_gt_ge.
        * apply hge_refl.
    - assert (k = 2 * i + 1) as -> by lia. apply hge_refl. }
  set (c := sift_child n a i) in *.
  destruct (Float.gt (w_of a c) w) eqn:G.
  2:{ inversion E; subst a' i'. apply (heap_ok_split a n i); auto.
      intros k Hk Ek. apply (hge_trans a a a i c k).
      - rewrite Hw in G. now apply not_gt_ge.
      - now apply Hmax. }
  fold (swap_cells a c i) in E.
  assert (Hsw : forall k, w_of (swap_cells a c i) k =
                if k =? i then w_of a c else
                if k =? c then w_of a i else w_of a k)
    by (intros k; apply w_of_swap; lia).
  assert (Eci : (c - 1) ÷ 2 = i).
  { pose proof (quot2_spec c). lia. }
  destruct Hb as [H1 H2].
  apply IH in E; try lia; auto.
  - rewrite length_swap. lia.
  - rewrite Hsw. destruct (Z.eqb_spec c i); [lia|]. now rewrite Z.eqb_refl.
  - split.
    + intros k Hk Hkc Hpar. pose proof (quot2_spec k).
      unfold hge. rewrite !Hsw.
      destruct (Z.eqb_spec ((k - 1) ÷ 2) c); [lia|].
      destruct (Z.eqb_spec k c); [lia|].
      destruct (Z.eqb_spec k i) as [->|Hki].
      * destruct (Z.eqb_spec ((i - 1) ÷ 2) i); [lia|].
        apply (H2 c); lia.
      * destruct (Z.eqb_spec ((k - 1) ÷ 2) i) as [Ei|Ei].
        -- now apply Hmax.
        -- now apply H1.
    + intros k Hk Ek _. pose proof (quot2_spec k).
      unfold hge. rewrite Eci, !Hsw, Z.eqb_refl.
      destruct (Z.eqb_spec k i); [lia|].
      destruct (Z.eqb_spec k c); [lia|].
      rewrite <- Ek. apply H1; lia.
  - intros _. unfold hge. rewrite Eci, !Hsw, !Z.eqb_refl.
    destruct (Z.eqb_spec c i); [lia|].
    rewrite <- Hw. now apply FloatFacts.gt_ge.
Qed.

(** ** [queue_bubble_up] and [queue_sift_down] on a queue *)

(** Reading a field of an updated queue. *)
Ltac qsimpl :=
  cbn [lock tid size count tid_incoming first_incoming last_incoming
       count_incoming set_lock set_tid set_size set_count set_tid_incoming
       set_first_incoming set_last_incoming set_count_incoming fst snd] in *.

Lemma set_tid_same (q : queue) : set_tid q (tid q) = q.
Proof. now destruct q. Qed.

Lemma queue_bubble_up_eq (q : queue) (ind : Z) :
  queue_bubble_up q ind =
  (set_tid q (fst (bubble_up_loop (Z.to_nat ind) (w_of (tid q) ind)
                                  (tid q) ind)),
   snd (bubble_up_loop (Z.to_nat ind) (w_of (tid q) ind) (tid q) ind)).
Proof. unfold queue_bubble_up. now destruct (bubble_up_loop _ _ _ _). Qed.

Lemma queue_sift_down_eq (q : queue) (ind : Z) :
  queue_sift_down q ind =
  (set_tid q (fst (sift_down_loop (Z.to_nat (count q - ind))
                     (w_of (tid q) ind) (count q) (tid q) ind)),
   snd (sift_down_loop (Z.to_nat (count q - ind)) (w_of (tid q) ind)
                       (count q) (tid q) ind)).
Proof. unfold queue_sift_down. now destruct (sift_down_loop _ _ _ _ _). Qed.

Lemma queue_bubble_up_shape (q q' : queue) (ind ind' : Z) :
  0 <= ind < count q -> count q <= Z.of_nat (length (tid q)) ->
  queue_bubble_up q ind = (q', ind') ->
  q' = set_tid q (tid q') /\ length (tid q') = length (tid q)
  /\ 0 <= ind' <= ind
  /\ Permutation (heap_of (tid q') (count q)) (heap_of (tid q) (count q))
  /\ skipn (Z.to_nat (count q)) (tid q') = skipn (Z.to_nat (count q)) (tid q)
  /\ rd 0 (tid q') ind' = rd 0 (tid q) ind.
Proof.
  intros Hi Hn E. rewrite queue_bubble_up_eq in E.
  destruct (bubble_up_loop _ _ _ _) as [a' i'] eqn:L.
  inversion E; subst q' ind'. cbn [fst snd] in *.
  split; [now destruct q|].
  now apply (bubble_up_loop_shape _ _ (count q)) in L.
Qed.

Lemma queue_sift_down_shape (q q' : queue) (ind ind' : Z) :
  0 <= ind < count q -> count q <= Z.of_nat (length (tid q)) ->
  queue_sift_down q ind = (q', ind') ->
  q' = set_tid q (tid q') /\ length (tid q') = length (tid q)
  /\ ind <= ind' < count q
  /\ Permutation (heap_of (tid q') (count q)) (heap_of (tid q) (count q))
  /\ skipn (Z.to_nat (count q)) (tid q') = skipn (Z.to_nat (count q)) (tid q)
  /\ rd 0 (tid q') ind' = rd 0 (tid q) ind.
Proof.
  intros Hi Hn E. rewrite queue_sift_down_eq in E.
  destruct (sift_down_loop _ _ _ _ _) as [a' i'] eqn:L.
  inversion E; subst q' ind'. cbn [fst snd] in *.
  split; [now destruct q|].
  now apply sift_down_loop_shape in L.
Qed.

(** C10: from an index inside the heap, [queue_bubble_up] and
    [queue_sift_down] return an index inside the heap, keep the tasks of the
    heap array as a multiset, and change neither the cells beyond [count]
    nor any other field of the queue. *)
Theorem sift_functions_permute_heap (q : queue) (ind : Z) :
  0 <= ind < count q -> count q <= Z.of_nat (length (tid q)) ->
  let up := queue_bubble_up q ind in
  let down := queue_sift_down q ind in
  (0 <= snd up < count q
   /\ Permutation (heap_of (tid (fst up)) (count q))
                  (heap_of (tid q) (count q))
   /\ skipn (Z.to_nat (count q)) (tid (fst up))
      = skipn (Z.to_nat (count q)) (tid q)
   /\ fst up = set_tid q (tid (fst up)))
  /\ (0 <= snd down < count q
      /\ Permutation (heap_of (tid (fst down)) (count q))
                     (heap_of (tid q) (count q))
      /\ skipn (Z.to_nat (count q)) (tid (fst down))
         = skipn (Z.to_nat (count q)) (tid q)
      /\ fst down = set_tid q (tid (fst down))).
Proof.
  intros Hi Hn up down. split.
  - destruct (queue_bubble_up_shape q (fst up) ind (snd up) Hi Hn)
      as (E & _ & R & P & S & _); [subst up; now destruct (queue_bubble_up _ _)|].
    repeat split; auto; lia.
  - destruct (queue_sift_down_shape q (fst down) ind (snd down) Hi Hn)
      as (E & _ & R & P & S & _);
      [subst down; now destruct (queue_sift_down _ _)|].
    repeat split; auto; lia.
Qed.

(** C5: [queue_bubble_up] exchanges the entry with its parent while the
    entry is not at the root and its weight is at least its parent's (an
    equal weight moves up), and the index it returns is where the entry ends
    up. *)
Theorem queue_bubble_up_ties_move_up (q : queue) (ind : Z) :
  0 <= ind < Z.of_nat (length (tid q)) ->
  queue_bubble_up q ind =
    (if (ind >? 0)
        && Float.ge (w_of (tid q) ind) (w_of (tid q) ((ind - 1) ÷ 2))
     then queue_bubble_up
            (set_tid q (swap_cells (tid q) ind ((ind - 1) ÷ 2)))
            ((ind - 1) ÷ 2)
     else (q, ind))
  /\ rd 0 (tid (fst (queue_bubble_up q ind))) (snd (queue_bubble_up q ind))
     = rd 0 (tid q) ind.
Proof.
  intros Hi. split.
  - rewrite !queue_bubble_up_eq.
    destruct (Z.gtb_spec ind 0) as [Hpos|Hz]; cbn [andb].
    + pose proof (parent_range ind Hpos) as Hp.
      destruct (Z.to_nat ind) as [|m] eqn:Em; [lia|].
      cbn [bubble_up_loop]. destruct (Z.gtb_spec ind 0); [|lia].
      rewrite FloatFacts.lt_false_ge by apply weight_not_nan.
      destruct (Float.ge (w_of (tid q) ind) _); cbn [negb].
      * fold (swap_cells (tid q) ind ((ind - 1) ÷ 2)).
        cbn [tid set_tid].
        rewrite w_of_swap, Z.eqb_refl by lia.
        rewrite (bubble_up_loop_fuel _ m (Z.to_nat ((ind - 1) ÷ 2))) by lia.
        now destruct q.
      * cbn [fst snd]. now rewrite set_tid_same.
    + replace (Z.to_nat ind) with O by lia. cbn [bubble_up_loop fst snd].
      now rewrite set_tid_same.
  - rewrite queue_bubble_up_eq. cbn [fst snd tid set_tid].
    destruct (bubble_up_loop _ _ _ _) as [a' i'] eqn:L.
    apply (bubble_up_loop_shape _ _ (Z.of_nat (length (tid q)))) in L;
      [|lia..]. cbn [fst snd]. apply L.
Qed.

Lemma sift_child_left (n : Z) (a : list Z) (i : Z) :
  sift_child n a i = sift_child_left_ties n a i.
Proof.
  unfold sift_child, sift_child_left_ties.
  replace (2 * i + 1 + 1) with (2 * i + 2) by lia.
  now rewrite FloatFacts.gt_false_ge by apply weight_not_nan.
Qed.

(** C4, amended: at each step [queue_sift_down] selects the child with the
    larger weight, the left child on a tie, and exchanges the entry with it
    exactly when that child's weight is strictly greater than the entry's. *)
Theorem queue_sift_down_left_on_ties (q : queue) (ind : Z) :
  0 <= ind -> count q <= Z.of_nat (length (tid q)) ->
  queue_sift_down q ind =
    if 2 * ind + 1 <? count q then
      let child := sift_child_left_ties (count q) (tid q) ind in
      if Float.gt (w_of (tid q) child) (w_of (tid q) ind)
      then queue_sift_down (set_tid q (swap_cells (tid q) child ind)) child
      else (q, ind)
    else (q, ind).
Proof.
  intros Hi Hn. cbn zeta. rewrite <- sift_child_left.
  rewrite !queue_sift_down_eq.
  destruct (Z.ltb_spec (2 * ind + 1) (count q)) as [Hc|Hc].
  - destruct (Z.to_nat (count q - ind)) as [|m] eqn:Em; [lia|].
    cbn [sift_down_loop]. destruct (Z.geb_spec (2 * ind + 1) (count q)); [lia|].
    destruct (sift_child_range (count q) (tid q) ind) as [_ Hr]; [lia..|].
    set (c := sift_child (count q) (tid q) ind) in *.
    destruct (Float.gt (w_of (tid q) c) (w_of (tid q) ind)).
    + fold (swap_cells (tid q) c ind). cbn [tid set_tid count].
      rewrite w_of_swap by lia.
      destruct (Z.eqb_spec c ind); [lia|]. rewrite Z.eqb_refl.
      rewrite (sift_down_loop_fuel _ _ m (Z.to_nat (count q - c))) by lia.
      now destruct q.
    + cbn [fst snd]. now rewrite set_tid_same.
  - destruct (Z.to_nat (count q - ind)) as [|m]; cbn [sift_down_loop].
    + cbn [fst snd]. now rewrite set_tid_same.
    + destruct (Z.geb_spec (2 * ind + 1) (count q)); [|lia].
      cbn [fst snd]. now rewrite set_tid_same.
Qed.

(** ** The heap as a list *)

Lemma rd_heap_of a n k : 0 <= k < n -> rd 0 (heap_of a n) k = rd 0 a k.
Proof. apply rd_take. Qed.

Lemma heap_ok_ext a b n :
  heap_of a n = heap_of b n -> heap_ok a n -> heap_ok b n.
Proof.
  intros E H k Hk. pose proof (quot2_spec k). specialize (H k Hk).
  unfold hge, w_of in *.
  rewrite <- (rd_heap_of b n), <- (rd_heap_of b n k) by lia.
  rewrite <- E. now rewrite !rd_heap_of by lia.
Qed.

Lemma heap_of_wr_end a n v :
  0 <= n < Z.of_nat (length a) ->
  heap_of (wr a n v) (n + 1) = heap_of a n ++ [v].
Proof. apply take_wr_end. Qed.

Lemma length_heap_of a n :
  0 <= n <= Z.of_nat (length a) -> Z.of_nat (length (heap_of a n)) = n.
Proof. apply length_take. Qed.

(** ** Appending a task to the heap *)

Lemma push_order a n v a' i' :
  0 <= n < Z.of_nat (length a) -> heap_ok a n ->
  bubble_up_loop (Z.to_nat n) (w_of (wr a n v) n) (wr a n v) n = (a', i') ->
  heap_ok a' (n + 1).
Proof.
  intros Hn H E.
  apply (bubble_up_loop_order _ (n + 1)) in E; try lia; auto.
  - destruct E as (B & P & C). apply (heap_ok_split a' (n + 1) i'); auto.
    apply C. left. intros k Hk Ek. pose proof (quot2_spec k). lia.
  - rewrite length_wr. lia.
  - split.
    + intros k Hk Hkn Hp. pose proof (quot2_spec k).
      unfold hge, w_of. rewrite !rd_wr_other by lia. apply H. lia.
    + intros k Hk Ek. pose proof (quot2_spec k). lia.
Qed.

Hypothesis incoming_size_pos : 0 < queue_incoming_size.
Hypothesis sizegrow_ge2 : 2 <= queue_sizegrow.

Lemma queue_grow_spec (q : queue) :
  Z.of_nat (length (tid q)) = size q -> 0 <= count q <= size q ->
  0 < size q ->
  let g := queue_grow q in
  Z.of_nat (length (tid g)) = size g /\ size g = size q * queue_sizegrow
  /\ heap_of (tid g) (count q) = heap_of (tid q) (count q)
  /\ g = set_tid (set_size q (size g)) (tid g).
Proof.
  intros L C S g. subst g. unfold queue_grow, memcpy, malloc, heap_of.
  cbn [tid size count set_size set_tid].
  repeat split.
  - rewrite length_app, length_firstn, length_skipn, repeat_length.
    assert (size q <= size q * queue_sizegrow) by nia. lia.
  - rewrite firstn_app, firstn_firstn, length_firstn.
    replace (Z.to_nat (count q) - _)%nat with O by lia.
    rewrite Nat.min_id. cbn [firstn]. apply app_nil_r.
Qed.

Lemma get_incoming_body_spec (q : queue) (ind : Z) :
  heap_wf q -> 0 <= rd 0 (tid_incoming q) ind ->
  let offset := rd 0 (tid_incoming q) ind in
  let q' := get_incoming_body q ind in
  heap_wf q' /\ count q' = count q + 1 /\ size q <= size q'
  /\ Permutation (heap_of (tid q') (count q'))
                 (offset :: heap_of (tid q) (count q))
  /\ tid_incoming q' = wr (tid_incoming q) ind (-1)
  /\ first_incoming q' = uint_inc (first_incoming q)
  /\ last_incoming q' = last_incoming q
  /\ count_incoming q' = uint_dec (count_incoming q)
  /\ lock q' = lock q
  /\ exists a2,
      count q < Z.of_nat (length a2)
      /\ heap_of a2 (count q) = heap_of (tid q) (count q)
      /\ tid q' = fst (bubble_up_loop (Z.to_nat (count q))
                         (w_of (wr a2 (count q) offset) (count q))
                         (wr a2 (count q) offset) (count q)).
Proof.
  intros (L & C & S & F) Hoff offset q'. subst q'. unfold get_incoming_body.
  fold offset.
  set (q1 := set_first_incoming _ _).
  set (q2 := if count q1 =? size q1 then queue_grow q1 else q1).
  assert (H2 : Z.of_nat (length (tid q2)) = size q2 /\ count q < size q2
               /\ size q <= size q2
               /\ heap_of (tid q2) (count q) = heap_of (tid q) (count q)
               /\ q2 = set_tid (set_size q1 (size q2)) (tid q2)).
  { subst q2. destruct (Z.eqb_spec (count q1) (size q1)) as [E|E].
    - destruct (queue_grow_spec q1) as (L' & S' & H' & E'); auto.
      subst q1; qsimpl. repeat split; auto; nia.
    - subst q1; qsimpl. repeat split; auto; lia. }
  clearbody q2. destruct H2 as (L2 & C2 & S2 & H2 & E2).
  rewrite E2. subst q1. rewrite queue_bubble_up_eq. qsimpl.
  replace (count q + 1 - 1) with (count q) by lia.
  destruct (bubble_up_loop _ _ _ _) as [a' i'] eqn:B. qsimpl.
  pose proof B as Bs.
  apply (bubble_up_loop_shape _ _ (count q + 1)) in Bs;
    [|lia|rewrite length_wr; lia].
  destruct Bs as (La & _ & Pa & _ & _). rewrite length_wr in La.
  assert (Pm : Permutation (heap_of a' (count q + 1))
                           (offset :: heap_of (tid q) (count q))).
  { etransitivity; [exact Pa|]. rewrite heap_of_wr_end, H2 by lia.
    symmetry. apply Permutation_cons_append. }
  unfold heap_wf. qsimpl. repeat split; auto; try lia.
  - now rewrite Pm; constructor.
  - exists (tid q2). rewrite B. repeat split; auto; lia.
Qed.

Lemma get_incoming_body_order (q : queue) (ind : Z) :
  heap_wf q -> 0 <= rd 0 (tid_incoming q) ind ->
  queue_heap_ok q -> queue_heap_ok (get_incoming_body q ind).
Proof.
  intros Hh Hv Hok.
  destruct (get_incoming_body_spec q ind Hh Hv)
    as (_ & C & _ & _ & _ & _ & _ & _ & _ & a2 & L2 & H2 & E).
  unfold queue_heap_ok. rewrite C, E.
  destruct (bubble_up_loop _ _ _ _) as [a' i'] eqn:B. cbn [fst].
  apply (push_order a2 (count q) (rd 0 (tid_incoming q) ind) a' i');
    [destruct Hh; lia| |exact B].
  apply (heap_ok_ext (tid q)); [now symmetry|exact Hok].
Qed.

(** ** Draining the incoming buffer *)

Lemma filter_upd_clear (l : list Z) (n : nat) :
  (n < length l)%nat -> 0 <= nth n l 0 ->
  Permutation (filter (fun x => 0 <=? x) l)
              (nth n l 0 :: filter (fun x => 0 <=? x) (upd l n (-1))).
Proof.
  revert n; induction l as [|x l IH]; intros [|n]; simpl; intros Hn Hv;
    try lia.
  - destruct (Z.leb_spec 0 x); [reflexivity|lia].
  - destruct (Z.leb_spec 0 x).
    + etransitivity; [apply perm_skip, (IH n); [lia|exact Hv]|].
      apply perm_swap.
    + apply IH; [lia|exact Hv].
Qed.

Lemma rem_range (x : Z) :
  0 <= x -> 0 <= Z.rem x queue_incoming_size < queue_incoming_size.
Proof. intros H. apply Z.rem_bound_pos; lia. Qed.

Lemma uint_inc_range (x : Z) : 0 <= uint_inc x < UINT_MOD.
Proof. apply Z.mod_pos_bound. reflexivity. Qed.

Lemma get_incoming_body_pending (q : queue) :
  queue_wf q ->
  let ind := Z.rem (first_incoming q) queue_incoming_size in
  0 <= rd 0 (tid_incoming q) ind ->
  let q' := get_incoming_body q ind in
  queue_wf q'
  /\ Permutation (pending_list q)
                 (rd 0 (tid_incoming q) ind :: pending_list q')
  /\ Permutation (heap q' ++ pending_list q') (heap q ++ pending_list q).
Proof.
  intros [Hh [Li Fi]] ind Hv q'.
  destruct (get_incoming_body_spec q ind Hh Hv)
    as (Hh' & C & S & P & Ti & Fr & _).
  fold q' in Hh', C, S, P, Ti, Fr. clearbody q'.
  pose proof (rem_range _ Fi) as Hr. fold ind in Hr.
  assert (Pp : Permutation (pending_list q)
                 (rd 0 (tid_incoming q) ind :: pending_list q')).
  { unfold pending_list. rewrite Ti. unfold rd, wr in *.
    destruct (Z.ltb_spec ind 0); [lia|].
    apply filter_upd_clear; [lia|exact Hv]. }
  split; [split; [exact Hh'|split]|split; [exact Pp|]].
  - now rewrite Ti, length_wr.
  - rewrite Fr. apply uint_inc_range.
  - unfold heap. rewrite P, Pp. cbn [app].
    apply Permutation_middle.
Qed.

Lemma get_incoming_loop_spec (fuel : nat) :
  forall q, queue_wf q ->
    let q' := get_incoming_loop fuel q in
    queue_wf q'
    /\ Permutation (heap q' ++ pending_list q') (heap q ++ pending_list q)
    /\ size q <= size q' /\ count q <= count q'
    /\ last_incoming q' = last_incoming q /\ lock q' = lock q.
Proof.
  induction fuel as [|fuel IH]; intros q Hwf; cbn [get_incoming_loop].
  - repeat split; auto; try apply Hwf; lia.
  - set (ind := Z.rem (first_incoming q) queue_incoming_size).
    destruct (Z.ltb_spec (rd 0 (tid_incoming q) ind) 0) as [Hv|Hv].
    + repeat split; auto; try apply Hwf; lia.
    + destruct (get_incoming_body_pending q Hwf Hv) as (Hwf' & _ & Pm).
      destruct (get_incoming_body_spec q ind (proj1 Hwf) Hv)
        as (_ & C & S & _ & _ & _ & La & _ & Lk & _).
      fold ind in Hwf', Pm.
      destruct (IH _ Hwf') as (W & P & S' & C' & La' & Lk').
      cbn zeta. repeat split; auto; try apply W; try lia; try congruence.
      etransitivity; eassumption.
Qed.

Lemma get_incoming_loop_order (fuel : nat) :
  forall q, queue_wf q -> queue_heap_ok q ->
    queue_heap_ok (get_incoming_loop fuel q).
Proof.
  induction fuel as [|fuel IH]; intros q Hwf Hok; cbn [get_incoming_loop];
    [exact Hok|].
  set (ind := Z.rem (first_incoming q) queue_incoming_size).
  destruct (Z.ltb_spec (rd 0 (tid_incoming q) ind) 0) as [Hv|Hv];
    [exact Hok|].
  apply IH.
  - apply (get_incoming_body_pending q Hwf Hv).
  - apply get_incoming_body_order; [apply Hwf|exact Hv|exact Hok].
Qed.

Lemma pending_nonneg_slot (q : queue) (ind : Z) :
  0 <= ind < Z.of_nat (length (tid_incoming q)) ->
  0 <= rd 0 (tid_incoming q) ind -> 0 < pending q.
Proof.
  intros Hi Hv. unfold pending, pending_list.
  assert (In (rd 0 (tid_incoming q) ind)
             (filter (fun x => 0 <=? x) (tid_incoming q))).
  { apply filter_In. split; [|now apply Z.leb_le].
    unfold rd. destruct (Z.ltb_spec ind 0); [lia|]. apply nth_In. lia. }
  destruct (filter _ _); [contradiction|cbn [length]; lia].
Qed.

(** With one turn per waiting offset the loop has stopped on an empty
    slot: more turns change nothing. *)
Lemma get_incoming_loop_fuel :
  forall fuel fuel' q, queue_wf q ->
    (Z.to_nat (pending q) <= fuel)%nat -> (Z.to_nat (pending q) <= fuel')%nat ->
    get_incoming_loop fuel q = get_incoming_loop fuel' q.
Proof.
  induction fuel as [|fuel IH]; intros [|fuel'] q Hwf Hf Hf';
    cbn [get_incoming_loop]; try reflexivity;
    set (ind := Z.rem (first_incoming q) queue_incoming_size);
    destruct (Z.ltb_spec (rd 0 (tid_incoming q) ind) 0) as [Hv|Hv];
    try reflexivity;
    pose proof (rem_range _ (proj2 (proj2 Hwf))) as Hr; fold ind in Hr;
    pose proof (pending_nonneg_slot q ind) as Hp;
    destruct Hwf as [Hh [Li Fi]]; try lia.
  destruct (get_incoming_body_pending q (conj Hh (conj Li Fi)) Hv)
    as (Hwf' & Pp & _).
  fold ind in Hwf', Pp.
  apply Permutation_length in Pp. cbn [length] in Pp.
  apply IH; auto; unfold pending in *; lia.
Qed.

Lemma get_incoming_loop_done :
  forall fuel q, queue_wf q -> (Z.to_nat (pending q) <= fuel)%nat ->
    let q' := get_incoming_loop fuel q in
    rd 0 (tid_incoming q')
       (Z.rem (first_incoming q') queue_incoming_size) < 0.
Proof.
  induction fuel as [|fuel IH]; intros q Hwf Hf; cbn [get_incoming_loop];
    set (ind := Z.rem (first_incoming q) queue_incoming_size);
    pose proof (rem_range _ (proj2 (proj2 Hwf))) as Hr; fold ind in Hr;
    pose proof (pending_nonneg_slot q ind) as Hp;
    destruct (Z.ltb_spec (rd 0 (tid_incoming q) ind) 0) as [Hv|Hv];
    auto; destruct Hwf as [Hh [Li Fi]]; try lia.
  destruct (get_incoming_body_pending q (conj Hh (conj Li Fi)) Hv)
    as (Hwf' & Pp & _).
  fold ind in Hwf', Pp.
  apply Permutation_length in Pp. cbn [length] in Pp.
  apply IH; auto; unfold pending in *; lia.
Qed.

Lemma pending_le_length (q : queue) :
  (Z.to_nat (pending q) <= length (tid_incoming q))%nat.
Proof.
  unfold pending, pending_list. rewrite Nat2Z.id. apply filter_length_le.
Qed.

(** ** Removing a task from the heap *)

Lemma queue_remove_spec (q : queue) (ind : Z) :
  heap_wf q -> 0 <= ind < count q ->
  let q' := queue_remove q ind in
  heap_wf q' /\ count q' = count q - 1 /\ size q' = size q
  /\ Permutation (heap q) (rd 0 (tid q) ind :: heap q')
  /\ tid_incoming q' = tid_incoming q
  /\ first_incoming q' = first_incoming q
  /\ last_incoming q' = last_incoming q
  /\ count_incoming q' = count_incoming q
  /\ lock q' = lock q.
Proof.
  intros (L & C & S & F) Hi q'. subst q'. unfold queue_remove.
  pose proof (take_remove 0 (tid q) (count q) ind Hi) as Pr.
  qsimpl. destruct (Z.ltb_spec ind (count q - 1)) as [Hlt|Hge].
  - set (q1 := set_tid _ _).
    destruct (queue_bubble_up q1 ind) as [q2 i2] eqn:B.
    destruct (queue_sift_down q2 i2) as [q3 i3] eqn:D.
    apply queue_bubble_up_shape in B;
      [|subst q1; qsimpl; rewrite ?length_wr; lia..].
    destruct B as (E2 & L2 & R2 & P2 & _). subst q1. qsimpl.
    rewrite length_wr in L2.
    assert (C2 : count q2 = count q - 1) by (rewrite E2; reflexivity).
    apply queue_sift_down_shape in D; [|lia..].
    destruct D as (E3 & L3 & R3 & P3 & _). rewrite C2 in P3.
    assert (Pm : Permutation (heap q)
                   (rd 0 (tid q) ind :: heap_of (tid q3) (count q - 1))).
    { unfold heap, heap_of. fold (take (tid q) (count q)).
      rewrite Pr by lia. apply perm_skip. symmetry.
      etransitivity; [exact P3|exact P2]. }
    rewrite E3, E2. unfold heap_wf, heap. qsimpl.
    repeat split; auto; try lia.
    rewrite Pm in F. now inversion F.
  - assert (ind = count q - 1) as -> by lia.
    rewrite take_wr_out in Pr by lia.
    unfold heap_wf, heap. qsimpl. repeat split; auto; try lia.
    + unfold heap_of. fold (take (tid q) (count q - 1)).
      unfold heap_of in F. fold (take (tid q) (count q)) in F.
      rewrite Pr in F by lia. now inversion F.
    + apply Pr. lia.
Qed.

Lemma queue_remove_order (q : queue) (ind : Z) :
  heap_wf q -> 0 <= ind < count q ->
  queue_heap_ok q -> queue_heap_ok (queue_remove q ind).
Proof.
  intros (L & C & S & F) Hi Hok. unfold queue_remove, queue_heap_ok in *.
  qsimpl. destruct (Z.ltb_spec ind (count q - 1)) as [Hlt|Hge].
  - set (n := count q - 1) in *.
    assert (Hn : n = count q - 1) by reflexivity. clearbody n.
    set (a1 := wr (tid q) ind (rd 0 (tid q) n)).
    rewrite queue_bubble_up_eq. qsimpl.
    destruct (bubble_up_loop _ _ _ _) as [a2 i2] eqn:B. qsimpl.
    rewrite queue_sift_down_eq. qsimpl.
    destruct (sift_down_loop _ _ _ _ _) as [a3 i3] eqn:D. qsimpl.
    assert (Hb1 : heap_but a1 n ind).
    { destruct (heap_but_of_ok (tid q) (count q) ind Hok) as [H1 H2].
      split.
      - intros k Hk Hki Hp. pose proof (quot2_spec k).
        unfold hge, w_of, a1. rewrite !rd_wr_other by lia. apply H1; lia.
      - intros k Hk Ek Hi1. pose proof (quot2_spec k).
        pose proof (quot2_spec ind).
        unfold hge, w_of, a1. rewrite !rd_wr_other by lia. apply H2; lia. }
    pose proof B as Bs.
    apply (bubble_up_loop_shape _ _ n) in Bs;
      [|lia|unfold a1; rewrite length_wr; lia].
    destruct Bs as (L2 & R2 & _).
    unfold a1 in L2; rewrite length_wr in L2.
    apply (bubble_up_loop_order _ n) in B; auto; try lia.
    + destruct B as (B2 & P2 & _).
      apply (sift_down_loop_order _ n (Z.to_nat (n - i2)) a2 i2 a3 i3
               ltac:(lia) ltac:(lia) ltac:(lia) eq_refl B2 P2 D).
    + unfold a1. rewrite length_wr. lia.
  - intros k Hk. qsimpl. apply Hok. lia.
Qed.

(** ** The selection window *)

Hypothesis search_window_pos : 0 < queue_search_window.

Lemma best_loop_range (window : list wentry) :
  forall n i ind_max,
    0 <= ind_max < i ->
    0 <= best_loop n window i ind_max < i + Z.of_nat n.
Proof.
  induction n as [|n IH]; intros i ind_max H; cbn [best_loop]; [lia|].
  destruct (Float.gt _ _).
  - specialize (IH (i + 1) i). lia.
  - specialize (IH (i + 1) ind_max). lia.
Qed.

Lemma window_best_range (window : list wentry) (window_count : Z) :
  0 < window_count -> 0 <= window_best window window_count < window_count.
Proof.
  intros H. unfold window_best.
  pose proof (best_loop_range window (Z.to_nat (window_count - 1)) 1 0).
  lia.
Qed.

Lemma sel_init_window (ls : LockState) : scan_window_inv (sel_init ls).
Proof.
  unfold scan_window_inv, sel_init; cbn. rewrite repeat_length. lia.
Qed.

Lemma scan_step_window old_qcount qtid prev s :
  scan_window_inv s -> scan_window_inv (scan_step old_qcount qtid prev s).
Proof.
  intros (K & C & L). unfold scan_step.
  destruct (s_break s || (s_k s >=? old_qcount)); [now repeat split|].
  unfold scan_body.
  destruct (Z.ltb_spec (s_k s) queue_search_window).
  - unfold scan_window_inv; cbn. rewrite length_wr. lia.
  - destruct (task_lock _ _) as [[|] ls'];
      unfold scan_window_inv; cbn; rewrite ?length_wr; lia.
Qed.

Lemma scan_iter_window old_qcount qtid prev ls m :
  scan_window_inv
    (Nat.iter m (scan_step old_qcount qtid prev) (sel_init ls)).
Proof.
  induction m as [|m IH]; [|rewrite Nat.iter_succ].
  - apply sel_init_window.
  - now apply scan_step_window.
Qed.

Lemma rest_step_window s : rest_window_inv s -> rest_window_inv (rest_step s).
Proof.
  intros (C & L). unfold rest_step.
  destruct (s_break s); cbn [orb]; [now split|].
  destruct (Z.leb_spec (s_window_count s) 0); [now split|].
  unfold rest_body.
  destruct (task_lock _ _) as [[|] ls'];
    unfold rest_window_inv; cbn; rewrite ?length_wr; lia.
Qed.

Lemma rest_iter_window s m :
  rest_window_inv s -> rest_window_inv (Nat.iter m rest_step s).
Proof.
  intros H. induction m as [|m IH]; [exact H|rewrite Nat.iter_succ].
  now apply rest_step_window.
Qed.

(** C9: at every turn of the first loop and of the second loop of
    [queue_gettask], [window_count] is between [0] and
    [queue_search_window], the window has [queue_search_window] cells, and
    the cells the next turn reads or writes are cells of the window. *)
Theorem window_count_bounded (q : queue) (prev : option Z) (ls : LockState)
    (m m' : nat) :
  let s := Nat.iter m (scan_step (count q) (tid q) prev) (sel_init ls) in
  let r := Nat.iter m' rest_step
                    (unbroken (scan_loop (count q) (tid q) prev ls)) in
  (0 <= s_window_count s <= queue_search_window
   /\ Z.of_nat (length (s_window s)) = queue_search_window
   /\ (s_break s = false -> s_k s < count q -> in_window (scan_cell s)))
  /\ (0 <= s_window_count r <= queue_search_window
      /\ Z.of_nat (length (s_window r)) = queue_search_window
      /\ (s_break r = false -> 0 < s_window_count r ->
          in_window (window_best (s_window r) (s_window_count r))
          /\ in_window (s_window_count r - 1))).
Proof.
  intros s r. split.
  - destruct (scan_iter_window (count q) (tid q) prev ls m) as (K & C & L).
    fold s in K, C, L. split; [lia|]. split; [exact L|].
    intros _ _. unfold in_window, scan_cell.
    destruct (Z.ltb_spec (s_k s) queue_search_window); [lia|].
    pose proof (window_best_range (s_window s) (s_window_count s)). lia.
  - assert (H0 : rest_window_inv
                   (unbroken (scan_loop (count q) (tid q) prev ls))).
    { destruct (scan_iter_window (count q) (tid q) prev ls
                  (Z.to_nat (count q))) as (K & C & L).
      unfold rest_window_inv, unbroken, scan_loop; cbn. lia. }
    destruct (rest_iter_window _ m' H0) as (C & L). fold r in C, L.
    split; [lia|]. split; [exact L|]. intros _ Hpos. unfold in_window.
    pose proof (window_best_range (s_window r) (s_window_count r)). lia.
Qed.

(** ** The selection of a task *)

Lemma lock_fails_snoc ls l ls1 t ls2 :
  lock_fails ls l ls1 -> task_lock ls1 t = (false, ls2) ->
  lock_fails ls (l ++ [t]) ls2.
Proof.
  intros H E. induction H as [ls|ls u ls' l ls'' Eu H IH]; cbn [app].
  - econstructor; [exact E|constructor].
  - econstructor; [exact Eu|now apply IH].
Qed.

Lemma entry_ok_le a k k' e : k <= k' -> entry_ok a k e -> entry_ok a k' e.
Proof. unfold entry_ok. intros ? [? ?]. split; [lia|auto]. Qed.

Section Selection.

Variable a : list Z.
Variable n : Z.
Variable prev : option Z.
Variable ls0 : LockState.
Hypothesis heap_nonempty : 0 < n.
Hypothesis heap_in_array : n <= Z.of_nat (length a).

Local Abbreviation scan_inv := (scan_inv a n ls0).
Local Abbreviation rest_inv := (rest_inv a n ls0).
Local Abbreviation found := (found a n ls0).

Lemma sel_init_inv : scan_inv (sel_init ls0).
Proof.
  unfold scan_inv, sel_init, active; cbn. rewrite repeat_length.
  repeat split; try lia.
  - constructor.
  - exists []. split; [constructor|reflexivity].
Qed.

Lemma tried_in_heap tried l k :
  k <= n -> Permutation (tried ++ l) (heap_of a k) ->
  incl tried (heap_of a n).
Proof.
  intros Hk P x Hx. apply (in_take_le a k n x Hk).
  eapply Permutation_in; [exact P|]. apply in_or_app. now left.
Qed.

Lemma best_entry (s : sel LockState) (k : Z) :
  0 < s_window_count s ->
  s_window_count s <= Z.of_nat (length (s_window s)) ->
  Forall (entry_ok a k) (active s) ->
  let ind_max := window_best (s_window s) (s_window_count s) in
  let c := rd wentry0 (s_window s) ind_max in
  0 <= ind_max < s_window_count s /\ entry_ok a k c
  /\ c = nth (Z.to_nat ind_max) (active s) wentry0.
Proof.
  intros Hpos Hlen Hall ind_max c.
  pose proof (window_best_range (s_window s) (s_window_count s) Hpos) as Hr.
  fold ind_max in Hr. split; [exact Hr|].
  assert (Hin : In c (active s)) by (apply rd_in_take; lia).
  split.
  - rewrite Forall_forall in Hall. now apply Hall.
  - subst c. rewrite <- (rd_take wentry0 _ (s_window_count s)) by lia.
    unfold rd. destruct (Z.ltb_spec ind_max 0); [lia|reflexivity].
Qed.

Lemma scan_step_inv (s : sel LockState) :
  scan_inv s -> s_k s < n ->
  let s' := scan_step n a prev s in
  found s' \/ (scan_inv s' /\ s_k s' = s_k s + 1).
Proof.
  intros (Bk & K & C & L & F & T & I & tried & Lf & P) Hk s'. subst s'.
  unfold scan_step. rewrite Bk. cbn [orb].
  destruct (Z.geb_spec (s_k s) n); [lia|]. unfold scan_body.
  set (e := mkW (s_k s) (rd 0 a (s_k s)) (task_overlap prev (rd 0 a (s_k s)))).
  assert (He : entry_ok a (s_k s + 1) e) by (split; cbn; [lia|reflexivity]).
  assert (F1 : Forall (entry_ok a (s_k s + 1)) (active s)).
  { eapply Forall_impl; [|exact F]. intros x. apply entry_ok_le. lia. }
  assert (Hsn : heap_of a (s_k s + 1) = heap_of a (s_k s) ++ [rd 0 a (s_k s)])
    by (apply (take_snoc 0); lia).
  destruct (Z.ltb_spec (s_k s) queue_search_window) as [Hw|Hw].
  - (* the entry enters the window *)
    right. unfold scan_inv, active in *. cbn.
    rewrite length_wr, take_wr_end by lia.
    repeat split; try lia; auto.
    + apply Forall_app. split; [exact F1|]. constructor; [exact He|constructor].
    + exists tried. split; [exact Lf|].
      rewrite map_app, app_assoc, Hsn. cbn [map w_tid e].
      now apply Permutation_app_tail.
  - (* the best entry of the full window is tried *)
    destruct (best_entry s (s_k s)) as (Hr & [Ci Ct] & Cn); [lia..|exact F|].
    set (ind_max := window_best (s_window s) (s_window_count s)) in *.
    set (c := rd wentry0 (s_window s) ind_max) in *.
    destruct (task_lock (s_locks s) (w_tid c)) as [[|] ls'] eqn:El.
    + left. unfold found. cbn. repeat split; try lia; auto.
      exists tried, (s_locks s). repeat split; auto.
      eapply tried_in_heap; [|exact P]. lia.
    + right. unfold scan_inv, active in *. cbn.
      rewrite length_wr, take_wr_in by lia.
      repeat split; try lia; auto.
      * now apply Forall_upd.
      * exists (tried ++ [w_tid c]).
        split; [now apply (lock_fails_snoc _ _ (s_locks s))|].
        rewrite map_upd, Hsn, <- app_assoc. cbn [app w_tid e].
        rewrite <- P, <- app_assoc.
        apply Permutation_app_head.
        etransitivity; [|apply Permutation_cons_append].
        symmetry. rewrite Cn.
        replace (w_tid (nth (Z.to_nat ind_max) _ wentry0))
          with (nth (Z.to_nat ind_max)
                    (map w_tid (take (s_window s) (s_window_count s))) 0)
          by (rewrite <- (map_nth w_tid); reflexivity).
        apply upd_perm. rewrite length_map.
        pose proof (length_take (s_window s) (s_window_count s)). lia.
Qed.

Lemma scan_step_found (s : sel LockState) :
  found s -> scan_step n a prev s = s.
Proof. intros (Bk & _). unfold scan_step. now rewrite Bk. Qed.

Lemma scan_step_end (s : sel LockState) :
  n <= s_k s -> scan_step n a prev s = s.
Proof.
  intros H. unfold scan_step. destruct (Z.geb_spec (s_k s) n); [|lia].
  now rewrite orb_true_r.
Qed.

Lemma scan_iter_inv (m : nat) :
  let s := Nat.iter m (scan_step n a prev) (sel_init ls0) in
  found s \/ (scan_inv s /\ s_k s = Z.min (Z.of_nat m) n).
Proof.
  induction m as [|m IH]; [|rewrite Nat.iter_succ].
  - right. split; [apply sel_init_inv|cbn; lia].
  - cbn zeta in IH. destruct IH as [Hf|[Hi Hk]].
    + left. now rewrite scan_step_found.
    + destruct (Z.lt_ge_cases (s_k (Nat.iter m (scan_step n a prev)
                                             (sel_init ls0))) n) as [Hlt|Hge].
      * destruct (scan_step_inv _ Hi Hlt) as [Hf|[Hi' Hk']]; [now left|].
        right. split; [exact Hi'|]. lia.
      * rewrite scan_step_end by exact Hge. right. split; [exact Hi|]. lia.
Qed.

Lemma rest_step_inv (s : sel LockState) :
  rest_inv s -> 0 < s_window_count s ->
  let s' := rest_step s in
  found s' \/ (rest_inv s' /\ s_window_count s' = s_window_count s - 1).
Proof.
  intros (Bk & C & L & F & T & I & tried & Lf & P) Hpos s'. subst s'.
  unfold rest_step. rewrite Bk. cbn [orb].
  destruct (Z.leb_spec (s_window_count s) 0); [lia|]. unfold rest_body.
  destruct (best_entry s n) as (Hr & [Ci Ct] & Cn); [lia..|exact F|].
  set (ind_max := window_best (s_window s) (s_window_count s)) in *.
  set (c := rd wentry0 (s_window s) ind_max) in *.
  pose proof (take_remove wentry0 (s_window s) (s_window_count s) ind_max
                Hr ltac:(lia)) as Pr.
  fold c in Pr. fold (active s) in Pr.
  destruct (task_lock (s_locks s) (w_tid c)) as [[|] ls'] eqn:El.
  - left. unfold found. cbn. repeat split; try lia; auto.
    exists tried, (s_locks s). repeat split; auto.
    eapply tried_in_heap; [|exact P]. lia.
  - right. unfold rest_inv. unfold active at 1 2. cbn.
    rewrite length_wr. repeat split; try lia; auto.
    + rewrite Pr in F. now inversion F.
    + exists (tried ++ [w_tid c]).
      split; [now apply (lock_fails_snoc _ _ (s_locks s))|].
      rewrite <- P, Pr, <- app_assoc. reflexivity.
Qed.

Lemma rest_step_found (s : sel LockState) : found s -> rest_step s = s.
Proof. intros (Bk & _). unfold rest_step. now rewrite Bk. Qed.

Lemma rest_iter_inv (s0 : sel LockState) (m : nat) :
  rest_inv s0 -> Z.of_nat m <= s_window_count s0 ->
  let s := Nat.iter m rest_step s0 in
  found s
  \/ (rest_inv s /\ s_window_count s = s_window_count s0 - Z.of_nat m).
Proof.
  intros H0. induction m as [|m IH]; intros Hm; [|rewrite Nat.iter_succ].
  - right. split; [exact H0|cbn; lia].
  - destruct IH as [Hf|[Hi Hc]]; [lia| |].
    + left. now rewrite rest_step_found.
    + destruct (rest_step_inv _ Hi) as [Hf|[Hi' Hc']]; [lia|now left|].
      right. split; [exact Hi'|lia].
Qed.

(** The outcome of the two loops on a heap of non-negative task indices:
    either a task of the heap was locked after the locks tried before it
    failed, or the lock of every task of the heap was tried and failed. *)
Lemma select_loops_spec :
  Forall (fun t => 0 <= t) (heap_of a n) ->
  let s := rest_loop (scan_loop n a prev ls0) in
  (0 <= s_ind s < n /\ s_tid s = rd 0 a (s_ind s)
   /\ exists tried ls1,
        lock_fails ls0 tried ls1
        /\ task_lock ls1 (s_tid s) = (true, s_locks s)
        /\ incl tried (heap_of a n))
  \/ (s_ind s = -1
      /\ exists tried,
           lock_fails ls0 tried (s_locks s)
           /\ Permutation tried (heap_of a n)).
Proof.
  intros Hpos s. subst s. unfold scan_loop, rest_loop.
  destruct (scan_iter_inv (Z.to_nat n)) as [Hf|[Hi Hk]].
  - (* found in the first loop *)
    set (s1 := Nat.iter _ _ _) in *.
    destruct Hf as (Bk & I & T & H).
    assert (0 <= s_tid s1).
    { rewrite T. rewrite Forall_forall in Hpos. apply Hpos.
      apply rd_in_take; lia. }
    destruct (Z.ltb_spec (s_tid s1) 0); [lia|]. left. auto.
  - set (s1 := Nat.iter _ _ _) in *.
    assert (Hr : rest_inv (unbroken s1)).
    { destruct Hi as (Bk & K & C & L & F & T & I & tried & Lf & P).
      assert (Ek : s_k s1 = n) by lia. rewrite Ek in *.
      unfold rest_inv, unbroken, active in *. cbn.
      repeat split; auto; try lia. now exists tried. }
    assert (Et : s_tid s1 = -1) by apply Hi. rewrite Et. cbn.
    destruct (rest_iter_inv (unbroken s1)
                (Z.to_nat (s_window_count s1)) Hr) as [Hf|[Hi' Hc]].
    + cbn. destruct Hr as (_ & C & _). cbn in C. lia.
    + left. destruct Hf as (Bk & I & T & H). auto.
    + right. destruct Hi' as (Bk & C & L & F & T & I & tried & Lf & P).
      split; [exact I|]. exists tried. split; [exact Lf|].
      destruct Hr as (_ & C0 & _). cbn in C0, Hc.
      unfold active, take in P.
      replace (Z.to_nat (s_window_count (Nat.iter _ rest_step _))) with O
        in P by lia.
      cbn in P. now rewrite app_nil_r in P.
Qed.

End Selection.

(** ** The queue lock is only carried along *)

Lemma queue_bubble_up_lock (q : queue) (ind : Z) (b : bool) :
  queue_bubble_up (set_lock q b) ind
  = (set_lock (fst (queue_bubble_up q ind)) b, snd (queue_bubble_up q ind)).
Proof. rewrite !queue_bubble_up_eq. reflexivity. Qed.

Lemma queue_sift_down_lock (q : queue) (ind : Z) (b : bool) :
  queue_sift_down (set_lock q b) ind
  = (set_lock (fst (queue_sift_down q ind)) b, snd (queue_sift_down q ind)).
Proof. rewrite !queue_sift_down_eq. reflexivity. Qed.

Lemma get_incoming_body_lock (q : queue) (ind : Z) (b : bool) :
  get_incoming_body (set_lock q b) ind = set_lock (get_incoming_body q ind) b.
Proof.
  unfold get_incoming_body. rewrite !queue_bubble_up_eq. qsimpl.
  destruct (count q =? size q); reflexivity.
Qed.

Lemma get_incoming_loop_lock (fuel : nat) (b : bool) :
  forall q, get_incoming_loop fuel (set_lock q b)
            = set_lock (get_incoming_loop fuel q) b.
Proof.
  induction fuel as [|fuel IH]; intros q; cbn [get_incoming_loop];
    [reflexivity|]. qsimpl.
  destruct (rd 0 (tid_incoming q) _ <? 0); [reflexivity|].
  now rewrite get_incoming_body_lock, IH.
Qed.

Lemma queue_get_incoming_lock (q : queue) (b : bool) :
  queue_get_incoming (set_lock q b) = set_lock (queue_get_incoming q) b.
Proof. unfold queue_get_incoming. qsimpl. apply get_incoming_loop_lock. Qed.

Lemma queue_remove_lock (q : queue) (ind : Z) (b : bool) :
  queue_remove (set_lock q b) ind = set_lock (queue_remove q ind) b.
Proof.
  unfold queue_remove. qsimpl. destruct (ind <? count q - 1); [|reflexivity].
  rewrite !queue_bubble_up_eq. qsimpl.
  rewrite !queue_sift_down_eq. reflexivity.
Qed.

Lemma set_lock_twice (q : queue) (b c : bool) :
  set_lock (set_lock q b) c = set_lock q c.
Proof. reflexivity. Qed.

Lemma set_lock_same (q : queue) : set_lock q (lock q) = q.
Proof. now destruct q. Qed.

Lemma queue_wf_lock (q : queue) (b : bool) : queue_wf q -> queue_wf (set_lock q b).
Proof. intros H. exact H. Qed.

(** ** [queue_get_incoming] *)

Lemma queue_get_incoming_spec (q : queue) :
  queue_wf q ->
  let q' := queue_get_incoming q in
  queue_wf q'
  /\ Permutation (heap q' ++ pending_list q') (heap q ++ pending_list q)
  /\ size q <= size q' /\ count q <= count q'
  /\ last_incoming q' = last_incoming q /\ lock q' = lock q
  /\ rd 0 (tid_incoming q')
        (Z.rem (first_incoming q') queue_incoming_size) < 0.
Proof.
  intros Hwf q'. subst q'. unfold queue_get_incoming.
  destruct (get_incoming_loop_spec (length (tid_incoming q)) q Hwf)
    as (W & P & S & C & La & Lk).
  repeat split; auto; try apply W.
  apply get_incoming_loop_done; [exact Hwf|apply pending_le_length].
Qed.

(** A drained queue is not changed by draining it again. *)
Lemma queue_get_incoming_idem (q : queue) :
  rd 0 (tid_incoming q) (Z.rem (first_incoming q) queue_incoming_size) < 0 ->
  queue_get_incoming q = q.
Proof.
  intros H. unfold queue_get_incoming.
  destruct (length (tid_incoming q)); cbn [get_incoming_loop]; [reflexivity|].
  destruct (Z.ltb_spec (rd 0 (tid_incoming q)
                           (Z.rem (first_incoming q) queue_incoming_size)) 0);
    [reflexivity|lia].
Qed.

(** ** [queue_gettask] with the queue lock free *)

Lemma lock_get_incoming_loop (fuel : nat) :
  forall q, lock (get_incoming_loop fuel q) = lock q.
Proof.
  induction fuel as [|fuel IH]; intros q; cbn [get_incoming_loop];
    [reflexivity|].
  destruct (_ <? 0); [reflexivity|]. rewrite IH.
  unfold get_incoming_body. rewrite queue_bubble_up_eq. qsimpl.
  destruct (count q =? size q); reflexivity.
Qed.

Lemma lock_queue_remove (q : queue) (ind : Z) :
  lock (queue_remove q ind) = lock q.
Proof.
  unfold queue_remove. qsimpl. destruct (_ <? count q - 1); [|reflexivity].
  rewrite queue_bubble_up_eq. qsimpl. rewrite queue_sift_down_eq. reflexivity.
Qed.

Lemma set_lock_id (q : queue) (b : bool) : lock q = b -> set_lock q b = q.
Proof. intros <-. apply set_lock_same. Qed.

Lemma queue_gettask_unlocked (q : queue) (prev : option Z) (blocking : bool)
    (ls : LockState) :
  lock q = false ->
  queue_gettask q prev blocking ls =
  let d := queue_get_incoming q in
  if count d =? 0 then Some (None, d, ls)
  else
    let s := select_task d prev ls in
    if s_ind s >=? 0 then Some (Some (s_tid s), queue_remove d (s_ind s),
                                s_locks s)
    else Some (None, d, s_locks s).
Proof.
  intros Hl. unfold queue_gettask. rewrite Hl.
  rewrite queue_get_incoming_lock. qsimpl. cbn zeta.
  assert (Hd : lock (queue_get_incoming q) = false)
    by (unfold queue_get_incoming; now rewrite lock_get_incoming_loop).
  set (d := queue_get_incoming q) in *.
  rewrite set_lock_twice, (set_lock_id d false Hd).
  destruct (count d =? 0); [reflexivity|].
  unfold select_task. qsimpl.
  destruct (s_ind _ >=? 0); [|reflexivity].
  rewrite queue_remove_lock, set_lock_twice, set_lock_id; [reflexivity|].
  now rewrite lock_queue_remove.
Qed.

Lemma queue_gettask_spec (q : queue) (prev : option Z) (blocking : bool)
    (ls : LockState) :
  queue_wf q -> lock q = false ->
  let d := queue_get_incoming q in
  exists res q' ls',
    queue_gettask q prev blocking ls = Some (res, q', ls')
    /\ queue_wf q' /\ lock q' = false
    /\ tid_incoming q' = tid_incoming d
    /\ first_incoming q' = first_incoming d
    /\ last_incoming q' = last_incoming d
    /\ size q' = size d
    /\ match res with
       | Some t =>
           (exists ind, 0 <= ind < count d /\ t = rd 0 (tid d) ind
                        /\ q' = queue_remove d ind)
           /\ Permutation (heap d) (t :: heap q')
           /\ count q' = count d - 1
           /\ exists tried ls1,
                lock_fails ls tried ls1 /\ task_lock ls1 t = (true, ls')
                /\ incl tried (heap d)
       | None =>
           q' = d
           /\ exists tried,
                lock_fails ls tried ls' /\ Permutation tried (heap d)
       end.
Proof.
  intros Hwf Hl d. rewrite queue_gettask_unlocked by exact Hl. fold d.
  destruct (queue_get_incoming_spec q Hwf) as (Wd & _ & _ & _ & _ & Ld & _).
  fold d in Wd, Ld. rewrite Hl in Ld. cbn zeta.
  destruct (Z.eqb_spec (count d) 0) as [E0|E0].
  - exists None, d, ls.
    split; [reflexivity|]. split; [exact Wd|].
    do 5 (split; [auto|]). split; [reflexivity|].
    exists []. split; [constructor|].
    unfold heap, heap_of. rewrite E0. reflexivity.
  - destruct Wd as [(L & C & S & F) Wi].
    destruct (select_loops_spec (tid d) (count d) prev ls ltac:(lia)
                ltac:(lia) F) as [(I & T & tried & ls1 & Lf & Tl & Inc)
                                 |(I & tried & Lf & P)];
      fold (select_task d prev ls) in *;
      set (s := select_task d prev ls) in *.
    + destruct (Z.geb_spec (s_ind s) 0); [|lia].
      destruct (queue_remove_spec d (s_ind s) (conj L (conj C (conj S F))) I)
        as (Hh & C' & S' & P' & Ti & Fi & La & Ci & Lk).
      exists (Some (s_tid s)), (queue_remove d (s_ind s)), (s_locks s).
      rewrite T in *.
      split; [reflexivity|]. split; [split; [exact Hh|]|].
      { split; [rewrite Ti|rewrite Fi]; apply Wi. }
      split; [congruence|]. do 4 (split; [assumption|]).
      split; [|split; [exact P'|split; [exact C'|]]].
      * exists (s_ind s). repeat split; auto; lia.
      * exists tried, ls1. repeat split; auto.
    + destruct (Z.geb_spec (s_ind s) 0); [lia|].
      exists None, d, (s_locks s).
      split; [reflexivity|]. split; [exact (conj (conj L (conj C (conj S F))) Wi)|].
      do 5 (split; [auto|]). split; [reflexivity|]. now exists tried.
Qed.

Lemma queue_gettask_locked (q : queue) (prev : option Z) (blocking : bool)
    (ls : LockState) :
  lock q = true ->
  queue_gettask q prev blocking ls
  = if blocking then None else Some (None, q, ls).
Proof. intros H. unfold queue_gettask. now rewrite H. Qed.

Lemma queue_gettask_wf (q : queue) prev blocking ls res q' ls' :
  queue_wf q -> queue_gettask q prev blocking ls = Some (res, q', ls') ->
  queue_wf q'.
Proof.
  intros Hwf E. destruct (lock q) eqn:Hl.
  - rewrite queue_gettask_locked in E by exact Hl.
    destruct blocking; [discriminate|]. now inversion E; subst.
  - destruct (queue_gettask_spec q prev blocking ls Hwf Hl)
      as (r & q1 & l1 & E1 & W & _).
    rewrite E in E1. now inversion E1; subst.
Qed.

Lemma queue_gettask_order (q : queue) prev blocking ls res q' ls' :
  queue_wf q -> queue_heap_ok q ->
  queue_gettask q prev blocking ls = Some (res, q', ls') ->
  queue_heap_ok q'.
Proof.
  intros Hwf Hok E. destruct (lock q) eqn:Hl.
  - rewrite queue_gettask_locked in E by exact Hl.
    destruct blocking; [discriminate|]. now inversion E; subst.
  - destruct (queue_gettask_spec q prev blocking ls Hwf Hl)
      as (r & q1 & l1 & E1 & W & _ & _ & _ & _ & _ & R).
    rewrite E in E1. inversion E1; subst r q1 l1. clear E1.
    assert (Hd : queue_heap_ok (queue_get_incoming q))
      by (apply get_incoming_loop_order; assumption).
    destruct (queue_get_incoming_spec q Hwf) as (Wd & _).
    destruct res as [t|].
    + destruct R as ((ind & I & _ & ->) & _).
      apply queue_remove_order; [apply Wd|exact I|exact Hd].
    + destruct R as (-> & _). exact Hd.
Qed.

(** ** [queue_insert] *)

Lemma filter_upd_fill (l : list Z) (n : nat) (t : Z) :
  (n < length l)%nat -> nth n l 0 < 0 -> 0 <= t ->
  Permutation (filter (fun x => 0 <=? x) (upd l n t))
              (t :: filter (fun x => 0 <=? x) l).
Proof.
  revert n; induction l as [|x l IH]; intros [|n]; simpl; intros Hn Hv Ht;
    try lia.
  - destruct (Z.leb_spec 0 x); [lia|]. destruct (Z.leb_spec 0 t); [|lia].
    reflexivity.
  - destruct (Z.leb_spec 0 x).
    + etransitivity; [apply perm_skip, (IH n); lia|]. apply perm_swap.
    + apply IH; lia.
Qed.

Lemma slot_free_in_range (l : list Z) (ind : Z) :
  rd 0 l ind = -1 -> 0 <= ind < Z.of_nat (length l).
Proof.
  unfold rd. destruct (Z.ltb_spec ind 0); [discriminate|]. intros Hv.
  destruct (Nat.lt_ge_cases (Z.to_nat ind) (length l)) as [Hlt|Hge]; [lia|].
  rewrite nth_overflow in Hv by exact Hge. discriminate.
Qed.

Lemma fill_slot_spec (q : queue) (ind t : Z) :
  queue_wf q -> rd 0 (tid_incoming q) ind = -1 ->
  let q' := fill_slot q ind t in
  queue_wf q' /\ heap q' = heap q /\ tid q' = tid q /\ count q' = count q
  /\ size q' = size q /\ lock q' = lock q
  /\ first_incoming q' = first_incoming q
  /\ last_incoming q' = last_incoming q
  /\ (0 <= t -> Permutation (pending_list q') (t :: pending_list q)).
Proof.
  intros [Hh [Li Fi]] Hs q'. subst q'. unfold fill_slot.
  pose proof (slot_free_in_range _ _ Hs) as Hr.
  split; [split; [exact Hh|split; qsimpl; [now rewrite length_wr|exact Fi]]|].
  do 7 (split; [reflexivity|]).
  intros Ht. unfold pending_list. qsimpl. unfold rd, wr in *.
  destruct (Z.ltb_spec ind 0); [lia|].
  apply filter_upd_fill; lia.
Qed.

Lemma queue_insert_cases (q : queue) (t : Z) (q' : queue) :
  queue_insert q t = Some q' ->
  let ind := Z.rem (last_incoming q) queue_incoming_size in
  let q0 := set_last_incoming q (uint_inc (last_incoming q)) in
  (rd 0 (tid_incoming q) ind = -1 /\ q' = fill_slot q0 ind t)
  \/ (rd 0 (tid_incoming q) ind <> -1 /\ lock q = false
      /\ rd 0 (tid_incoming (queue_get_incoming q0)) ind = -1
      /\ q' = fill_slot (queue_get_incoming q0) ind t).
Proof.
  intros E ind q0. unfold queue_insert in E. fold ind q0 in E.
  cbn [insert_spin] in E.
  change (tid_incoming q0) with (tid_incoming q) in E.
  change (lock q0) with (lock q) in E.
  destruct (Z.eqb_spec (rd 0 (tid_incoming q) ind) (-1)) as [Hs|Hs].
  - left. split; [exact Hs|]. now inversion E.
  - right. destruct (lock q) eqn:Hl.
    + discriminate.
    + rewrite queue_get_incoming_lock, set_lock_twice in E.
      assert (Hd : lock (queue_get_incoming q0) = false)
        by (unfold queue_get_incoming; now rewrite lock_get_incoming_loop).
      rewrite (set_lock_id _ false Hd) in E.
      destruct (Z.eqb_spec (rd 0 (tid_incoming (queue_get_incoming q0)) ind)
                           (-1)) as [Hs'|Hs'].
      * repeat split; auto. now inversion E.
      * rewrite Hd in E. discriminate.
Qed.

Lemma queue_wf_set_last (q : queue) (x : Z) :
  queue_wf q -> queue_wf (set_last_incoming q x).
Proof. intros H. exact H. Qed.

Lemma queue_insert_spec (q : queue) (t : Z) (q' : queue) :
  queue_wf q -> queue_insert q t = Some q' ->
  queue_wf q' /\ lock q' = lock q /\ size q <= size q'
  /\ (0 <= t ->
      Permutation (heap q' ++ pending_list q')
                  (t :: heap q ++ pending_list q)).
Proof.
  intros Hwf E. apply queue_insert_cases in E. cbn zeta in E.
  set (ind := Z.rem (last_incoming q) queue_incoming_size) in *.
  set (q0 := set_last_incoming q (uint_inc (last_incoming q))) in *.
  destruct E as [(Hs & ->)|(Hs & Hl & Hs' & ->)].
  - destruct (fill_slot_spec q0 ind t (queue_wf_set_last q _ Hwf) Hs)
      as (W & H & _ & _ & S & L & _ & _ & P).
    split; [exact W|]. split; [exact L|]. split; [rewrite S; reflexivity|].
    intros Ht. rewrite H, (P Ht). symmetry. apply Permutation_middle.
  - destruct (queue_get_incoming_spec q0 (queue_wf_set_last q _ Hwf))
      as (Wd & Pd & Sd & _ & _ & Ld & _).
    destruct (fill_slot_spec (queue_get_incoming q0) ind t Wd Hs')
      as (W & H & _ & _ & S & L & _ & _ & P).
    split; [exact W|]. split; [rewrite L, Ld; reflexivity|].
    split; [rewrite S; exact Sd|].
    intros Ht. rewrite H, (P Ht).
    etransitivity; [symmetry; apply Permutation_middle|].
    apply perm_skip. exact Pd.
Qed.

Lemma queue_insert_order (q : queue) (t : Z) (q' : queue) :
  queue_wf q -> queue_heap_ok q -> queue_insert q t = Some q' ->
  queue_heap_ok q'.
Proof.
  intros Hwf Hok E. apply queue_insert_cases in E. cbn zeta in E.
  destruct E as [(Hs & ->)|(Hs & Hl & Hs' & ->)]; [exact Hok|].
  unfold queue_heap_ok, fill_slot. qsimpl.
  apply (get_incoming_loop_order _ _ (queue_wf_set_last q _ Hwf) Hok).
Qed.

(** ** A new queue *)

Hypothesis sizeinit_pos : 0 < queue_sizeinit.

Lemma queue_init_wf : queue_wf queue_init.
Proof.
  unfold queue_wf, heap_wf, incoming_wf, queue_init, malloc; cbn.
  rewrite !repeat_length. repeat split; try lia. constructor.
Qed.

Lemma queue_init_heap_ok : queue_heap_ok queue_init.
Proof. intros k Hk. cbn in Hk. lia. Qed.

Lemma filter_repeat_neg (n : nat) :
  filter (fun x => 0 <=? x) (repeat (-1) n) = [].
Proof. induction n as [|n IH]; [reflexivity|exact IH]. Qed.

Lemma queue_init_empty : heap queue_init = [] /\ pending_list queue_init = [].
Proof. split; [reflexivity|apply filter_repeat_neg]. Qed.

(** ** Sequences of calls *)

Lemma run_op_wf (o : op) (r r' : trace) :
  queue_wf (r_queue r) -> run_op o r = Some r' -> queue_wf (r_queue r').
Proof.
  intros Hwf E. destruct o as [t| |prev blocking|held]; cbn [run_op] in E.
  - destruct (queue_insert (r_queue r) t) as [q|] eqn:Ei; [|discriminate].
    inversion E; subst r'. cbn. eapply queue_insert_spec; eassumption.
  - destruct (lock (r_queue r)); [discriminate|]. inversion E; subst r'. cbn.
    now apply queue_get_incoming_spec.
  - destruct (queue_gettask _ _ _ _) as [[[[t|] q] ls]|] eqn:Eg;
      [| |discriminate]; inversion E; subst r'; cbn;
      eapply queue_gettask_wf; eassumption.
  - inversion E; subst r'. exact Hwf.
Qed.

Lemma run_op_order (o : op) (r r' : trace) :
  queue_wf (r_queue r) -> queue_heap_ok (r_queue r) ->
  run_op o r = Some r' -> queue_heap_ok (r_queue r').
Proof.
  intros Hwf Hok E. destruct o as [t| |prev blocking|held]; cbn [run_op] in E.
  - destruct (queue_insert (r_queue r) t) as [q|] eqn:Ei; [|discriminate].
    inversion E; subst r'. cbn. eapply queue_insert_order; eassumption.
  - destruct (lock (r_queue r)); [discriminate|]. inversion E; subst r'. cbn.
    now apply get_incoming_loop_order.
  - destruct (queue_gettask _ _ _ _) as [[[[t|] q] ls]|] eqn:Eg;
      [| |discriminate]; inversion E; subst r'; cbn;
      eapply queue_gettask_order; eassumption.
  - inversion E; subst r'. exact Hok.
Qed.

Lemma run_invariant (V : op -> Prop) (P : trace -> Prop) :
  (forall o r r',
      V o -> queue_wf (r_queue r) -> P r -> run_op o r = Some r' -> P r') ->
  forall ops r r',
    Forall V ops -> queue_wf (r_queue r) -> P r -> run ops r = Some r' ->
    queue_wf (r_queue r') /\ P r'.
Proof.
  intros Hstep. induction ops as [|o ops IH]; intros r r' HV Hwf HP E;
    cbn [run] in E.
  - inversion E; subst. now split.
  - destruct (run_op o r) as [r1|] eqn:E1; [|discriminate].
    inversion HV; subst.
    apply (IH r1 r'); auto.
    + eapply run_op_wf; eassumption.
    + eapply Hstep; eassumption.
Qed.

Lemma Forall_any_op (ops : list op) : Forall (fun _ => True) ops.
Proof. induction ops; constructor; auto. Qed.

(** C1: in every state that calls of [queue_insert], [queue_get_incoming]
    and [queue_gettask] lead to from a new queue, so after every insert
    followed by a drain and after every [queue_gettask], the weight at heap
    index [(k-1)/2] is at least the weight at heap index [k] for all [k] in
    [[1, count)]. *)
Theorem heap_invariant (ops : list op) (ls : LockState) (r : trace) :
  run ops (start ls) = Some r ->
  forall k, 1 <= k < count (r_queue r) ->
    Float.ge (weight (rd 0 (tid (r_queue r)) ((k - 1) ÷ 2)))
             (weight (rd 0 (tid (r_queue r)) k)) = true.
Proof.
  intros E.
  apply (run_invariant (fun _ => True)
                       (fun r => queue_heap_ok (r_queue r))) in E.
  - apply E.
  - intros o r0 r1 _. apply run_op_order.
  - apply Forall_any_op.
  - apply queue_init_wf.
  - apply queue_init_heap_ok.
Qed.

(** ** Conservation of the tasks *)

Lemma run_op_conserved (o : op) (r r' : trace) :
  op_valid o -> queue_wf (r_queue r) -> conserved r ->
  run_op o r = Some r' -> conserved r'.
Proof.
  unfold conserved. intros Hv Hwf Hc E.
  destruct o as [t| |prev blocking|held]; cbn [run_op] in E.
  - destruct (queue_insert (r_queue r) t) as [q|] eqn:Ei; [|discriminate].
    inversion E; subst r'. cbn.
    destruct (queue_insert_spec _ _ _ Hwf Ei) as (_ & _ & _ & P).
    rewrite (P Hv), Hc. apply Permutation_middle.
  - destruct (lock (r_queue r)); [discriminate|]. inversion E; subst r'. cbn.
    destruct (queue_get_incoming_spec _ Hwf) as (_ & P & _).
    now rewrite P.
  - destruct (lock (r_queue r)) eqn:Hl.
    + rewrite queue_gettask_locked in E by exact Hl.
      destruct blocking; [discriminate|]. inversion E; subst r'. exact Hc.
    + destruct (queue_gettask_spec _ prev blocking (r_locks r) Hwf Hl)
        as (res & q1 & l1 & E1 & _ & _ & Ti & _ & _ & _ & R).
      destruct (queue_get_incoming_spec _ Hwf) as (_ & P & _).
      rewrite E1 in E.
      assert (Hp : pending_list q1
                   = pending_list (queue_get_incoming (r_queue r)))
        by (unfold pending_list; now rewrite Ti).
      destruct res as [t|]; inversion E; subst r'; cbn.
      * destruct R as (_ & Pt & _).
        rewrite Hc, <- P, Pt, Hp. cbn [app]. symmetry.
        apply Permutation_middle.
      * destruct R as (-> & _). now rewrite P.
  - inversion E; subst r'. exact Hc.
Qed.

(** C7: after any sequence of calls on a new queue, the number of tasks
    inserted is the number of tasks returned by [queue_gettask] plus the
    number in the heap ([count]) plus the number waiting in the incoming
    buffer. *)
Theorem conservation (ops : list op) (ls : LockState) (r : trace) :
  Forall op_valid ops -> run ops (start ls) = Some r ->
  Z.of_nat (length (r_inserted r))
  = Z.of_nat (length (r_returned r)) + count (r_queue r)
    + pending (r_queue r).
Proof.
  intros Hv E.
  apply (run_invariant op_valid conserved) in E; auto.
  - destruct E as [[(L & C & _) _] P]. apply Permutation_length in P.
    rewrite !length_app in P. unfold pending.
    pose proof (length_heap_of (tid (r_queue r)) (count (r_queue r))).
    unfold heap in P. lia.
  - apply run_op_conserved.
  - apply queue_init_wf.
  - unfold conserved, start. cbn [r_inserted r_returned r_queue app].
    destruct queue_init_empty as [-> ->]. reflexivity.
Qed.

(** C8: a non-blocking [queue_gettask] on a queue whose lock is held
    returns no task at once and leaves the queue and the task locks as they
    are. *)
Theorem gettask_nonblocking_lock_held (q : queue) (prev : option Z)
    (ls : LockState) :
  lock q = true -> queue_gettask q prev false ls = Some (None, q, ls).
Proof. intros H. unfold queue_gettask. now rewrite H. Qed.

(** C3: on a well-formed queue, [queue_gettask] does not return only when
    it is blocking and the lock is held; it returns a task only if the task
    is in the heap after the drain and its lock was taken, the locks tried
    before it having failed; and when it returns no task with the queue
    lock free, the lock of every task of the heap after the drain (none if
    it is empty) was tried and failed. *)
Theorem gettask_result (q : queue) (prev : option Z) (blocking : bool)
    (ls : LockState) :
  queue_wf q ->
  let d := queue_get_incoming q in
  match queue_gettask q prev blocking ls with
  | None => lock q = true /\ blocking = true
  | Some (Some t, q', ls') =>
      lock q = false /\ In t (heap d)
      /\ exists tried ls1,
           lock_fails ls tried ls1 /\ task_lock ls1 t = (true, ls')
           /\ incl tried (heap d)
  | Some (None, q', ls') =>
      (lock q = true /\ blocking = false /\ q' = q /\ ls' = ls)
      \/ (lock q = false
          /\ exists tried,
               lock_fails ls tried ls' /\ Permutation tried (heap d))
  end.
Proof.
  intros Hwf d. destruct (lock q) eqn:Hl.
  - rewrite queue_gettask_locked by exact Hl.
    destruct blocking; [now split|]. left. now repeat split.
  - destruct (queue_gettask_spec q prev blocking ls Hwf Hl)
      as (res & q1 & l1 & E1 & _ & _ & _ & _ & _ & _ & R).
    rewrite E1. fold d in R. destruct res as [t|].
    + destruct R as (_ & Pt & _ & H). split; [reflexivity|]. split; [|exact H].
      eapply Permutation_in; [symmetry; exact Pt|]. now left.
    + right. split; [reflexivity|]. apply R.
Qed.

(** ** The spin loop of [queue_insert] *)

Lemma insert_spin_stuck_locked (q : queue) (ind t : Z) :
  rd 0 (tid_incoming q) ind <> -1 -> lock q = true ->
  forall n, insert_spin n q ind t = None.
Proof.
  intros Hs Hl. induction n as [|n IH]; cbn [insert_spin]; [reflexivity|].
  rewrite (proj2 (Z.eqb_neq _ _) Hs), Hl. exact IH.
Qed.

Lemma insert_spin_stuck_drained (q : queue) (ind t : Z) :
  rd 0 (tid_incoming q) ind <> -1 -> lock q = false ->
  queue_get_incoming q = q ->
  forall n, insert_spin n q ind t = None.
Proof.
  intros Hs Hl Hd. induction n as [|n IH]; cbn [insert_spin]; [reflexivity|].
  rewrite (proj2 (Z.eqb_neq _ _) Hs), Hl.
  rewrite queue_get_incoming_lock, set_lock_twice, Hd, set_lock_id; auto.
Qed.

Lemma insert_spin_step (q : queue) (ind t : Z) (n : nat) :
  rd 0 (tid_incoming q) ind <> -1 -> lock q = false ->
  insert_spin (S n) q ind t = insert_spin n (queue_get_incoming q) ind t.
Proof.
  intros Hs Hl. cbn [insert_spin].
  rewrite (proj2 (Z.eqb_neq _ _) Hs), Hl.
  rewrite queue_get_incoming_lock, set_lock_twice, set_lock_id; auto.
  unfold queue_get_incoming. now rewrite lock_get_incoming_loop.
Qed.

(** Two turns of the spin loop decide: with more turns the answer is the
    same, so a call that has not stored its offset after two turns never
    does. *)
Lemma insert_spin_fuel (q : queue) (ind t : Z) (n : nat) :
  queue_wf q -> (2 <= n)%nat ->
  insert_spin n q ind t = insert_spin 2 q ind t.
Proof.
  intros Hwf Hn. destruct n as [|[|n]]; try lia.
  destruct (Z.eq_dec (rd 0 (tid_incoming q) ind) (-1)) as [Hs|Hs].
  - cbn [insert_spin]. now rewrite (proj2 (Z.eqb_eq _ _) Hs).
  - destruct (lock q) eqn:Hl.
    + now rewrite !insert_spin_stuck_locked.
    + rewrite (insert_spin_step q ind t (S n)), (insert_spin_step q ind t 1)
        by assumption.
      destruct (queue_get_incoming_spec q Hwf)
        as (Wd & _ & _ & _ & _ & Ld & Dn).
      rewrite Hl in Ld. set (d := queue_get_incoming q) in *. clearbody d.
      destruct (Z.eq_dec (rd 0 (tid_incoming d) ind) (-1)) as [Hs'|Hs'].
      * cbn [insert_spin]. now rewrite (proj2 (Z.eqb_eq _ _) Hs').
      * rewrite !insert_spin_stuck_drained; auto;
          now apply queue_get_incoming_idem.
Qed.

(** ** The incoming buffer as a ring *)

Lemma rem_inj (x y : Z) :
  0 <= x <= y -> y - x < queue_incoming_size ->
  Z.rem x queue_incoming_size = Z.rem y queue_incoming_size -> x = y.
Proof.
  intros Hxy Hd E. rewrite !Z.rem_mod_nonneg in E by lia.
  pose proof (Z.div_mod x queue_incoming_size ltac:(lia)).
  pose proof (Z.div_mod y queue_incoming_size ltac:(lia)).
  set (k := y / queue_incoming_size - x / queue_incoming_size).
  assert (Hk : y - x = queue_incoming_size * k) by (unfold k; lia).
  assert (k = 0); [|subst k; lia].
  destruct (Z.lt_trichotomy k 0) as [Hneg|[Hz|Hpos]]; [|exact Hz|].
  - assert (queue_incoming_size * k <= queue_incoming_size * (-1))
      by (apply Z.mul_le_mono_nonneg_l; lia). lia.
  - assert (queue_incoming_size * 1 <= queue_incoming_size * k)
      by (apply Z.mul_le_mono_nonneg_l; lia). lia.
Qed.

Lemma uint_inc_small (x : Z) : 0 <= x -> x + 1 < UINT_MOD -> uint_inc x = x + 1.
Proof. intros H0 H1. unfold uint_inc. apply Z.mod_small. lia. Qed.

Lemma get_incoming_body_ring (q : queue) :
  queue_wf q -> ring_ok q -> first_incoming q < last_incoming q ->
  ring_ok (get_incoming_body q (Z.rem (first_incoming q) queue_incoming_size)).
Proof.
  intros Hwf (Fl & Sz & Lm & Occ & Free) Hlt.
  set (ind := Z.rem (first_incoming q) queue_incoming_size).
  assert (Hv : 0 <= rd 0 (tid_incoming q) ind) by (apply Occ; lia).
  destruct (get_incoming_body_spec q ind (proj1 Hwf) Hv)
    as (_ & _ & _ & _ & Ti & Fi & La & _).
  pose proof (rem_range _ (proj1 Fl)) as Hr. fold ind in Hr.
  destruct Hwf as [_ [Li _]].
  unfold ring_ok. rewrite Ti, Fi, La, uint_inc_small by lia.
  repeat split; try lia.
  - intros c Hc. rewrite rd_wr_other; [apply Occ; lia|].
    intros E. apply (rem_inj (first_incoming q) c) in E; lia.
  - intros j Hj Hfree. destruct (Z.eq_dec j ind) as [->|Hne].
    + apply rd_wr_same. lia.
    + rewrite rd_wr_other by congruence. apply Free; [exact Hj|].
      intros c Hc. destruct (Z.eq_dec c (first_incoming q)) as [->|Hcf].
      * fold ind. congruence.
      * apply Hfree. lia.
Qed.

Lemma get_incoming_loop_ring (fuel : nat) :
  forall q, queue_wf q -> ring_ok q -> ring_ok (get_incoming_loop fuel q).
Proof.
  induction fuel as [|fuel IH]; intros q Hwf Hr; cbn [get_incoming_loop];
    [exact Hr|].
  set (ind := Z.rem (first_incoming q) queue_incoming_size).
  destruct (Z.ltb_spec (rd 0 (tid_incoming q) ind) 0) as [Hv|Hv];
    [exact Hr|].
  assert (Hlt : first_incoming q < last_incoming q).
  { destruct Hr as (Fl & _ & _ & _ & Free).
    destruct (Z.eq_dec (first_incoming q) (last_incoming q)) as [E|E]; [|lia].
    pose proof (rem_range _ (proj1 Fl)) as Hi. fold ind in Hi.
    rewrite (Free ind Hi) in Hv; [lia|]. intros c Hc. lia. }
  apply IH.
  - apply (get_incoming_body_pending q Hwf Hv).
  - now apply get_incoming_body_ring.
Qed.

Lemma filter_all_free (l : list Z) :
  (forall x, In x l -> x = -1) -> filter (fun x => 0 <=? x) l = [].
Proof.
  induction l as [|x l IH]; intros H; [reflexivity|]. cbn [filter].
  rewrite (H x (or_introl eq_refl)). cbn. apply IH.
  intros y Hy. apply H. now right.
Qed.

(** After a drain the ring is empty. *)
Lemma queue_get_incoming_ring (q : queue) :
  queue_wf q -> ring_ok q ->
  let q' := queue_get_incoming q in
  ring_ok q' /\ first_incoming q' = last_incoming q'
  /\ pending_list q' = [].
Proof.
  intros Hwf Hr q'.
  assert (Hr' : ring_ok q') by now apply get_incoming_loop_ring.
  destruct (queue_get_incoming_spec q Hwf) as (Wd & _ & _ & _ & _ & _ & Dn).
  fold q' in Wd, Dn.
  assert (E : first_incoming q' = last_incoming q').
  { destruct Hr' as (Fl & _ & _ & Occ & _).
    destruct (Z.eq_dec (first_incoming q') (last_incoming q')) as [E|E];
      [exact E|].
    specialize (Occ (first_incoming q') ltac:(lia)). lia. }
  split; [exact Hr'|]. split; [exact E|].
  destruct Hr' as (_ & _ & _ & _ & Free). destruct Wd as [_ [Li _]].
  unfold pending_list. apply filter_all_free.
  intros x Hx. destruct (In_nth _ _ 0 Hx) as (i & Hi & <-).
  specialize (Free (Z.of_nat i) ltac:(lia)).
  unfold rd in Free. destruct (Z.ltb_spec (Z.of_nat i) 0); [lia|].
  rewrite Nat2Z.id in Free. apply Free. intros c Hc. lia.
Qed.

Lemma get_incoming_loop_last (fuel : nat) (x : Z) :
  forall q, get_incoming_loop fuel (set_last_incoming q x)
            = set_last_incoming (get_incoming_loop fuel q) x.
Proof.
  induction fuel as [|fuel IH]; intros q; cbn [get_incoming_loop];
    [reflexivity|]. qsimpl.
  destruct (rd 0 (tid_incoming q) _ <? 0); [reflexivity|].
  rewrite <- IH. f_equal.
  unfold get_incoming_body. rewrite !queue_bubble_up_eq. qsimpl.
  destruct (count q =? size q); reflexivity.
Qed.

(** On a ring whose counters are not about to wrap, with the queue lock
    free, [queue_insert] returns. *)
Lemma queue_insert_ring (q : queue) (t : Z) :
  queue_wf q -> ring_ok q -> lock q = false -> 0 <= t ->
  last_incoming q + 1 < UINT_MOD ->
  exists q', queue_insert q t = Some q' /\ ring_ok q'
             /\ last_incoming q' = last_incoming q + 1.
Proof.
  intros Hwf Hr Hl Ht Hm.
  set (ind := Z.rem (last_incoming q) queue_incoming_size).
  set (q0 := set_last_incoming q (uint_inc (last_incoming q))).
  assert (Hfill : forall b : queue,
             queue_wf b -> ring_ok b -> last_incoming b = last_incoming q ->
             rd 0 (tid_incoming b) ind = -1 ->
             last_incoming b - first_incoming b < queue_incoming_size ->
             ring_ok (fill_slot (set_last_incoming b (last_incoming q + 1))
                                ind t)).
  { intros b Wb (Fl & Sz & Lm & Occ & Free) Lb Hs Hsz.
    pose proof (slot_free_in_range _ _ Hs) as Hi.
    unfold ring_ok, fill_slot. qsimpl.
    repeat split; try lia.
    - intros c Hc. destruct (Z.eq_dec c (last_incoming q)) as [->|Hne].
      + fold ind. rewrite rd_wr_same by lia. exact Ht.
      + rewrite rd_wr_other; [apply Occ; lia|].
        intros E. symmetry in E. apply (rem_inj c (last_incoming q)) in E; lia.
    - intros j Hj Hfree. rewrite rd_wr_other.
      + apply Free; [exact Hj|]. intros c Hc. apply Hfree. lia.
      + intros E. apply (Hfree (last_incoming q)); [lia|]. now symmetry. }
  unfold queue_insert. fold ind q0. cbn [insert_spin].
  change (tid_incoming q0) with (tid_incoming q).
  change (lock q0) with (lock q). rewrite Hl.
  destruct (Z.eqb_spec (rd 0 (tid_incoming q) ind) (-1)) as [Hs|Hs].
  - (* the slot is free *)
    eexists. split; [reflexivity|].
    assert (Hsz : last_incoming q - first_incoming q < queue_incoming_size).
    { destruct Hr as (Fl & Sz & _ & Occ & _).
      destruct (Z.eq_dec (last_incoming q - first_incoming q)
                         queue_incoming_size) as [E|E]; [|lia].
      specialize (Occ (first_incoming q) ltac:(lia)).
      replace (last_incoming q) with (first_incoming q + 1 * queue_incoming_size)
        in Hs by lia.
      unfold ind in Hs.
      replace (last_incoming q)
        with (first_incoming q + 1 * queue_incoming_size) in Hs by lia.
      rewrite Z.rem_add in Hs by nia. lia. }
    split.
    + unfold q0. rewrite uint_inc_small by (destruct Hr; lia).
      change (fill_slot (set_last_incoming q (last_incoming q + 1)) ind t)
        with (fill_slot (set_last_incoming q (last_incoming q + 1)) ind t).
      apply (Hfill q); auto.
    + unfold fill_slot, q0. qsimpl. apply uint_inc_small; destruct Hr; lia.
  - (* the slot is taken: the caller drains the buffer itself *)
    rewrite queue_get_incoming_lock, set_lock_twice.
    assert (Hd0 : queue_get_incoming q0
                  = set_last_incoming (queue_get_incoming q)
                                      (uint_inc (last_incoming q)))
      by (unfold queue_get_incoming; apply get_incoming_loop_last).
    destruct (queue_get_incoming_spec q Hwf) as (Wd & _ & _ & _ & La & Ld & _).
    destruct (queue_get_incoming_ring q Hwf Hr) as (Rd & Ed & _).
    set (d := queue_get_incoming q) in *.
    rewrite Hl in Ld.
    rewrite Hd0, set_lock_id by exact Ld. qsimpl.
    assert (Hs' : rd 0 (tid_incoming d) ind = -1).
    { destruct Rd as (Fl & _ & _ & _ & Free). apply Free.
      - apply rem_range. destruct Hr; lia.
      - intros c Hc. lia. }
    rewrite (proj2 (Z.eqb_eq _ _) Hs').
    eexists. split; [reflexivity|].
    rewrite uint_inc_small by (destruct Hr; lia). split.
    + apply (Hfill d); auto. lia.
    + unfold fill_slot. qsimpl. reflexivity.
Qed.

Lemma queue_init_ring : ring_ok queue_init.
Proof.
  unfold ring_ok, queue_init; cbn. repeat split; try lia.
  intros j Hj _. unfold rd. destruct (Z.ltb_spec j 0); [lia|].
  apply nth_repeat_lt. lia.
Qed.

(** ** Insert, then drain *)

Lemma rd_all_free (l : list Z) (j : Z) :
  Forall (fun x => x = -1) l -> 0 <= j < Z.of_nat (length l) ->
  rd 0 l j = -1.
Proof.
  intros H Hj. unfold rd. destruct (Z.ltb_spec j 0); [lia|].
  rewrite Forall_forall in H. apply H. apply nth_In. lia.
Qed.

Lemma upd_restore (l : list Z) (n : nat) (t : Z) :
  nth n l 0 = -1 -> (n < length l)%nat -> upd (upd l n t) n (-1) = l.
Proof.
  revert n; induction l as [|x l IH]; intros [|n]; simpl; intros Hv Hn;
    try lia.
  - now subst.
  - f_equal. apply IH; [exact Hv|lia].
Qed.

Lemma idle_pending (q : queue) : incoming_idle q -> pending_list q = [].
Proof.
  intros [_ H]. unfold pending_list. apply filter_all_free.
  now apply Forall_forall.
Qed.

Lemma idle_drained (q : queue) :
  queue_wf q -> incoming_idle q -> queue_get_incoming q = q.
Proof.
  intros [_ [Li Fi]] [_ H]. apply queue_get_incoming_idem.
  rewrite rd_all_free; [lia|exact H|]. pose proof (rem_range _ Fi). lia.
Qed.

Lemma get_incoming_loop_stop (fuel : nat) (q : queue) :
  rd 0 (tid_incoming q) (Z.rem (first_incoming q) queue_incoming_size) < 0 ->
  get_incoming_loop fuel q = q.
Proof.
  intros H. destruct fuel; cbn [get_incoming_loop]; [reflexivity|].
  destruct (Z.ltb_spec (rd 0 (tid_incoming q)
                           (Z.rem (first_incoming q) queue_incoming_size)) 0);
    [reflexivity|lia].
Qed.

Lemma insert_drain_idle (q : queue) (t : Z) :
  queue_wf q -> incoming_idle q -> 0 <= t ->
  exists q1,
    queue_insert q t = Some q1
    /\ let q2 := queue_get_incoming q1 in
       queue_wf q2 /\ incoming_idle q2 /\ lock q2 = lock q
       /\ count q2 = count q + 1 /\ size q <= size q2
       /\ Permutation (heap q2) (t :: heap q).
Proof.
  intros Hwf [Efl Hfree] Ht.
  pose proof Hwf as [Hh [Li Fi]].
  set (ind := Z.rem (last_incoming q) queue_incoming_size).
  assert (Hi : 0 <= ind < queue_incoming_size)
    by (apply rem_range; lia).
  assert (Hs : rd 0 (tid_incoming q) ind = -1)
    by (apply rd_all_free; [exact Hfree|lia]).
  set (q1 := fill_slot (set_last_incoming q (uint_inc (last_incoming q)))
                       ind t).
  assert (E1 : queue_insert q t = Some q1).
  { unfold queue_insert. fold ind. cbn [insert_spin]. qsimpl.
    now rewrite (proj2 (Z.eqb_eq _ _) Hs). }
  exists q1. split; [exact E1|]. cbn zeta.
  destruct (queue_insert_spec q t q1 Hwf E1) as (W1 & L1 & S1 & P1).
  destruct (queue_get_incoming_spec q1 W1) as (W2 & P2 & S2 & _ & La2 & L2 & _).
  assert (Ed : queue_get_incoming q1 = get_incoming_body q1 ind).
  { unfold queue_get_incoming.
    destruct (length (tid_incoming q1)) as [|f] eqn:El.
    - unfold q1, fill_slot in El. qsimpl. rewrite length_wr in El. lia.
    - cbn [get_incoming_loop].
      change (first_incoming q1) with (first_incoming q).
      rewrite Efl. fold ind.
      change (tid_incoming q1) with (wr (tid_incoming q) ind t).
      rewrite rd_wr_same by lia.
      destruct (Z.ltb_spec t 0); [lia|].
      apply get_incoming_loop_stop.
      destruct (get_incoming_body_spec q1 ind (proj1 W1))
        as (_ & _ & _ & _ & Ti & Fr & _).
      { change (tid_incoming q1) with (wr (tid_incoming q) ind t).
        rewrite rd_wr_same by lia. exact Ht. }
      rewrite Ti, Fr.
      change (tid_incoming q1) with (wr (tid_incoming q) ind t).
      unfold wr. destruct (Z.ltb_spec ind 0); [lia|].
      rewrite upd_restore.
      + rewrite rd_all_free; [lia|exact Hfree|].
        pose proof (rem_range _ (proj1 (uint_inc_range (first_incoming q1)))).
        lia.
      + unfold rd in Hs. destruct (Z.ltb_spec ind 0); [lia|exact Hs].
      + lia. }
  assert (Hidle : incoming_idle (queue_get_incoming q1)).
  { rewrite Ed.
    destruct (get_incoming_body_spec q1 ind (proj1 W1))
      as (_ & _ & _ & _ & Ti & Fr & La & _).
    { change (tid_incoming q1) with (wr (tid_incoming q) ind t).
      rewrite rd_wr_same by lia. exact Ht. }
    split.
    - rewrite Fr, La. unfold q1, fill_slot. qsimpl. now rewrite Efl.
    - rewrite Ti. change (tid_incoming q1) with (wr (tid_incoming q) ind t).
      unfold wr. destruct (Z.ltb_spec ind 0); [lia|].
      rewrite upd_restore; [exact Hfree| |lia].
      unfold rd in Hs. destruct (Z.ltb_spec ind 0); [lia|exact Hs]. }
  assert (Pm : Permutation (heap (queue_get_incoming q1)) (t :: heap q)).
  { specialize (P1 Ht). rewrite (idle_pending _ Hidle), app_nil_r in P2.
    rewrite P2, P1. rewrite (idle_pending q (conj Efl Hfree)), app_nil_r.
    reflexivity. }
  repeat split; auto; try apply W2; try apply Hidle; try congruence; try lia.
  apply Permutation_length in Pm. cbn [length] in Pm.
  pose proof (length_heap_of (tid q) (count q)).
  pose proof (length_heap_of (tid (queue_get_incoming q1))
                             (count (queue_get_incoming q1))).
  destruct W2 as [(? & ? & ? & _) _]. destruct Hh as (? & ? & ? & _).
  unfold heap in Pm. lia.
Qed.

Lemma insert_drain_all_spec (ts : list Z) :
  forall q, queue_wf q -> incoming_idle q -> Forall (fun t => 0 <= t) ts ->
    exists q',
      insert_drain_all ts q = Some q'
      /\ queue_wf q' /\ incoming_idle q' /\ lock q' = lock q
      /\ count q' = count q + Z.of_nat (length ts) /\ size q <= size q'
      /\ Permutation (heap q') (ts ++ heap q)
      /\ (queue_heap_ok q -> queue_heap_ok q').
Proof.
  induction ts as [|t ts IH]; intros q Hwf Hidle Hts.
  - exists q. cbn. repeat split; auto; try apply Hwf; try apply Hidle; lia.
  - inversion Hts as [|? ? Ht Hts']; subst.
    destruct (insert_drain_idle q t Hwf Hidle Ht)
      as (q1 & E1 & W2 & I2 & L2 & C2 & S2 & P2).
    destruct (IH _ W2 I2 Hts') as (q' & E' & W' & I' & L' & C' & S' & P' & O').
    exists q'. cbn [insert_drain_all]. rewrite E1.
    split; [exact E'|]. split; [exact W'|]. split; [exact I'|].
    split; [congruence|].
    split; [change (length (t :: ts)) with (S (length ts)); lia|].
    split; [lia|].
    split.
    + rewrite P', P2. cbn [app]. symmetry. apply Permutation_middle.
    + intros Hok. apply O'.
      apply get_incoming_loop_order.
      * exact (proj1 (queue_insert_spec _ _ _ Hwf E1)).
      * exact (queue_insert_order _ _ _ Hwf Hok E1).
Qed.

Lemma queue_init_idle : incoming_idle queue_init.
Proof.
  split; [reflexivity|]. unfold queue_init; cbn.
  apply Forall_forall. intros x Hx. now apply repeat_spec in Hx.
Qed.

(** ** Every lock succeeds *)

Section AllLocksSucceed.

Hypothesis locks_succeed : forall ls t, fst (task_lock ls t) = true.

Lemma lock_fails_none ls l ls' : lock_fails ls l ls' -> l = [].
Proof.
  intros H. destruct H as [|ls t ls1 l ls2 E _]; [reflexivity|].
  pose proof (locks_succeed ls t) as Hs. rewrite E in Hs. discriminate.
Qed.

Lemma queue_gettask_some (q : queue) (prev : option Z) (blocking : bool)
    (ls : LockState) :
  queue_wf q -> incoming_idle q -> lock q = false -> 0 < count q ->
  exists ind ls',
    0 <= ind < count q
    /\ queue_gettask q prev blocking ls
       = Some (Some (rd 0 (tid q) ind), queue_remove q ind, ls')
    /\ queue_wf (queue_remove q ind) /\ incoming_idle (queue_remove q ind)
    /\ lock (queue_remove q ind) = false
    /\ count (queue_remove q ind) = count q - 1
    /\ Permutation (heap q) (rd 0 (tid q) ind :: heap (queue_remove q ind)).
Proof.
  intros Hwf Hidle Hl Hc.
  destruct (queue_gettask_spec q prev blocking ls Hwf Hl)
    as (res & q' & ls' & E & W & L & Ti & Fi & La & _ & R).
  rewrite (idle_drained q Hwf Hidle) in *.
  destruct res as [t|].
  - destruct R as ((ind & I & -> & ->) & P & C & _).
    exists ind, ls'. repeat split; auto; try apply W; try lia.
    + rewrite Fi, La. apply Hidle.
    + rewrite Ti. apply Hidle.
  - destruct R as (_ & tried & Lf & P).
    apply lock_fails_none in Lf. subst tried.
    apply Permutation_length in P. cbn [length] in P.
    pose proof (length_heap_of (tid q) (count q)).
    destruct Hwf as [(? & ? & ? & _) _]. unfold heap in P. lia.
Qed.

Lemma gettask_repeat_all (prev : option Z) (blocking : bool) (n : nat) :
  forall q ls,
    queue_wf q -> incoming_idle q -> lock q = false ->
    count q = Z.of_nat n ->
    exists out q' ls',
      gettask_repeat n q prev blocking ls = Some (map Some out, q', ls')
      /\ Permutation out (heap q) /\ count q' = 0.
Proof.
  induction n as [|n IH]; intros q ls Hwf Hidle Hl Hc.
  - exists [], q, ls. cbn. repeat split; auto.
    unfold heap, heap_of. now rewrite Hc.
  - destruct (queue_gettask_some q prev blocking ls Hwf Hidle Hl ltac:(lia))
      as (ind & ls1 & I & E & W1 & I1 & L1 & C1 & P1).
    destruct (IH (queue_remove q ind) ls1 W1 I1 L1 ltac:(lia))
      as (out & q' & ls' & E' & P' & C').
    exists (rd 0 (tid q) ind :: out), q', ls'.
    cbn [gettask_repeat map]. rewrite E, E'.
    repeat split; auto. rewrite P1. now apply perm_skip.
Qed.

End AllLocksSucceed.

(** C6: from a new queue, inserting more tasks than the initial capacity,
    each insert followed by a drain, gives a queue whose array has grown to
    at least the number of tasks, whose [count] is the number of tasks, whose
    heap is in order and holds exactly the tasks inserted; and as many calls
    of [queue_gettask] as there are tasks then return exactly the tasks
    inserted when every task lock can be taken (the task array, hence
    every weight, is not written). *)
Theorem growth_keeps_tasks (ts : list Z) :
  Forall (fun t => 0 <= t) ts -> queue_sizeinit < Z.of_nat (length ts) ->
  exists q,
    insert_drain_all ts queue_init = Some q
    /\ count q = Z.of_nat (length ts)
    /\ Z.of_nat (length ts) <= size q /\ queue_sizeinit < size q
    /\ Z.of_nat (length (tid q)) = size q
    /\ (forall k, 1 <= k < count q ->
          Float.ge (weight (rd 0 (tid q) ((k - 1) ÷ 2)))
                   (weight (rd 0 (tid q) k)) = true)
    /\ Permutation (heap q) ts
    /\ ((forall ls t, fst (task_lock ls t) = true) ->
        forall prev blocking ls,
        exists out q' ls',
          gettask_repeat (length ts) q prev blocking ls
          = Some (map Some out, q', ls')
          /\ Permutation out ts).
Proof.
  intros Hts Hn.
  destruct (insert_drain_all_spec ts queue_init queue_init_wf queue_init_idle
              Hts) as (q & E & W & I & L & C & S & P & O).
  change (count queue_init) with 0 in C.
  change (heap queue_init) with (@nil Z) in P. rewrite app_nil_r in P.
  pose proof W as [(Lq & Cq & Sq & _) _].
  exists q. split; [exact E|]. split; [lia|]. split; [lia|]. split; [lia|].
  split; [exact Lq|]. split; [apply O, queue_init_heap_ok|].
  split; [exact P|].
  intros Hlocks prev blocking ls.
  destruct (gettask_repeat_all Hlocks prev blocking (length ts) q ls W I)
    as (out & q' & ls' & E' & P' & _); [exact L|lia|].
  exists out, q', ls'. split; [exact E'|]. now rewrite P'.
Qed.

(** ** Every lock succeeds and no score is larger than another *)

Lemma rest_step_broken (s : sel LockState) :
  s_break s = true -> rest_step s = s.
Proof. intros H. unfold rest_step. now rewrite H. Qed.

Lemma rest_iter_broken (s : sel LockState) (m : nat) :
  s_break s = true -> Nat.iter m rest_step s = s.
Proof.
  intros H. induction m as [|m IH]; [reflexivity|].
  now rewrite Nat.iter_succ, IH, rest_step_broken.
Qed.

Section RootFirst.

Variable a : list Z.
Variable n : Z.
Variable prev : option Z.
Variable ls0 : LockState.
Hypothesis heap_nonempty : 0 < n.
Hypothesis locks_succeed : forall ls t, fst (task_lock ls t) = true.
Hypothesis scores_tie :
  forall t t', Float.gt (task_overlap prev t) (task_overlap prev t') = false.

Local Abbreviation root_inv := (root_inv a prev).
Local Abbreviation root_found := (root_found a).

Lemma best_loop_tie (window : list wentry) (window_count : Z) :
  (forall i, 0 <= i < window_count ->
     exists t, w_score (rd wentry0 window i) = task_overlap prev t) ->
  forall m i, 1 <= i -> i + Z.of_nat m <= window_count ->
    best_loop m window i 0 = 0.
Proof.
  intros H. induction m as [|m IH]; intros i Hi Hm; cbn [best_loop];
    [reflexivity|].
  destruct (H i ltac:(lia)) as [t ->]. destruct (H 0 ltac:(lia)) as [t' ->].
  rewrite scores_tie. apply IH; lia.
Qed.

Lemma window_best_tie (window : list wentry) (window_count : Z) :
  (forall i, 0 <= i < window_count ->
     exists t, w_score (rd wentry0 window i) = task_overlap prev t) ->
  window_best window window_count = 0.
Proof.
  intros H. unfold window_best.
  destruct (Z.le_gt_cases window_count 1).
  - replace (Z.to_nat (window_count - 1)) with O by lia. reflexivity.
  - apply (best_loop_tie window window_count H); lia.
Qed.

Lemma try_root (s : sel LockState) :
  0 < s_window_count s ->
  (forall i, 0 <= i < s_window_count s ->
     exists t, w_score (rd wentry0 (s_window s) i) = task_overlap prev t) ->
  w_ind (rd wentry0 (s_window s) 0) = 0 ->
  w_tid (rd wentry0 (s_window s) 0) = rd 0 a 0 ->
  (queue_search_window <= s_k s -> root_found (scan_body a prev s))
  /\ root_found (rest_body s).
Proof.
  intros Hpos Hsc Hi Ht. unfold scan_body, rest_body.
  rewrite (window_best_tie _ _ Hsc), Hi, Ht.
  pose proof (locks_succeed (s_locks s) (rd 0 a 0)) as Hl.
  destruct (task_lock (s_locks s) (rd 0 a 0)) as [ok ls']. cbn in Hl.
  subst ok. split.
  - intros Hk. destruct (Z.ltb_spec (s_k s) queue_search_window); [lia|].
    now repeat split.
  - now repeat split.
Qed.

Lemma sel_init_root : root_inv (sel_init ls0).
Proof.
  unfold root_inv, sel_init; cbn. rewrite repeat_length.
  repeat split; try lia.
Qed.

Lemma scan_step_root (s : sel LockState) :
  root_inv s -> s_k s < n ->
  let s' := scan_step n a prev s in
  root_found s' \/ (root_inv s' /\ s_k s' = s_k s + 1).
Proof.
  intros (Bk & K & C & L & T & Sc & R0) Hk s'. subst s'.
  unfold scan_step. rewrite Bk. cbn [orb].
  destruct (Z.geb_spec (s_k s) n); [lia|].
  destruct (Z.ltb_spec (s_k s) queue_search_window) as [Hw|Hw].
  - right. unfold scan_body.
    destruct (Z.ltb_spec (s_k s) queue_search_window); [|lia].
    unfold root_inv;
      cbn [s_break s_k s_window s_window_count s_tid s_ind s_locks].
    rewrite length_wr.
    repeat split; try lia; auto.
    + intros i Hi. destruct (Z.eq_dec i (s_window_count s)) as [->|Hne].
      * rewrite rd_wr_same by lia. cbn [w_score]. eauto.
      * rewrite rd_wr_other by congruence. apply Sc. lia.
    + destruct (Z.eq_dec (s_window_count s) 0) as [E0|E0].
      * rewrite E0, rd_wr_same by lia. cbn [w_ind]. lia.
      * rewrite rd_wr_other by congruence. apply R0. lia.
    + destruct (Z.eq_dec (s_window_count s) 0) as [E0|E0].
      * rewrite E0, rd_wr_same by lia. cbn [w_tid].
        replace (s_k s) with 0 by lia. reflexivity.
      * rewrite rd_wr_other by congruence. apply R0. lia.
  - left. destruct R0 as [Ri Rt]; [lia|].
    destruct (try_root s) as [Hf _]; auto; lia.
Qed.

Lemma scan_step_root_found (s : sel LockState) :
  root_found s -> scan_step n a prev s = s.
Proof. intros (Bk & _). unfold scan_step. now rewrite Bk. Qed.

Lemma scan_iter_root (m : nat) :
  let s := Nat.iter m (scan_step n a prev) (sel_init ls0) in
  root_found s \/ (root_inv s /\ s_k s = Z.min (Z.of_nat m) n).
Proof.
  induction m as [|m IH]; [|rewrite Nat.iter_succ].
  - right. split; [apply sel_init_root|cbn; lia].
  - cbn zeta in IH. destruct IH as [Hf|[Hi Hk]].
    + left. now rewrite scan_step_root_found.
    + destruct (Z.lt_ge_cases (s_k (Nat.iter m (scan_step n a prev)
                                             (sel_init ls0))) n) as [Hlt|Hge].
      * destruct (scan_step_root _ Hi Hlt) as [Hf|[Hi' Hk']]; [now left|].
        right. split; [exact Hi'|]. lia.
      * right. rewrite scan_step_end by exact Hge.
        split; [exact Hi|]. lia.
Qed.

(** The two loops lock the task at the root of the heap. *)
Lemma select_root :
  0 <= rd 0 a 0 ->
  let s := rest_loop (scan_loop n a prev ls0) in
  s_ind s = 0 /\ s_tid s = rd 0 a 0.
Proof.
  intros Hroot s. subst s. unfold scan_loop, rest_loop.
  destruct (scan_iter_root (Z.to_nat n)) as [(Bk & I & T)|[Hi Hk]];
    set (s1 := Nat.iter _ _ _) in *.
  - destruct (Z.ltb_spec (s_tid s1) 0); [lia|]. now split.
  - destruct Hi as (Bk & K & C & L & T & Sc & R0).
    rewrite T. cbn [Z.ltb Z.compare].
    assert (Hpos : 0 < s_window_count s1) by lia.
    destruct (R0 Hpos) as [Ri Rt].
    destruct (try_root (unbroken s1)) as [_ (Bk' & I' & T')]; auto.
    change (s_window_count (unbroken s1)) with (s_window_count s1).
    destruct (Z.to_nat (s_window_count s1)) as [|m] eqn:Em; [lia|].
    rewrite Nat.iter_succ_r.
    assert (Er : rest_step (unbroken s1) = rest_body (unbroken s1)).
    { unfold rest_step. cbn [s_break unbroken orb].
      change (s_window_count (unbroken s1)) with (s_window_count s1).
      destruct (Z.leb_spec (s_window_count s1) 0); [lia|reflexivity]. }
    rewrite Er, rest_iter_broken by exact Bk'. now split.
Qed.

End RootFirst.

Lemma heap_root_max (a : list Z) (n : Z) :
  heap_ok a n -> forall k, 0 <= k < n -> hge a 0 k.
Proof.
  intros H.
  assert (Hm : forall m : nat, forall k, 0 <= k < Z.of_nat m -> k < n ->
                                         hge a 0 k).
  { induction m as [|m IH]; intros k Hk Hn; [lia|].
    destruct (Z.eq_dec k 0) as [->|Hne]; [apply hge_refl|].
    pose proof (quot2_spec k ltac:(lia)).
    apply (hge_trans a a a 0 ((k - 1) ÷ 2) k).
    - apply IH; lia.
    - apply H. lia. }
  intros k Hk. apply (Hm (S (Z.to_nat k))); lia.
Qed.

Lemma queue_root_max (q : queue) (l : list Z) :
  queue_wf q -> queue_heap_ok q -> 0 < count q -> Permutation (heap q) l ->
  In (rd 0 (tid q) 0) l
  /\ forall x, In x l ->
       Float.ge (weight (rd 0 (tid q) 0)) (weight x) = true.
Proof.
  intros [(L & C & S & F) _] Hok Hc P. split.
  - eapply Permutation_in; [exact P|]. apply rd_in_take; lia.
  - intros x Hx. apply (Permutation_in _ (Permutation_sym P)) in Hx.
    destruct (In_nth _ _ 0 Hx) as (i & Hi & <-).
    pose proof (length_heap_of (tid q) (count q) ltac:(lia)) as Hlen.
    unfold heap in *.
    replace (nth i (heap_of (tid q) (count q)) 0)
      with (rd 0 (tid q) (Z.of_nat i)).
    + apply (heap_root_max _ _ Hok). lia.
    + rewrite <- (rd_heap_of (tid q) (count q)) by lia. unfold rd.
      destruct (Z.ltb_spec (Z.of_nat i) 0); [lia|]. now rewrite Nat2Z.id.
Qed.

(** With every lock free and no score above another, [queue_gettask]
    returns the task at the root of the heap. *)
Lemma queue_gettask_root (q : queue) (prev : option Z) (blocking : bool)
    (ls : LockState) (l : list Z) :
  (forall ls t, fst (task_lock ls t) = true) ->
  (forall t t', Float.gt (task_overlap prev t) (task_overlap prev t') = false) ->
  queue_wf q -> incoming_idle q -> lock q = false -> queue_heap_ok q ->
  0 < count q -> Permutation (heap q) l ->
  let root := rd 0 (tid q) 0 in
  let q' := queue_remove q 0 in
  exists ls',
    queue_gettask q prev blocking ls = Some (Some root, q', ls')
    /\ queue_wf q' /\ incoming_idle q' /\ lock q' = false
    /\ queue_heap_ok q' /\ count q' = count q - 1
    /\ In root l
    /\ (forall x, In x l -> Float.ge (weight root) (weight x) = true)
    /\ Permutation l (root :: heap q').
Proof.
  intros Hlocks Hties Hwf Hidle Hl Hok Hc P root q'.
  destruct (queue_root_max q l Hwf Hok Hc P) as [Hin Hmax].
  pose proof Hwf as [(L & C & S & F) Wi].
  assert (Hroot : 0 <= root).
  { rewrite Forall_forall in F. apply F. apply rd_in_take; lia. }
  destruct (select_root (tid q) (count q) prev ls Hc Hlocks Hties Hroot)
    as [Si St].
  destruct (queue_remove_spec q 0 (conj L (conj C (conj S F))) ltac:(lia))
    as (Hh & C' & S' & P' & Ti & Fi & La & Ci & Lk).
  eexists. split.
  - rewrite queue_gettask_unlocked by exact Hl.
    rewrite (idle_drained q Hwf Hidle). cbn zeta.
    destruct (Z.eqb_spec (count q) 0); [lia|].
    unfold select_task. rewrite Si, St. cbn [Z.geb Z.compare]. reflexivity.
  - fold q' in Hh, C', S', P', Ti, Fi, La, Ci, Lk.
    split; [split; [exact Hh|split; [rewrite Ti|rewrite Fi]; apply Wi]|].
    split; [split; [rewrite Fi, La|rewrite Ti]; apply Hidle|].
    split; [congruence|].
    split; [apply queue_remove_order; [apply Hwf|lia|exact Hok]|].
    split; [exact C'|]. split; [exact Hin|]. split; [exact Hmax|].
    now rewrite <- P.
Qed.

(** ** The scenario of four tasks *)

Lemma run_app (ops1 ops2 : list op) :
  forall r, run (ops1 ++ ops2) r
            = match run ops1 r with
              | Some r' => run ops2 r'
              | None => None
              end.
Proof.
  induction ops1 as [|o ops1 IH]; intros r; cbn [run app]; [reflexivity|].
  destruct (run_op o r); [apply IH|reflexivity].
Qed.

Lemma run_inserts_ring (ts : list Z) :
  forall r,
    queue_wf (r_queue r) -> ring_ok (r_queue r) -> lock (r_queue r) = false ->
    Forall (fun t => 0 <= t) ts ->
    last_incoming (r_queue r) + Z.of_nat (length ts) < UINT_MOD ->
    exists r',
      run (map OpInsert ts) r = Some r'
      /\ queue_wf (r_queue r') /\ ring_ok (r_queue r')
      /\ lock (r_queue r') = false
      /\ r_inserted r' = rev ts ++ r_inserted r
      /\ r_returned r' = r_returned r /\ r_locks r' = r_locks r.
Proof.
  induction ts as [|t ts IH]; intros r Hwf Hr Hl Hts Hm.
  - exists r. split; [reflexivity|]. do 3 (split; [assumption|]).
    now repeat split.
  - inversion Hts as [|? ? Ht Hts']; subst.
    change (length (t :: ts)) with (S (length ts)) in Hm.
    destruct (queue_insert_ring (r_queue r) t Hwf Hr Hl Ht ltac:(lia))
      as (q1 & E1 & R1 & La1).
    destruct (queue_insert_spec _ _ _ Hwf E1) as (W1 & L1 & _).
    destruct (IH (mkTrace q1 (r_locks r) (t :: r_inserted r) (r_returned r))
                 W1 R1 ltac:(cbn [r_queue]; congruence) Hts'
                 ltac:(cbn [r_queue]; lia))
      as (r' & E' & W' & R' & L' & I' & Rt' & Lk').
    exists r'. cbn [map run run_op]. rewrite E1, E'.
    split; [reflexivity|]. do 3 (split; [assumption|]).
    cbn [r_inserted r_returned r_locks] in I', Rt', Lk'.
    split; [|split; assumption].
    rewrite I'. cbn [rev]. now rewrite <- app_assoc.
Qed.

Lemma ring_empty_idle (q : queue) :
  queue_wf q -> ring_ok q -> first_incoming q = last_incoming q ->
  incoming_idle q.
Proof.
  intros [_ [Li _]] (_ & _ & _ & _ & Free) E. split; [exact E|].
  apply Forall_forall. intros x Hx.
  destruct (In_nth _ _ 0 Hx) as (i & Hi & <-).
  specialize (Free (Z.of_nat i) ltac:(lia)).
  unfold rd in Free. destruct (Z.ltb_spec (Z.of_nat i) 0); [lia|].
  rewrite Nat2Z.id in Free. apply Free. intros c Hc. lia.
Qed.

Lemma run_good (ops : list op) (ls : LockState) (r : trace) :
  Forall op_valid ops -> run ops (start ls) = Some r ->
  queue_wf (r_queue r) /\ queue_heap_ok (r_queue r) /\ conserved r.
Proof.
  intros Hv E.
  apply (run_invariant op_valid
           (fun r => queue_heap_ok (r_queue r) /\ conserved r)) in E; auto.
  - intros o r0 r1 Vo W0 [O0 C0] E1. split.
    + eapply run_op_order; eassumption.
    + eapply run_op_conserved; eassumption.
  - apply queue_init_wf.
  - split; [apply queue_init_heap_ok|].
    unfold conserved, start. cbn [r_inserted r_returned r_queue app].
    destruct queue_init_empty as [-> ->]. reflexivity.
Qed.

(** C2: tasks 0, 1, 2, 3 of weights 5, 1, 9, 3 are inserted in a new queue
    and the queue is drained; then, with every task lock free and no
    overlap score above another, four calls of [queue_gettask] return the
    tasks of weights 9, 5, 3, 1 in this order. *)
Theorem scenario_weights_5_1_9_3 (blocking : bool) (ls : LockState) :
  weight 0 = Float.of_Z 5 -> weight 1 = Float.of_Z 1 ->
  weight 2 = Float.of_Z 9 -> weight 3 = Float.of_Z 3 ->
  (forall l t, fst (task_lock l t) = true) ->
  (forall t t',
      Float.gt (task_overlap None t) (task_overlap None t') = false) ->
  exists r q' ls',
    run [OpInsert 0; OpInsert 1; OpInsert 2; OpInsert 3; OpDrain] (start ls)
    = Some r
    /\ gettask_repeat 4 (r_queue r) None blocking (r_locks r)
       = Some ([Some 2; Some 0; Some 3; Some 1], q', ls')
    /\ map weight [2; 0; 3; 1] = map Float.of_Z [9; 5; 3; 1].
Proof.
  intros W0 W1 W2 W3 Hlocks Hties.
  (* the four inserts and the drain *)
  destruct (run_inserts_ring [0; 1; 2; 3] (start ls) queue_init_wf
              queue_init_ring eq_refl)
    as (r4 & E4 & Wf4 & R4 & L4 & I4 & Rt4 & Lk4).
  { repeat constructor; lia. }
  { reflexivity. }
  set (ops := [OpInsert 0; OpInsert 1; OpInsert 2; OpInsert 3; OpDrain]).
  destruct (queue_get_incoming_ring _ Wf4 R4) as (Rr & Er & Pr).
  destruct (queue_get_incoming_spec _ Wf4) as (_ & _ & _ & _ & _ & Lr & _).
  set (q0 := queue_get_incoming (r_queue r4)) in *.
  assert (E : run ops (start ls)
              = Some (mkTrace q0 (r_locks r4) (r_inserted r4)
                              (r_returned r4))).
  { change ops with (map OpInsert [0; 1; 2; 3] ++ [OpDrain]).
    rewrite run_app, E4. cbn [run run_op]. now rewrite L4. }
  clearbody q0.
  destruct (run_good ops ls _ ltac:(repeat constructor; cbn; lia) E)
    as (Wf & Hok & Hc).
  cbn [r_queue] in Wf, Hok.
  assert (Hidle : incoming_idle q0) by (apply ring_empty_idle; assumption).
  assert (Hl : lock q0 = false) by congruence.
  assert (P : Permutation (heap q0) [3; 2; 1; 0]).
  { unfold conserved in Hc. cbn [r_inserted r_returned r_queue] in Hc.
    rewrite I4, Rt4 in Hc. cbn [start r_inserted r_returned rev app] in Hc.
    rewrite Pr, app_nil_r in Hc. now symmetry. }
  exists (mkTrace q0 (r_locks r4) (r_inserted r4) (r_returned r4)).
  cbn [r_queue r_locks].
  assert (count_of : forall (q : queue) l,
             queue_wf q -> Permutation (heap q) l ->
             count q = Z.of_nat (length l)).
  { intros q l [(? & ? & ? & _) _] Pq. apply Permutation_length in Pq.
    pose proof (length_heap_of (tid q) (count q)). unfold heap in Pq. lia. }
  (* first call: the task of weight 9 *)
  destruct (queue_gettask_root q0 None blocking (r_locks r4) [3; 2; 1; 0]
              Hlocks Hties Wf Hidle Hl Hok)
    as (ls1 & G1 & Wf1 & Id1 & L1 & Ok1 & _ & In1 & Mx1 & P1);
    [rewrite (count_of q0 _ Wf P); cbn; lia|exact P|].
  set (root1 := rd 0 (tid q0) 0) in *. clearbody root1.
  assert (T1 : root1 = 2).
  { pose proof (Mx1 2 ltac:(cbn; auto)) as M.
    destruct In1 as [<-|[<-|[<-|[<-|[]]]]]; try reflexivity;
      rewrite ?W0, ?W1, ?W2, ?W3 in M; vm_compute in M; discriminate. }
  subst root1.
  set (q1 := queue_remove q0 0) in *. clearbody q1.
  assert (Pq1 : Permutation (heap q1) [3; 1; 0]).
  { apply (Permutation_cons_inv (a := 2)). rewrite <- P1. apply perm_swap. }
  (* second call: the task of weight 5 *)
  destruct (queue_gettask_root q1 None blocking ls1 [3; 1; 0]
              Hlocks Hties Wf1 Id1 L1 Ok1)
    as (ls2 & G2 & Wf2 & Id2 & L2 & Ok2 & _ & In2 & Mx2 & P2);
    [rewrite (count_of q1 _ Wf1 Pq1); cbn; lia|exact Pq1|].
  set (root2 := rd 0 (tid q1) 0) in *. clearbody root2.
  assert (T2 : root2 = 0).
  { pose proof (Mx2 0 ltac:(cbn; auto)) as M.
    destruct In2 as [<-|[<-|[<-|[]]]]; try reflexivity;
      rewrite ?W0, ?W1, ?W2, ?W3 in M; vm_compute in M; discriminate. }
  subst root2.
  set (q2 := queue_remove q1 0) in *. clearbody q2.
  assert (Pq2 : Permutation (heap q2) [3; 1]).
  { apply (Permutation_cons_inv (a := 0)). rewrite <- P2.
    change [3; 1; 0] with ([3; 1] ++ [0]). symmetry.
    apply Permutation_cons_append. }
  (* third call: the task of weight 3 *)
  destruct (queue_gettask_root q2 None blocking ls2 [3; 1]
              Hlocks Hties Wf2 Id2 L2 Ok2)
    as (ls3 & G3 & Wf3 & Id3 & L3 & Ok3 & _ & In3 & Mx3 & P3);
    [rewrite (count_of q2 _ Wf2 Pq2); cbn; lia|exact Pq2|].
  set (root3 := rd 0 (tid q2) 0) in *. clearbody root3.
  assert (T3 : root3 = 3).
  { pose proof (Mx3 3 ltac:(cbn; auto)) as M.
    destruct In3 as [<-|[<-|[]]]; try reflexivity;
      rewrite ?W0, ?W1, ?W2, ?W3 in M; vm_compute in M; discriminate. }
  subst root3.
  set (q3 := queue_remove q2 0) in *. clearbody q3.
  assert (Pq3 : Permutation (heap q3) [1]).
  { apply (Permutation_cons_inv (a := 3)). now rewrite <- P3. }
  (* fourth call: the task of weight 1 *)
  destruct (queue_gettask_root q3 None blocking ls3 [1]
              Hlocks Hties Wf3 Id3 L3 Ok3)
    as (ls4 & G4 & _ & _ & _ & _ & _ & In4 & _ & _);
    [rewrite (count_of q3 _ Wf3 Pq3); cbn; lia|exact Pq3|].
  set (root4 := rd 0 (tid q3) 0) in *. clearbody root4.
  assert (T4 : root4 = 1) by (destruct In4 as [<-|[]]; reflexivity).
  subst root4.
  exists (queue_remove q3 0), ls4.
  split; [exact E|]. split.
  - cbn [gettask_repeat]. rewrite G1, G2, G3, G4. reflexivity.
  - cbn [map]. now rewrite W0, W1, W2, W3.
Qed.

(** ** Further properties of the two sift functions *)

Lemma bubble_up_loop_stop (w : float) :
  forall fuel a i a' i',
    (Z.to_nat i <= fuel)%nat ->
    bubble_up_loop fuel w a i = (a', i') ->
    i' <= 0 \/ Float.lt w (w_of a' ((i' - 1) ÷ 2)) = true.
Proof.
  induction fuel as [|fuel IH]; intros a i a' i' Hf E;
    cbn [bubble_up_loop] in E.
  - inversion E; subst. left. lia.
  - destruct (Z.gtb_spec i 0) as [Hpos|Hz].
    2:{ inversion E; subst. left. lia. }
    destruct (Float.lt w (w_of a ((i - 1) ÷ 2))) eqn:Elt.
    { inversion E; subst. now right. }
    pose proof (parent_range i Hpos) as Hp.
    apply IH in E; [exact E|lia].
Qed.

Lemma children_cases (i k : Z) :
  0 <= i -> 1 <= k -> (k - 1) ÷ 2 = i -> k = 2 * i + 1 \/ k = 2 * i + 2.
Proof. intros Hi Hk E. pose proof (quot2_spec k Hk). lia. Qed.

Lemma sift_down_loop_stop (w : float) (n : Z) :
  forall fuel a i a' i',
    0 <= i < n -> n <= Z.of_nat (length a) ->
    (Z.to_nat (n - i) <= fuel)%nat -> w = w_of a i ->
    sift_down_loop fuel w n a i = (a', i') ->
    children_ok a' n i'.
Proof.
  induction fuel as [|fuel IH]; intros a i a' i' Hi Hn Hf Hw E;
    cbn [sift_down_loop] in E; [lia|].
  destruct (Z.geb_spec (2 * i + 1) n) as [Hleaf|Hch].
  { inversion E; subst. intros k Hk Ek.
    destruct (children_cases i' k) as [?|?]; lia. }
  destruct (sift_child_range n a i ltac:(lia) Hch) as [Hc Hr].
  destruct (Float.gt (w_of a (sift_child n a i)) w) eqn:Egt.
  - fold (swap_cells a (sift_child n a i) i) in E.
    apply IH in E; [exact E|lia|rewrite length_swap; lia|lia|].
    rewrite w_of_swap by lia. rewrite Z.eqb_refl.
    destruct (Z.eqb_spec (sift_child n a i) i); [lia|]. exact Hw.
  - inversion E; subst a' i'. clear E IH.
    intros k Hk Ek. unfold hge. rewrite <- Hw.
    unfold sift_child in Egt. cbn zeta in Egt.
    destruct (children_cases i k ltac:(lia) ltac:(lia) Ek) as [->| ->].
    + destruct (Z.ltb_spec (2 * i + 1 + 1) n) as [H2|H2]; cbn [andb] in Egt.
      * destruct (Float.gt (w_of a (2 * i + 1 + 1)) (w_of a (2 * i + 1)))
          eqn:Er.
        -- rewrite Hw in Egt |- *. apply not_gt_ge in Egt.
           apply FloatFacts.gt_ge in Er.
           apply (hge_trans a a a i (2 * i + 1 + 1) (2 * i + 1)); assumption.
        -- rewrite Hw in Egt |- *. now apply not_gt_ge.
      * rewrite Hw in Egt |- *. now apply not_gt_ge.
    + replace (2 * i + 2) with (2 * i + 1 + 1) in * by lia.
      destruct (Z.ltb_spec (2 * i + 1 + 1) n) as [H2|H2]; [|lia].
      cbn [andb] in Egt.
      destruct (Float.gt (w_of a (2 * i + 1 + 1)) (w_of a (2 * i + 1)))
        eqn:Er.
      * rewrite Hw in Egt |- *. now apply not_gt_ge.
      * rewrite Hw in Egt |- *. apply not_gt_ge in Egt, Er.
        apply (hge_trans a a a i (2 * i + 1) (2 * i + 1 + 1)); assumption.
Qed.

(** X1: [queue_bubble_up] repairs a heap whose only pair out of order may
    be the entry [ind] and its parent: when every other parent and child are
    in order, the children of [ind] are below the parent of [ind], and
    [ind] is not below its own children, the whole heap is in order after
    the call. *)
Theorem queue_bubble_up_restores_heap (q : queue) (ind : Z) :
  0 <= ind < count q -> count q <= Z.of_nat (length (tid q)) ->
  heap_but (tid q) (count q) ind -> children_ok (tid q) (count q) ind ->
  heap_ok (tid (fst (queue_bubble_up q ind))) (count q).
Proof.
  intros Hi Hn Hb Hc. rewrite queue_bubble_up_eq. qsimpl.
  destruct (bubble_up_loop (Z.to_nat ind) (w_of (tid q) ind) (tid q) ind)
    as [a' i'] eqn:E. qsimpl.
  destruct (bubble_up_loop_order _ (count q) _ _ _ _ _ Hi Hn (le_n _)
              eq_refl Hb E) as (Hb' & Hp' & Hc').
  apply (heap_ok_split a' (count q) i' Hb' Hp'). apply Hc'. now left.
Qed.

(** X2: [queue_sift_down] repairs a heap whose only pairs out of order may
    be the entry [ind] and its children: when every other parent and child
    are in order, the children of [ind] are below the parent of [ind], and
    [ind] is not above its own parent, the whole heap is in order after the
    call. *)
Theorem queue_sift_down_restores_heap (q : queue) (ind : Z) :
  0 <= ind < count q -> count q <= Z.of_nat (length (tid q)) ->
  heap_but (tid q) (count q) ind -> parent_ok (tid q) ind ->
  heap_ok (tid (fst (queue_sift_down q ind))) (count q).
Proof.
  intros Hi Hn Hb Hp. rewrite queue_sift_down_eq. qsimpl.
  destruct (sift_down_loop (Z.to_nat (count q - ind)) (w_of (tid q) ind)
              (count q) (tid q) ind) as [a' i'] eqn:E. qsimpl.
  exact (sift_down_loop_order _ (count q) _ _ _ _ _ Hi Hn (le_n _)
           eq_refl Hb Hp E).
Qed.

(** X3: [queue_bubble_up] never moves the entry down, returns the index
    where the entry now is, and leaves it either at the root or under a
    parent whose weight is strictly larger: an entry as heavy as its parent
    has passed above it. *)
Theorem queue_bubble_up_final_position (q : queue) (ind : Z) :
  0 <= ind < count q -> count q <= Z.of_nat (length (tid q)) ->
  let up := queue_bubble_up q ind in
  0 <= snd up <= ind
  /\ rd 0 (tid (fst up)) (snd up) = rd 0 (tid q) ind
  /\ (snd up = 0
      \/ Float.lt (weight (rd 0 (tid q) ind))
                  (weight (rd 0 (tid (fst up)) ((snd up - 1) ÷ 2))) = true).
Proof.
  intros Hi Hn up.
  destruct (queue_bubble_up_shape q (fst up) ind (snd up) Hi Hn)
    as (_ & _ & Hr & _ & _ & Hv); [apply surjective_pairing|].
  split; [exact Hr|]. split; [exact Hv|].
  subst up. rewrite queue_bubble_up_eq in *. qsimpl.
  destruct (bubble_up_loop (Z.to_nat ind) (w_of (tid q) ind) (tid q) ind)
    as [a' i'] eqn:E. qsimpl.
  destruct (bubble_up_loop_stop _ _ _ _ _ _ (le_n _) E) as [H0|Hlt].
  - left. lia.
  - right. exact Hlt.
Qed.

(** X4: [queue_sift_down] never moves the entry up, returns the index where
    the entry now is, and leaves it with no child of larger weight. *)
Theorem queue_sift_down_final_position (q : queue) (ind : Z) :
  0 <= ind < count q -> count q <= Z.of_nat (length (tid q)) ->
  let down := queue_sift_down q ind in
  ind <= snd down < count q
  /\ rd 0 (tid (fst down)) (snd down) = rd 0 (tid q) ind
  /\ forall k, 1 <= k < count q -> (k - 1) ÷ 2 = snd down ->
       Float.ge (weight (rd 0 (tid q) ind))
                (weight (rd 0 (tid (fst down)) k)) = true.
Proof.
  intros Hi Hn down.
  destruct (queue_sift_down_shape q (fst down) ind (snd down) Hi Hn)
    as (_ & _ & Hr & _ & _ & Hv); [apply surjective_pairing|].
  split; [exact Hr|]. split; [exact Hv|].
  rewrite <- Hv. subst down. rewrite queue_sift_down_eq in *. qsimpl.
  destruct (sift_down_loop (Z.to_nat (count q - ind)) (w_of (tid q) ind)
              (count q) (tid q) ind) as [a' i'] eqn:E. qsimpl.
  exact (sift_down_loop_stop _ (count q) _ _ _ _ _ Hi Hn (le_n _) eq_refl E).
Qed.

(** ** Further properties of [queue_get_incoming] *)

Lemma get_incoming_body_room (q : queue) (ind : Z) :
  count q <> size q ->
  size (get_incoming_body q ind) = size q.
Proof.
  intros H. unfold get_incoming_body. cbn zeta.
  rewrite queue_bubble_up_eq. qsimpl.
  destruct (Z.eqb_spec (count q) (size q)); [contradiction|]. reflexivity.
Qed.

Lemma get_incoming_loop_room (fuel : nat) :
  forall q, queue_wf q -> count q + pending q <= size q ->
    size (get_incoming_loop fuel q) = size q.
Proof.
  induction fuel as [|fuel IH]; intros q Hwf Hroom; cbn [get_incoming_loop];
    [reflexivity|].
  set (ind := Z.rem (first_incoming q) queue_incoming_size).
  destruct (Z.ltb_spec (rd 0 (tid_incoming q) ind) 0) as [Hv|Hv];
    [reflexivity|].
  destruct (get_incoming_body_pending q Hwf Hv) as (Hwf' & Pp & _).
  destruct (get_incoming_body_spec q ind (proj1 Hwf) Hv) as (_ & C & _).
  fold ind in Hwf', Pp.
  assert (Hpos : 0 < pending q).
  { apply (pending_nonneg_slot q ind); [|exact Hv].
    destruct Hwf as [_ [Li Fi]]. rewrite Li. now apply rem_range. }
  assert (Hp : pending q = pending (get_incoming_body q ind) + 1).
  { unfold pending. apply Permutation_length in Pp. rewrite Pp.
    cbn [length]. lia. }
  rewrite IH; [apply get_incoming_body_room; lia|exact Hwf'|].
  rewrite get_incoming_body_room by lia. lia.
Qed.

(** X5: [queue_get_incoming] stops at a free slot, so that a second call
    right after the first finds nothing to move and leaves the queue as it
    is. *)
Theorem queue_get_incoming_idempotent (q : queue) :
  queue_wf q ->
  let d := queue_get_incoming q in
  rd 0 (tid_incoming d) (Z.rem (first_incoming d) queue_incoming_size) < 0
  /\ queue_get_incoming d = d.
Proof.
  intros Hwf d.
  destruct (queue_get_incoming_spec q Hwf) as (_ & _ & _ & _ & _ & _ & Hs).
  fold d in Hs. split; [exact Hs|]. now apply queue_get_incoming_idem.
Qed.

(** X6: on an incoming buffer whose occupied slots are those of the counters
    from [first_incoming] up to [last_incoming], [queue_get_incoming] moves
    every waiting task into the heap: afterwards no slot is occupied, the
    two counters agree, the heap holds its former tasks and the tasks that
    waited, and [count] has grown by their number. *)
Theorem queue_get_incoming_empties_ring (q : queue) :
  queue_wf q -> ring_ok q ->
  let d := queue_get_incoming q in
  Forall (fun x => x = -1) (tid_incoming d)
  /\ first_incoming d = last_incoming d
  /\ Permutation (heap d) (heap q ++ pending_list q)
  /\ count d = count q + pending q.
Proof.
  intros Hwf Hring d.
  destruct (queue_get_incoming_spec q Hwf) as (W & P & _).
  destruct (queue_get_incoming_ring q Hwf Hring) as (R & Fl & Pe).
  fold d in W, P, R, Fl, Pe. rewrite Pe, app_nil_r in P.
  split; [apply (ring_empty_idle d W R Fl)|].
  split; [exact Fl|]. split; [exact P|].
  apply Permutation_length in P. rewrite length_app in P.
  pose proof W as [(L & C & _) _]. pose proof Hwf as [(L0 & C0 & _) _].
  pose proof (length_heap_of (tid d) (count d) ltac:(lia)) as H1.
  pose proof (length_heap_of (tid q) (count q) ltac:(lia)) as H2.
  unfold heap in P. unfold pending. lia.
Qed.

(** X7: [queue_get_incoming] reallocates the heap array only when it is
    full: when the waiting tasks fit in the cells that are free, the array
    and its size are those of before. *)
Theorem queue_get_incoming_keeps_size (q : queue) :
  queue_wf q -> count q + pending q <= size q ->
  let d := queue_get_incoming q in
  size d = size q /\ length (tid d) = length (tid q).
Proof.
  intros Hwf Hroom d.
  assert (Hs : size d = size q) by (now apply get_incoming_loop_room).
  split; [exact Hs|].
  destruct (queue_get_incoming_spec q Hwf) as ([(L & _) _] & _).
  fold d in L. destruct Hwf as [(L0 & _) _]. lia.
Qed.

(** ** Further properties of [queue_insert] *)


(** X9: with the queue lock free, [queue_insert] returns, also when every
    slot of the incoming buffer is occupied (it then drains the buffer
    itself): the task is added to the tasks that the heap and the buffer
    hold, none is lost, and [last_incoming] has advanced by one. *)
Theorem queue_insert_completes_when_unlocked (q : queue) (t : Z) :
  queue_wf q -> ring_ok q -> lock q = false -> 0 <= t ->
  last_incoming q + 1 < UINT_MOD ->
  exists q',
    queue_insert q t = Some q'
    /\ queue_wf q' /\ ring_ok q' /\ lock q' = false
    /\ last_incoming q' = last_incoming q + 1
    /\ Permutation (heap q' ++ pending_list q')
                   (t :: heap q ++ pending_list q).
Proof.
  intros Hwf Hring Hl Ht Hw.
  destruct (queue_insert_ring q t Hwf Hring Hl Ht Hw) as (q' & E & R & La).
  destruct (queue_insert_spec q t q' Hwf E) as (W & Lk & _ & P).
  exists q'. split; [exact E|]. split; [exact W|]. split; [exact R|].
  split; [congruence|]. split; [exact La|]. exact (P Ht).
Qed.

(** X10: a [queue_insert] that returns while the queue lock is held has
    touched the incoming buffer only: the heap array, [count], [size] and
    [first_incoming] are those of before, and the one slot written is the
    slot of [last_incoming], which was free. *)
Theorem queue_insert_locked_leaves_heap (q : queue) (t : Z) (q' : queue) :
  lock q = true -> queue_insert q t = Some q' ->
  let ind := Z.rem (last_incoming q) queue_incoming_size in
  rd 0 (tid_incoming q) ind = -1
  /\ tid q' = tid q /\ count q' = count q /\ size q' = size q
  /\ lock q' = true /\ first_incoming q' = first_incoming q
  /\ tid_incoming q' = wr (tid_incoming q) ind t
  /\ last_incoming q' = uint_inc (last_incoming q)
  /\ count_incoming q' = uint_inc (count_incoming q).
Proof.
  intros Hl E ind.
  destruct (queue_insert_cases q t q' E) as [[Hf ->]|(_ & Hl' & _)];
    [|congruence].
  fold ind. unfold fill_slot. qsimpl. now repeat split.
Qed.

(** ** Further properties of sequences of calls *)

Lemma run_op_size (o : op) (r r' : trace) :
  queue_wf (r_queue r) -> run_op o r = Some r' ->
  size (r_queue r) <= size (r_queue r').
Proof.
  intros Hwf E. destruct o as [t| |prev blocking|held]; cbn [run_op] in E.
  - destruct (queue_insert (r_queue r) t) as [q|] eqn:Ei; [|discriminate].
    inversion E; subst r'. cbn. eapply queue_insert_spec; eassumption.
  - destruct (lock (r_queue r)); [discriminate|]. inversion E; subst r'. cbn.
    now apply queue_get_incoming_spec.
  - assert (H : forall res q ls,
               queue_gettask (r_queue r) prev blocking (r_locks r)
               = Some (res, q, ls) -> size (r_queue r) <= size q).
    { intros res q ls Eg. destruct (lock (r_queue r)) eqn:Hl.
      - rewrite queue_gettask_locked in Eg by exact Hl.
        destruct blocking; [discriminate|]. inversion Eg; subst. lia.
      - destruct (queue_gettask_spec (r_queue r) prev blocking (r_locks r)
                    Hwf Hl) as (r1 & q1 & l1 & E1 & _ & _ & _ & _ & _ & S & _).
        rewrite Eg in E1. inversion E1; subst. rewrite S.
        now apply queue_get_incoming_spec. }
    destruct (queue_gettask _ _ _ _) as [[[[t|] q] ls]|] eqn:Eg;
      [| |discriminate]; inversion E; subst r'; cbn; eapply H; reflexivity.
  - inversion E; subst r'. cbn. lia.
Qed.

(** X11: for any sequence of [queue_insert], [queue_get_incoming] and
    [queue_gettask] calls on a new queue, the tasks inserted are exactly,
    each as many times as it was inserted, the tasks returned, the tasks in
    the heap and the tasks waiting in the incoming buffer: no task is lost
    and none is handed out twice. *)
Theorem tasks_conserved (ops : list op) (ls : LockState) (r : trace) :
  Forall op_valid ops -> run ops (start ls) = Some r ->
  Permutation (r_inserted r)
    (r_returned r ++ heap (r_queue r) ++ pending_list (r_queue r)).
Proof.
  intros Hv E. apply (run_invariant op_valid conserved) in E; auto.
  - apply E.
  - intros o r0 r1 Vo W0 C0 E1. eapply run_op_conserved; eassumption.
  - apply queue_init_wf.
  - unfold conserved, start. cbn [r_inserted r_returned r_queue app].
    destruct queue_init_empty as [-> ->]. reflexivity.
Qed.

Lemma get_incoming_body_size (q : queue) (ind : Z) :
  size (get_incoming_body q ind)
  = if count q =? size q then size q * queue_sizegrow else size q.
Proof.
  unfold get_incoming_body. cbn zeta. rewrite queue_bubble_up_eq. qsimpl.
  destruct (count q =? size q); reflexivity.
Qed.

Lemma get_incoming_loop_size (fuel : nat) :
  forall q, exists j : nat,
    size (get_incoming_loop fuel q) = size q * queue_sizegrow ^ Z.of_nat j.
Proof.
  induction fuel as [|fuel IH]; intros q; cbn [get_incoming_loop].
  - exists O. cbn. lia.
  - destruct (rd 0 (tid_incoming q) _ <? 0); [exists O; cbn; lia|].
    destruct (IH (get_incoming_body q
                    (Z.rem (first_incoming q) queue_incoming_size)))
      as [j Hj].
    rewrite Hj, get_incoming_body_size.
    destruct (count q =? size q); [|now exists j].
    exists (S j). rewrite Nat2Z.inj_succ, Z.pow_succ_r by lia. lia.
Qed.

Lemma run_op_size_factor (o : op) (r r' : trace) :
  queue_wf (r_queue r) -> run_op o r = Some r' ->
  exists j : nat,
    size (r_queue r') = size (r_queue r) * queue_sizegrow ^ Z.of_nat j.
Proof.
  intros Hwf E. destruct o as [t| |prev blocking|held]; cbn [run_op] in E.
  - destruct (queue_insert (r_queue r) t) as [q|] eqn:Ei; [|discriminate].
    inversion E; subst r'. cbn [r_queue].
    destruct (queue_insert_cases _ _ _ Ei) as [[_ ->]|(_ & _ & _ & ->)];
      unfold fill_slot; qsimpl.
    + exists O. cbn. lia.
    + apply (get_incoming_loop_size _
               (set_last_incoming (r_queue r)
                  (uint_inc (last_incoming (r_queue r))))).
  - destruct (lock (r_queue r)); [discriminate|]. inversion E; subst r'.
    cbn [r_queue]. apply get_incoming_loop_size.
  - assert (H : forall res q ls,
               queue_gettask (r_queue r) prev blocking (r_locks r)
               = Some (res, q, ls) ->
               exists j : nat,
                 size q = size (r_queue r) * queue_sizegrow ^ Z.of_nat j).
    { intros res q ls Eg. destruct (lock (r_queue r)) eqn:Hl.
      - rewrite queue_gettask_locked in Eg by exact Hl.
        destruct blocking; [discriminate|]. inversion Eg; subst.
        exists O. cbn. lia.
      - destruct (queue_gettask_spec (r_queue r) prev blocking (r_locks r)
                    Hwf Hl) as (r1 & q1 & l1 & E1 & _ & _ & _ & _ & _ & S & _).
        rewrite Eg in E1. inversion E1; subst. rewrite S.
        apply get_incoming_loop_size. }
    destruct (queue_gettask _ _ _ _) as [[[[t|] q] ls]|] eqn:Eg;
      [| |discriminate]; inversion E; subst r'; cbn [r_queue];
      eapply H; reflexivity.
  - inversion E; subst r'. exists O. cbn. lia.
Qed.

(** X12: in every state reached from a new queue, the heap array has
    [size] cells, [count] lies between 0 and [size], and [size] is
    [queue_sizeinit] multiplied by a power of [queue_sizegrow], hence at
    least [queue_sizeinit]; the incoming buffer keeps its
    [queue_incoming_size] slots. *)
Theorem reachable_queue_bounds (ops : list op) (ls : LockState) (r : trace) :
  run ops (start ls) = Some r ->
  let q := r_queue r in
  Z.of_nat (length (tid q)) = size q
  /\ 0 <= count q <= size q
  /\ queue_sizeinit <= size q
  /\ (exists j : nat, size q = queue_sizeinit * queue_sizegrow ^ Z.of_nat j)
  /\ Z.of_nat (length (tid_incoming q)) = queue_incoming_size.
Proof.
  intros E q.
  apply (run_invariant (fun _ => True)
           (fun r => queue_sizeinit <= size (r_queue r)
                     /\ exists j : nat,
                          size (r_queue r)
                          = queue_sizeinit * queue_sizegrow ^ Z.of_nat j))
    in E.
  - destruct E as [[(L & C & _) [Li _]] [S G]]. now repeat split.
  - intros o r0 r1 _ W0 [S0 [j0 G0]] E1. split.
    + pose proof (run_op_size o r0 r1 W0 E1). lia.
    + destruct (run_op_size_factor o r0 r1 W0 E1) as [j Hj].
      exists (j0 + j)%nat.
      rewrite Hj, G0, Nat2Z.inj_add, Z.pow_add_r by lia. lia.
  - apply Forall_any_op.
  - apply queue_init_wf.
  - split; [cbn; lia|]. exists O. cbn. lia.
Qed.

(** X13: [queue_insert], [queue_get_incoming] and [queue_gettask] return
    with the queue lock as they found it: what a call takes, it releases. *)
Theorem queue_lock_restored (o : op) (r r' : trace) :
  queue_wf (r_queue r) -> (forall held, o <> OpLock held) ->
  run_op o r = Some r' -> lock (r_queue r') = lock (r_queue r).
Proof.
  intros Hwf Hno E. destruct o as [t| |prev blocking|held]; cbn [run_op] in E.
  - destruct (queue_insert (r_queue r) t) as [q|] eqn:Ei; [|discriminate].
    inversion E; subst r'. cbn. eapply queue_insert_spec; eassumption.
  - destruct (lock (r_queue r)) eqn:Hl; [discriminate|].
    inversion E; subst r'. cbn. rewrite <- Hl.
    now apply queue_get_incoming_spec.
  - assert (H : forall res q ls,
               queue_gettask (r_queue r) prev blocking (r_locks r)
               = Some (res, q, ls) -> lock q = lock (r_queue r)).
    { intros res q ls Eg. destruct (lock (r_queue r)) eqn:Hl.
      - rewrite queue_gettask_locked in Eg by exact Hl.
        destruct blocking; [discriminate|]. now inversion Eg; subst.
      - destruct (queue_gettask_spec (r_queue r) prev blocking (r_locks r)
                    Hwf Hl) as (r1 & q1 & l1 & E1 & _ & L & _).
        rewrite Eg in E1. now inversion E1; subst. }
    destruct (queue_gettask _ _ _ _) as [[[[t|] q] ls]|] eqn:Eg;
      [| |discriminate]; inversion E; subst r'; cbn; eapply H; reflexivity.
  - now destruct (Hno held).
Qed.

(** ** Further properties of [queue_gettask] *)

(** X14: a [queue_gettask] that acquired the queue lock leaves the queue as
    [queue_get_incoming] made it but for the task returned: that task is
    taken out of the heap once, [count] drops by one and every other task
    stays; when no task is returned the heap is untouched.  The size of the
    array and the incoming buffer are those after the drain. *)
Theorem queue_gettask_removes_returned_task (q : queue) (prev : option Z)
    (blocking : bool) (ls : LockState) (res : option Z) (q' : queue)
    (ls' : LockState) :
  queue_wf q -> lock q = false ->
  queue_gettask q prev blocking ls = Some (res, q', ls') ->
  let d := queue_get_incoming q in
  size q' = size d /\ tid_incoming q' = tid_incoming d
  /\ first_incoming q' = first_incoming d
  /\ last_incoming q' = last_incoming d
  /\ match res with
     | Some t => Permutation (heap d) (t :: heap q')
                 /\ count q' = count d - 1
     | None => q' = d
     end.
Proof.
  intros Hwf Hl E d.
  destruct (queue_gettask_spec q prev blocking ls Hwf Hl)
    as (r1 & q1 & l1 & E1 & _ & _ & Ti & Fi & La & S & R).
  rewrite E in E1. inversion E1; subst r1 q1 l1. fold d in Ti, Fi, La, S, R.
  repeat (split; [assumption|]).
  destruct res as [t|].
  - destruct R as (_ & P & C & _). now split.
  - now destruct R.
Qed.

(** X15: on a queue with an empty heap and nothing waiting at
    [first_incoming], [queue_gettask] returns no task, tries no task lock
    and leaves the queue as it was. *)
Theorem queue_gettask_on_empty_queue (q : queue) (prev : option Z)
    (blocking : bool) (ls : LockState) :
  lock q = false -> count q = 0 ->
  rd 0 (tid_incoming q) (Z.rem (first_incoming q) queue_incoming_size) < 0 ->
  queue_gettask q prev blocking ls = Some (None, q, ls).
Proof.
  intros Hl Hc Hs. rewrite queue_gettask_unlocked by exact Hl.
  rewrite (queue_get_incoming_idem q Hs). cbn zeta. now rewrite Hc.
Qed.

(** X16: when every task lock can be taken and no overlap score is above
    another, [queue_gettask] returns the task at the root of the heap as
    [queue_get_incoming] left it, and no task of that heap has a larger
    weight. *)
Theorem queue_gettask_returns_heaviest (q : queue) (prev : option Z)
    (blocking : bool) (ls : LockState) :
  (forall ls t, fst (task_lock ls t) = true) ->
  (forall t t',
     Float.gt (task_overlap prev t) (task_overlap prev t') = false) ->
  queue_wf q -> queue_heap_ok q -> lock q = false ->
  let d := queue_get_incoming q in
  0 < count d ->
  exists ls',
    queue_gettask q prev blocking ls
    = Some (Some (rd 0 (tid d) 0), queue_remove d 0, ls')
    /\ In (rd 0 (tid d) 0) (heap d)
    /\ forall x, In x (heap d) ->
         Float.ge (weight (rd 0 (tid d) 0)) (weight x) = true.
Proof.
  intros Hlocks Hties Hwf Hok Hl d Hc.
  destruct (queue_get_incoming_spec q Hwf) as (W & _). fold d in W.
  assert (Hokd : queue_heap_ok d) by (now apply get_incoming_loop_order).
  destruct (queue_root_max d (heap d) W Hokd Hc (Permutation_refl _))
    as [Hin Hmax].
  pose proof W as [(L & C & S & F) _].
  assert (Hroot : 0 <= rd 0 (tid d) 0).
  { rewrite Forall_forall in F. apply F. apply rd_in_take; lia. }
  destruct (select_root (tid d) (count d) prev ls Hc Hlocks Hties Hroot)
    as [Si St].
  eexists. split; [|split; [exact Hin|exact Hmax]].
  rewrite queue_gettask_unlocked by exact Hl. fold d. cbn zeta.
  destruct (Z.eqb_spec (count d) 0); [lia|].
  unfold select_task. rewrite Si, St. cbn [Z.geb Z.compare]. reflexivity.
Qed.

Lemma gettask_repeat_sorted (prev : option Z) (blocking : bool) :
  (forall ls t, fst (task_lock ls t) = true) ->
  (forall t t',
     Float.gt (task_overlap prev t) (task_overlap prev t') = false) ->
  forall (n : nat) q ls,
    queue_wf q -> incoming_idle q -> lock q = false -> queue_heap_ok q ->
    count q = Z.of_nat n ->
    exists out q' ls',
      gettask_repeat n q prev blocking ls = Some (map Some out, q', ls')
      /\ Permutation out (heap q)
      /\ StronglySorted
           (fun x y => Float.ge (weight x) (weight y) = true) out
      /\ count q' = 0.
Proof.
  intros Hlocks Hties. induction n as [|n IH]; intros q ls Hwf Hidle Hl Hok Hc.
  - exists [], q, ls. cbn. repeat split; auto; [|constructor].
    unfold heap, heap_of. now rewrite Hc.
  - destruct (queue_gettask_root q prev blocking ls (heap q) Hlocks Hties
                Hwf Hidle Hl Hok ltac:(lia) (Permutation_refl _))
      as (ls1 & E & W1 & I1 & L1 & O1 & C1 & _ & Hmax & P1).
    destruct (IH (queue_remove q 0) ls1 W1 I1 L1 O1 ltac:(lia))
      as (out & q' & ls' & E' & P' & S' & C').
    exists (rd 0 (tid q) 0 :: out), q', ls'.
    cbn [gettask_repeat map]. rewrite E, E'.
    split; [reflexivity|]. split; [rewrite P1; now apply perm_skip|].
    split; [|exact C'].
    constructor; [exact S'|]. rewrite Forall_forall. intros x Hx.
    apply Hmax. rewrite P1. right. eapply Permutation_in; eassumption.
Qed.

(** X17: the queue sorts by weight.  Tasks inserted into a new queue, each
    insert followed by [queue_get_incoming], then taken out by as many
    [queue_gettask] calls, with every task lock free and no overlap score
    above another, come out as a rearrangement of the tasks inserted in
    which no task is followed by a task of larger weight; the queue is
    empty afterwards. *)
Theorem queue_sorts_by_weight (ts : list Z) (prev : option Z)
    (blocking : bool) (ls : LockState) :
  (forall ls t, fst (task_lock ls t) = true) ->
  (forall t t',
     Float.gt (task_overlap prev t) (task_overlap prev t') = false) ->
  Forall (fun t => 0 <= t) ts ->
  exists q out q' ls',
    insert_drain_all ts queue_init = Some q
    /\ gettask_repeat (length ts) q prev blocking ls
       = Some (map Some out, q', ls')
    /\ Permutation out ts
    /\ StronglySorted (fun x y => Float.ge (weight x) (weight y) = true) out
    /\ count q' = 0.
Proof.
  intros Hlocks Hties Hts.
  destruct (insert_drain_all_spec ts queue_init queue_init_wf queue_init_idle
              Hts) as (q & E & W & I & L & C & _ & P & O).
  destruct (gettask_repeat_sorted prev blocking Hlocks Hties (length ts) q ls
              W I L (O queue_init_heap_ok))
    as (out & q' & ls' & E' & P' & S' & C').
  { rewrite C. cbn. lia. }
  exists q, out, q', ls'. repeat split; auto.
  rewrite P', P. destruct queue_init_empty as [-> _]. now rewrite app_nil_r.
Qed.

(** X18: a task inserted into an empty queue whose task lock can be taken
    is the task that the next [queue_gettask] returns, whatever the previous
    task and the window, and the queue is empty again afterwards. *)
Theorem queue_insert_gettask_round_trip (q : queue) (t : Z)
    (prev : option Z) (blocking : bool) (ls ls1 : LockState) :
  queue_wf q -> incoming_idle q -> lock q = false -> count q = 0 ->
  0 <= t -> task_lock ls t = (true, ls1) ->
  exists q1 q2,
    queue_insert q t = Some q1
    /\ queue_gettask q1 prev blocking ls = Some (Some t, q2, ls1)
    /\ count q2 = 0 /\ incoming_idle q2 /\ lock q2 = false.
Proof.
  intros Hwf Hidle Hl Hc Ht Hlock.
  destruct (insert_drain_idle q t Hwf Hidle Ht)
    as (q1 & Ei & W2 & I2 & L2 & C2 & _ & P2).
  assert (Hwf1 : queue_wf q1)
    by exact (proj1 (queue_insert_spec q t q1 Hwf Ei)).
  assert (Hl1 : lock q1 = false).
  { destruct (queue_insert_spec q t q1 Hwf Ei) as (_ & Lk & _). congruence. }
  assert (Hh : heap (queue_get_incoming q1) = [t]).
  { assert (E0 : heap q = []) by (unfold heap, heap_of; now rewrite Hc).
    rewrite E0 in P2. apply Permutation_sym, Permutation_length_1_inv in P2.
    exact P2. }
  destruct (queue_gettask_spec q1 prev blocking ls Hwf1 Hl1)
    as (res & q2 & ls2 & E & _ & Lk & Ti & Fi & La & _ & R).
  rewrite Hh in R.
  assert (Hnil : forall tried lsx,
             lock_fails ls tried lsx -> incl tried [t] ->
             tried = [] /\ lsx = ls).
  { intros tried lsx Hf Hincl. destruct Hf as [|l0 t0 l1 l l2 Ef _];
      [now split|].
    assert (t0 = t) by (destruct (Hincl t0 (or_introl eq_refl)) as [?|[]];
                        congruence).
    subst t0. rewrite Hlock in Ef. discriminate. }
  exists q1, q2. split; [exact Ei|].
  destruct res as [t'|].
  - destruct R as (_ & P & C & tried & lsx & Hf & Hlk & Hincl).
    assert (t' = t).
    { assert (Hin : In t' [t]) by (rewrite P; now left).
      destruct Hin as [?|[]]. congruence. }
    subst t'. destruct (Hnil tried lsx Hf Hincl) as [-> ->].
    rewrite Hlock in Hlk. inversion Hlk; subst ls2.
    split; [exact E|]. split; [lia|]. split; [|exact Lk].
    split; [rewrite Fi, La|rewrite Ti]; apply I2.
  - destruct R as (_ & tried & Hf & P).
    destruct (Hnil tried ls2 Hf) as [-> _].
    + intros x Hx. eapply Permutation_in; eassumption.
    + apply Permutation_length in P. discriminate.
Qed.

(** ** The choice in the window when the task locks are free *)

Lemma best_loop_max (window : list wentry) (c : Z) :
  (forall i, 0 <= i < c ->
     Float.is_nan (w_score (rd wentry0 window i)) = false) ->
  forall m i b,
    0 <= b < i -> i + Z.of_nat m <= c ->
    (forall j, 0 <= j < i ->
       Float.ge (w_score (rd wentry0 window b))
                (w_score (rd wentry0 window j)) = true) ->
    let r := best_loop m window i b in
    0 <= r < i + Z.of_nat m
    /\ forall j, 0 <= j < i + Z.of_nat m ->
         Float.ge (w_score (rd wentry0 window r))
                  (w_score (rd wentry0 window j)) = true.
Proof.
  intros Hnan. induction m as [|m IH]; intros i b Hb Hc Hmax;
    cbn [best_loop].
  - split; [lia|]. intros j Hj. apply Hmax. lia.
  - destruct (Float.gt (w_score (rd wentry0 window i))
                       (w_score (rd wentry0 window b))) eqn:Egt.
    + destruct (IH (i + 1) i ltac:(lia) ltac:(lia)) as [Hr Hm].
      * intros j Hj. destruct (Z.eq_dec j i) as [->|Hne].
        -- apply FloatFacts.ge_refl, Hnan. lia.
        -- apply (FloatFacts.ge_trans _ (w_score (rd wentry0 window b)));
             try (apply Hnan; lia).
           ++ now apply FloatFacts.gt_ge.
           ++ apply Hmax. lia.
      * split; [lia|]. intros j Hj. apply Hm. lia.
    + destruct (IH (i + 1) b ltac:(lia) ltac:(lia)) as [Hr Hm].
      * intros j Hj. destruct (Z.eq_dec j i) as [->|Hne].
        -- rewrite FloatFacts.gt_false_ge in Egt by (apply Hnan; lia).
           now destruct (Float.ge _ _).
        -- apply Hmax. lia.
      * split; [lia|]. intros j Hj. apply Hm. lia.
Qed.

Lemma window_best_max (window : list wentry) (c : Z) :
  0 < c ->
  (forall i, 0 <= i < c ->
     Float.is_nan (w_score (rd wentry0 window i)) = false) ->
  0 <= window_best window c < c
  /\ forall j, 0 <= j < c ->
       Float.ge (w_score (rd wentry0 window (window_best window c)))
                (w_score (rd wentry0 window j)) = true.
Proof.
  intros Hc Hnan. unfold window_best.
  destruct (best_loop_max window c Hnan (Z.to_nat (c - 1)) 1 0) as [Hr Hm];
    try lia.
  - intros j Hj. replace j with 0 by lia.
    apply FloatFacts.ge_refl, Hnan. lia.
  - split; [lia|]. intros j Hj. apply Hm. lia.
Qed.

Lemma scan_iter_broken (n : Z) (a : list Z) (prev : option Z)
    (s : sel LockState) (m : nat) :
  s_break s = true -> Nat.iter m (scan_step n a prev) s = s.
Proof.
  intros H. induction m as [|m IH]; [reflexivity|].
  rewrite Nat.iter_succ, IH. unfold scan_step. now rewrite H.
Qed.

Section FreeLocks.

Variable a : list Z.
Variable n : Z.
Variable prev : option Z.
Variable ls0 : LockState.
Hypothesis heap_nonempty : 0 < n.
Hypothesis locks_succeed : forall ls t, fst (task_lock ls t) = true.
Hypothesis scores_not_nan :
  forall t, Float.is_nan (task_overlap prev t) = false.

(** The first loop copies the first heap entries into the window, one by
    one, as long as the window has room. *)
Lemma scan_iter_fill (m : nat) :
  Z.of_nat m <= Z.min n queue_search_window ->
  let s := Nat.iter m (scan_step n a prev) (sel_init ls0) in
  s_break s = false /\ s_k s = Z.of_nat m /\ s_window_count s = Z.of_nat m
  /\ s_tid s = -1 /\ s_ind s = -1 /\ s_locks s = ls0
  /\ Z.of_nat (length (s_window s)) = queue_search_window
  /\ forall i, 0 <= i < Z.of_nat m ->
       rd wentry0 (s_window s) i
       = mkW i (rd 0 a i) (task_overlap prev (rd 0 a i)).
Proof.
  induction m as [|m IH]; intros Hm; [|rewrite Nat.iter_succ].
  - cbn. rewrite repeat_length. repeat split; try lia.
  - destruct (IH ltac:(lia)) as (Bk & K & C & T & I & Lk & L & Hw).
    set (s := Nat.iter m (scan_step n a prev) (sel_init ls0)) in *.
    clearbody s. cbn zeta. unfold scan_step. rewrite Bk. cbn [orb].
    destruct (Z.geb_spec (s_k s) n); [lia|]. unfold scan_body.
    destruct (Z.ltb_spec (s_k s) queue_search_window); [|lia].
    cbn [s_break s_k s_window s_window_count s_tid s_ind s_locks].
    rewrite length_wr.
    repeat split; try lia; auto.
    intros i Hi. destruct (Z.eq_dec i (s_window_count s)) as [->|Hne].
    + rewrite rd_wr_same by lia. now rewrite K, C.
    + rewrite rd_wr_other by congruence. apply Hw. lia.
Qed.

(** On a window that holds the first [c] heap entries, either loop locks
    the entry whose score no other exceeds. *)
Lemma lock_best (s : sel LockState) (c : Z) :
  0 < c -> s_break s = false -> s_window_count s = c -> s_locks s = ls0 ->
  (forall i, 0 <= i < c ->
     rd wentry0 (s_window s) i
     = mkW i (rd 0 a i) (task_overlap prev (rd 0 a i))) ->
  let im := window_best (s_window s) c in
  let s' := mkSel (s_k s) (s_window s) c (rd 0 a im) im
                  (snd (task_lock ls0 (rd 0 a im))) true in
  (0 <= im < c
   /\ task_lock ls0 (rd 0 a im) = (true, snd (task_lock ls0 (rd 0 a im)))
   /\ forall j, 0 <= j < c ->
        Float.ge (task_overlap prev (rd 0 a im))
                 (task_overlap prev (rd 0 a j)) = true)
  /\ rest_step s = s'
  /\ (queue_search_window <= s_k s -> s_k s < n -> scan_step n a prev s = s').
Proof.
  intros Hc Bk C Lk Hw im s'.
  assert (Hnan : forall i, 0 <= i < c ->
            Float.is_nan (w_score (rd wentry0 (s_window s) i)) = false).
  { intros i Hi. rewrite Hw by exact Hi. apply scores_not_nan. }
  destruct (window_best_max (s_window s) c Hc Hnan) as [Hr Hm].
  fold im in Hr, Hm.
  pose proof (locks_succeed ls0 (rd 0 a im)) as Hl.
  assert (El : task_lock ls0 (rd 0 a im)
               = (true, snd (task_lock ls0 (rd 0 a im)))).
  { destruct (task_lock ls0 (rd 0 a im)) as [ok ls']. cbn in Hl |- *.
    now subst ok. }
  split; [split; [exact Hr|split; [exact El|]]|split].
  - intros j Hj. specialize (Hm j Hj).
    rewrite (Hw _ Hr), (Hw _ Hj) in Hm. exact Hm.
  - unfold rest_step. rewrite Bk, C. cbn [orb].
    destruct (Z.leb_spec c 0); [lia|]. unfold rest_body.
    rewrite C, Lk. fold im. rewrite (Hw _ Hr). cbn [w_tid w_ind].
    rewrite El. reflexivity.
  - intros Hk Hn. unfold scan_step. rewrite Bk. cbn [orb].
    destruct (Z.geb_spec (s_k s) n); [lia|]. unfold scan_body.
    destruct (Z.ltb_spec (s_k s) queue_search_window); [lia|].
    rewrite C, Lk. fold im. rewrite (Hw _ Hr). cbn [w_tid w_ind].
    rewrite El. reflexivity.
Qed.

(** With every task lock free, the two loops lock, at the first try, the
    entry whose score no other exceeds among the first
    [queue_search_window] entries of the heap. *)
Lemma select_best :
  Forall (fun t => 0 <= t) (heap_of a n) -> n <= Z.of_nat (length a) ->
  let w := Z.min n queue_search_window in
  let s := rest_loop (scan_loop n a prev ls0) in
  0 <= s_ind s < w /\ s_tid s = rd 0 a (s_ind s)
  /\ task_lock ls0 (s_tid s) = (true, s_locks s)
  /\ forall j, 0 <= j < w ->
       Float.ge (task_overlap prev (s_tid s))
                (task_overlap prev (rd 0 a j)) = true.
Proof.
  intros Hpos Hlen w s. subst s. unfold scan_loop.
  destruct (Z.le_gt_cases n queue_search_window) as [Hle|Hgt].
  - (* the whole heap enters the window: the second loop locks *)
    assert (Ew : w = n) by (unfold w; lia). rewrite Ew.
    destruct (scan_iter_fill (Z.to_nat n) ltac:(lia))
      as (Bk & K & C & T & I & Lk & L & Hw).
    set (s1 := Nat.iter _ _ _) in *. clearbody s1.
    rewrite Z2Nat.id in * by lia.
    destruct (lock_best (unbroken s1) n heap_nonempty eq_refl C Lk Hw)
      as ((Hr & El & Hm) & Er & _).
    unfold rest_loop. rewrite T. cbn [Z.ltb Z.compare]. rewrite C.
    destruct (Z.to_nat n) as [|m] eqn:Em; [lia|].
    rewrite Nat.iter_succ_r, Er, rest_iter_broken by reflexivity.
    cbn [s_ind s_tid s_locks unbroken s_window] in *. now repeat split.
  - (* the window is full before the heap ends: the first loop locks *)
    assert (Ew : w = queue_search_window) by (unfold w; lia). rewrite Ew.
    replace (Z.to_nat n)
      with (Z.to_nat (n - queue_search_window - 1)
            + S (Z.to_nat queue_search_window))%nat by lia.
    rewrite Nat.iter_add, Nat.iter_succ.
    destruct (scan_iter_fill (Z.to_nat queue_search_window) ltac:(lia))
      as (Bk & K & C & T & I & Lk & L & Hw).
    set (s1 := Nat.iter (Z.to_nat queue_search_window) _ _) in *.
    clearbody s1. rewrite Z2Nat.id in * by lia.
    destruct (lock_best s1 queue_search_window search_window_pos Bk C Lk Hw)
      as ((Hr & El & Hm) & _ & Es).
    rewrite Es, scan_iter_broken by (try reflexivity; lia).
    unfold rest_loop. cbn [s_tid].
    set (im := window_best (s_window s1) queue_search_window) in *.
    assert (0 <= rd 0 a im).
    { rewrite Forall_forall in Hpos. apply Hpos. apply rd_in_take; lia. }
    destruct (Z.ltb_spec (rd 0 a im) 0); [lia|].
    cbn [s_ind s_tid s_locks]. now repeat split.
Qed.

End FreeLocks.

(** X19: when every task lock can be taken, [queue_gettask] looks
    at the first [queue_search_window] entries of the heap only (at all of
    them when the heap is smaller): it returns, among these, the task
    whose overlap score with the previous task no other exceeds, and this
    is the only task whose lock it tries. *)
Theorem queue_gettask_best_overlap (q : queue) (prev : option Z)
    (blocking : bool) (ls : LockState) :
  (forall ls t, fst (task_lock ls t) = true) ->
  (forall t, Float.is_nan (task_overlap prev t) = false) ->
  queue_wf q -> lock q = false ->
  let d := queue_get_incoming q in
  let w := Z.min (count d) queue_search_window in
  0 < count d ->
  exists t q' ls',
    queue_gettask q prev blocking ls = Some (Some t, q', ls')
    /\ In t (heap_of (tid d) w)
    /\ task_lock ls t = (true, ls')
    /\ forall x, In x (heap_of (tid d) w) ->
         Float.ge (task_overlap prev t) (task_overlap prev x) = true.
Proof.
  intros Hlocks Hnan Hwf Hl d w Hc.
  destruct (queue_get_incoming_spec q Hwf) as (W & _). fold d in W.
  pose proof W as [(L & C & S & F) _].
  destruct (select_best (tid d) (count d) prev ls Hc Hlocks Hnan F
              ltac:(lia)) as (Hi & Ht & Hlk & Hmax).
  fold w in Hi, Hmax.
  exists (s_tid (select_task d prev ls)),
         (queue_remove d (s_ind (select_task d prev ls))),
         (s_locks (select_task d prev ls)).
  unfold select_task. split; [|split; [|split; [exact Hlk|]]].
  - rewrite queue_gettask_unlocked by exact Hl. fold d. cbn zeta.
    destruct (Z.eqb_spec (count d) 0); [lia|]. unfold select_task.
    destruct (Z.geb_spec
                (s_ind (rest_loop (scan_loop (count d) (tid d) prev ls))) 0);
      [reflexivity|lia].
  - rewrite Ht. apply rd_in_take; lia.
  - intros x Hx. destruct (In_nth _ _ 0 Hx) as (i & Hlt & <-).
    pose proof (length_heap_of (tid d) w ltac:(lia)) as Hlen.
    replace (nth i (heap_of (tid d) w) 0) with (rd 0 (tid d) (Z.of_nat i)).
    + apply Hmax. lia.
    + rewrite <- (rd_heap_of (tid d) w) by lia. unfold rd.
      destruct (Z.ltb_spec (Z.of_nat i) 0); [lia|]. now rewrite Nat2Z.id.
Qed.

(** ** No task lock is tried twice *)

Lemma heap_of_prefix (a : list Z) (k n : Z) :
  0 <= k <= n -> exists rest, heap_of a n = heap_of a k ++ rest.
Proof.
  intros H. exists (skipn (Z.to_nat k) (heap_of a n)).
  rewrite <- (firstn_skipn (Z.to_nat k) (heap_of a n)) at 1.
  f_equal. unfold heap_of. rewrite firstn_firstn. f_equal. lia.
Qed.

Section TriedOnce.

Variable a : list Z.
Variable n : Z.
Variable prev : option Z.
Variable ls0 : LockState.
Hypothesis heap_nonempty : 0 < n.
Hypothesis heap_in_array : n <= Z.of_nat (length a).

Local Abbreviation scan_inv := (scan_inv a n ls0).
Local Abbreviation rest_inv := (rest_inv a n ls0).
Local Abbreviation found := (found a n ls0).

(** The task locked and the tasks whose lock failed before it are
    different entries of the heap. *)
Lemma lock_once (s : sel LockState) (k : Z) (tried : list Z) (c : wentry) :
  0 <= k <= n -> In c (active s) ->
  Permutation (tried ++ map w_tid (active s)) (heap_of a k) ->
  exists rest, Permutation (tried ++ w_tid c :: rest) (heap_of a n).
Proof.
  intros Hk Hin P.
  destruct (in_split _ _ Hin) as (l1 & l2 & El).
  destruct (heap_of_prefix a k n Hk) as [rest0 ->].
  exists (map w_tid l1 ++ map w_tid l2 ++ rest0).
  rewrite <- P, El, map_app. cbn [map].
  rewrite <- !app_assoc. apply Permutation_app_head.
  cbn [app]. apply Permutation_middle.
Qed.

Lemma scan_step_once (s : sel LockState) :
  scan_inv s -> s_k s < n ->
  let s' := scan_step n a prev s in
  s_break s' = true ->
  exists tried ls1 rest,
    lock_fails ls0 tried ls1
    /\ task_lock ls1 (s_tid s') = (true, s_locks s')
    /\ Permutation (tried ++ s_tid s' :: rest) (heap_of a n).
Proof.
  intros (Bk & K & C & L & F & T & I & tried & Lf & P) Hk s'. subst s'.
  unfold scan_step. rewrite Bk. cbn [orb].
  destruct (Z.geb_spec (s_k s) n); [lia|]. unfold scan_body.
  destruct (Z.ltb_spec (s_k s) queue_search_window) as [Hw|Hw];
    [cbn; discriminate|].
  destruct (best_entry a s (s_k s)) as (Hr & _ & Cn); [lia..|exact F|].
  set (ind_max := window_best (s_window s) (s_window_count s)) in *.
  set (c := rd wentry0 (s_window s) ind_max) in *.
  destruct (task_lock (s_locks s) (w_tid c)) as [[|] ls'] eqn:El;
    [|cbn; discriminate].
  intros _. cbn [s_tid s_locks].
  destruct (lock_once s (s_k s) tried c ltac:(lia)) as [rest Pr];
    [apply rd_in_take; lia|exact P|].
  now exists tried, (s_locks s), rest.
Qed.

Lemma scan_iter_once (m : nat) :
  let s := Nat.iter m (scan_step n a prev) (sel_init ls0) in
  s_break s = true ->
  exists tried ls1 rest,
    lock_fails ls0 tried ls1
    /\ task_lock ls1 (s_tid s) = (true, s_locks s)
    /\ Permutation (tried ++ s_tid s :: rest) (heap_of a n).
Proof.
  induction m as [|m IH]; [cbn; discriminate|].
  rewrite Nat.iter_succ. cbn zeta in IH |- *.
  destruct (scan_iter_inv a n prev ls0 heap_nonempty heap_in_array m)
    as [Hf|[Hi Hk]].
  - rewrite (scan_step_found a n prev ls0 _ Hf). exact IH.
  - set (s := Nat.iter m (scan_step n a prev) (sel_init ls0)) in *.
    destruct (Z.lt_ge_cases (s_k s) n) as [Hlt|Hge].
    + exact (scan_step_once s Hi Hlt).
    + rewrite (scan_step_end a n prev) by exact Hge.
      destruct Hi as (Bk & _). rewrite Bk. discriminate.
Qed.

Lemma rest_step_once (s : sel LockState) :
  rest_inv s -> 0 < s_window_count s ->
  let s' := rest_step s in
  s_break s' = true ->
  exists tried ls1 rest,
    lock_fails ls0 tried ls1
    /\ task_lock ls1 (s_tid s') = (true, s_locks s')
    /\ Permutation (tried ++ s_tid s' :: rest) (heap_of a n).
Proof.
  intros (Bk & C & L & F & T & I & tried & Lf & P) Hpos s'. subst s'.
  unfold rest_step. rewrite Bk. cbn [orb].
  destruct (Z.leb_spec (s_window_count s) 0); [lia|]. unfold rest_body.
  destruct (best_entry a s n) as (Hr & _ & Cn); [lia..|exact F|].
  set (ind_max := window_best (s_window s) (s_window_count s)) in *.
  set (c := rd wentry0 (s_window s) ind_max) in *.
  destruct (task_lock (s_locks s) (w_tid c)) as [[|] ls'] eqn:El;
    [|cbn; discriminate].
  intros _. cbn [s_tid s_locks].
  destruct (lock_once s n tried c ltac:(lia)) as [rest Pr];
    [apply rd_in_take; lia|exact P|].
  now exists tried, (s_locks s), rest.
Qed.

Lemma rest_iter_once (s0 : sel LockState) (m : nat) :
  rest_inv s0 -> Z.of_nat m <= s_window_count s0 ->
  let s := Nat.iter m rest_step s0 in
  s_break s = true ->
  exists tried ls1 rest,
    lock_fails ls0 tried ls1
    /\ task_lock ls1 (s_tid s) = (true, s_locks s)
    /\ Permutation (tried ++ s_tid s :: rest) (heap_of a n).
Proof.
  intros H0. induction m as [|m IH]; intros Hm.
  - cbn. destruct H0 as (Bk & _). rewrite Bk. discriminate.
  - rewrite Nat.iter_succ. cbn zeta in IH |- *.
    destruct (rest_iter_inv a n ls0 s0 m H0 ltac:(lia)) as [Hf|[Hi Hc]].
    + rewrite (rest_step_found a n ls0 _ Hf). apply IH. lia.
    + exact (rest_step_once _ Hi ltac:(lia)).
Qed.

Lemma select_once :
  Forall (fun t => 0 <= t) (heap_of a n) ->
  let s := rest_loop (scan_loop n a prev ls0) in
  0 <= s_ind s ->
  exists tried ls1 rest,
    lock_fails ls0 tried ls1
    /\ task_lock ls1 (s_tid s) = (true, s_locks s)
    /\ Permutation (tried ++ s_tid s :: rest) (heap_of a n).
Proof.
  intros Hpos s. subst s. unfold scan_loop, rest_loop.
  pose proof (scan_iter_once (Z.to_nat n)) as Honce.
  destruct (scan_iter_inv a n prev ls0 heap_nonempty heap_in_array
              (Z.to_nat n)) as [Hf|[Hi Hk]];
    set (s1 := Nat.iter _ _ _) in *.
  - destruct Hf as (Bk & I & T & _).
    assert (0 <= s_tid s1).
    { rewrite T. rewrite Forall_forall in Hpos. apply Hpos.
      apply rd_in_take; lia. }
    destruct (Z.ltb_spec (s_tid s1) 0); [lia|]. intros _. exact (Honce Bk).
  - assert (Hr : rest_inv (unbroken s1)).
    { destruct Hi as (Bk & K & C & L & F & T & I & tried & Lf & P).
      assert (Ek : s_k s1 = n) by lia. rewrite Ek in *.
      unfold rest_inv, unbroken, active in *. cbn.
      repeat split; auto; try lia. now exists tried. }
    assert (Et : s_tid s1 = -1) by apply Hi. rewrite Et. cbn [Z.ltb Z.compare].
    intros Hind.
    destruct (rest_iter_inv a n ls0 (unbroken s1)
                (Z.to_nat (s_window_count s1)) Hr) as [Hf|[Hi' Hc]].
    + cbn. destruct Hr as (_ & C & _). cbn in C. lia.
    + destruct Hf as (Bk & _).
      apply (rest_iter_once (unbroken s1) (Z.to_nat (s_window_count s1)) Hr);
        [|exact Bk].
      cbn. destruct Hr as (_ & C & _). cbn in C. lia.
    + destruct Hi' as (_ & _ & _ & _ & _ & I & _).
      change (s_window_count (unbroken s1)) with (s_window_count s1) in I.
      lia.
Qed.

End TriedOnce.

(** X20: one call of [queue_gettask] tries the lock of a heap entry at most
    once.  The tasks whose lock failed and the task returned are different
    entries of the heap after the drain, so that a call that returns a task
    has made at most [count] tries; a call that returns none has tried
    every entry exactly once. *)
Theorem queue_gettask_tries_each_task_once (q : queue) (prev : option Z)
    (blocking : bool) (ls : LockState) (res : option Z) (q' : queue)
    (ls' : LockState) :
  queue_wf q -> lock q = false ->
  queue_gettask q prev blocking ls = Some (res, q', ls') ->
  let d := queue_get_incoming q in
  exists tried ls1,
    lock_fails ls tried ls1
    /\ match res with
       | Some t =>
           task_lock ls1 t = (true, ls')
           /\ (exists rest, Permutation (tried ++ t :: rest) (heap d))
           /\ Z.of_nat (length tried) + 1 <= count d
       | None => ls1 = ls' /\ Permutation tried (heap d)
       end.
Proof.
  intros Hwf Hl E d.
  destruct (queue_get_incoming_spec q Hwf) as (W & _). fold d in W.
  pose proof W as [(L & C & S & F) _].
  destruct res as [t|].
  - rewrite queue_gettask_unlocked in E by exact Hl. fold d in E.
    cbn zeta in E.
    destruct (Z.eqb_spec (count d) 0); [discriminate|].
    destruct (Z.geb_spec (s_ind (select_task d prev ls)) 0) as [Hi|Hi];
      [|discriminate].
    inversion E; subst t q' ls'. clear E.
    destruct (select_once (tid d) (count d) prev ls ltac:(lia) ltac:(lia)
                F Hi) as (tried & ls1 & rest & Lf & Hlk & P).
    exists tried, ls1. split; [exact Lf|]. split; [exact Hlk|].
    split; [now exists rest|].
    apply Permutation_length in P. rewrite length_app in P. cbn [length] in P.
    pose proof (length_heap_of (tid d) (count d) ltac:(lia)). lia.
  - destruct (queue_gettask_spec q prev blocking ls Hwf Hl)
      as (r1 & q1 & l1 & E1 & _ & _ & _ & _ & _ & _ & R).
    rewrite E in E1. inversion E1; subst r1 q1 l1.
    destruct R as (_ & tried & Lf & P). now exists tried, ls'.
Qed.

(** ** The count of the incoming buffer *)

Lemma fill_slot_count (q : queue) (ind t : Z) :
  queue_wf q -> rd 0 (tid_incoming q) ind = -1 -> 0 <= t ->
  count_incoming q = pending q mod UINT_MOD ->
  count_incoming (fill_slot q ind t)
  = pending (fill_slot q ind t) mod UINT_MOD.
Proof.
  intros Hwf Hs Ht Hc.
  destruct (fill_slot_spec q ind t Hwf Hs)
    as (_ & _ & _ & _ & _ & _ & _ & _ & P).
  specialize (P Ht). apply Permutation_length in P. cbn [length] in P.
  unfold pending in *. rewrite P, Nat2Z.inj_succ, <- Z.add_1_r.
  unfold fill_slot. qsimpl. unfold uint_inc. rewrite Hc.
  apply Z.add_mod_idemp_l. discriminate.
Qed.

Lemma get_incoming_loop_count (fuel : nat) :
  forall q, queue_wf q ->
    count_incoming q = pending q mod UINT_MOD ->
    count_incoming (get_incoming_loop fuel q)
    = pending (get_incoming_loop fuel q) mod UINT_MOD.
Proof.
  induction fuel as [|fuel IH]; intros q Hwf Hc; cbn [get_incoming_loop];
    [exact Hc|].
  set (ind := Z.rem (first_incoming q) queue_incoming_size).
  destruct (Z.ltb_spec (rd 0 (tid_incoming q) ind) 0) as [Hv|Hv];
    [exact Hc|].
  destruct (get_incoming_body_pending q Hwf Hv) as (Hwf' & Pp & _).
  destruct (get_incoming_body_spec q ind (proj1 Hwf) Hv)
    as (_ & _ & _ & _ & _ & _ & _ & Ci & _).
  fold ind in Hwf', Pp. apply IH; [exact Hwf'|].
  apply Permutation_length in Pp. cbn [length] in Pp.
  rewrite Ci. unfold uint_dec. rewrite Hc. unfold pending. rewrite Pp.
  rewrite Nat2Z.inj_succ, <- Z.add_1_r, Zminus_mod_idemp_l.
  f_equal. lia.
Qed.

Lemma run_op_count_incoming (o : op) (r r' : trace) :
  op_valid o -> queue_wf (r_queue r) ->
  count_incoming (r_queue r) = pending (r_queue r) mod UINT_MOD ->
  run_op o r = Some r' ->
  count_incoming (r_queue r') = pending (r_queue r') mod UINT_MOD.
Proof.
  intros Hv Hwf Hc E.
  destruct o as [t| |prev blocking|held]; cbn [run_op] in E.
  - destruct (queue_insert (r_queue r) t) as [q|] eqn:Ei; [|discriminate].
    inversion E; subst r'. cbn [r_queue].
    apply queue_insert_cases in Ei. cbn zeta in Ei.
    set (q0 := set_last_incoming (r_queue r)
                 (uint_inc (last_incoming (r_queue r)))) in *.
    assert (W0 : queue_wf q0) by (now apply queue_wf_set_last).
    destruct Ei as [(Hs & ->)|(_ & _ & Hs & ->)].
    + now apply fill_slot_count.
    + apply fill_slot_count; [now apply queue_get_incoming_spec|exact Hs
                             |exact Hv|].
      now apply get_incoming_loop_count.
  - destruct (lock (r_queue r)); [discriminate|]. inversion E; subst r'.
    cbn [r_queue]. now apply get_incoming_loop_count.
  - destruct (lock (r_queue r)) eqn:Hl.
    + rewrite queue_gettask_locked in E by exact Hl.
      destruct blocking; [discriminate|]. inversion E; subst r'. exact Hc.
    + destruct (queue_gettask_spec _ prev blocking (r_locks r) Hwf Hl)
        as (res & q1 & l1 & E1 & _ & _ & Ti & _ & _ & _ & R).
      destruct (queue_get_incoming_spec _ Hwf) as (Wd & _).
      pose proof (get_incoming_loop_count
                    (length (tid_incoming (r_queue r))) _ Hwf Hc) as Hd.
      fold (queue_get_incoming (r_queue r)) in Hd.
      rewrite E1 in E.
      assert (Hq : count_incoming q1 = pending q1 mod UINT_MOD).
      { assert (Hp : pending q1 = pending (queue_get_incoming (r_queue r)))
          by (unfold pending, pending_list; now rewrite Ti).
        rewrite Hp, <- Hd. destruct res as [t|].
        - destruct R as ((ind & Hi & _ & ->) & _).
          now apply queue_remove_spec; [apply Wd|].
        - now destruct R as (-> & _). }
      destruct res as [t|]; inversion E; subst r'; exact Hq.
  - inversion E; subst r'. exact Hc.
Qed.

(** X21: in every state reached from a new queue by calls that insert
    tasks of the array, [count_incoming] is the number of occupied slots of
    the incoming buffer, as an [unsigned int]; it is that number itself when
    the buffer has fewer than [2^32] slots. *)
Theorem count_incoming_counts_pending (ops : list op) (ls : LockState)
    (r : trace) :
  Forall op_valid ops -> run ops (start ls) = Some r ->
  count_incoming (r_queue r) = pending (r_queue r) mod UINT_MOD
  /\ (queue_incoming_size < UINT_MOD ->
      count_incoming (r_queue r) = pending (r_queue r)).
Proof.
  intros Hv E.
  apply (run_invariant op_valid
           (fun r => count_incoming (r_queue r)
                     = pending (r_queue r) mod UINT_MOD)) in E; auto.
  - destruct E as [[_ [Li _]] Hc]. split; [exact Hc|].
    intros Hn. rewrite Hc. apply Z.mod_small.
    pose proof (pending_le_length (r_queue r)). unfold pending in *. lia.
  - intros o r0 r1 Vo W0 C0 E1. eapply run_op_count_incoming; eassumption.
  - apply queue_init_wf.
  - cbn [start r_queue]. unfold pending.
    destruct queue_init_empty as [_ ->]. reflexivity.
Qed.

End QueueFacts.

Lemma demo_weight_not_nan (t : Z) : Float.is_nan (demo_weight t) = false.
Proof.
  unfold demo_weight.
  destruct (t =? 0); [reflexivity|]. destruct (t =? 1); [reflexivity|].
  destruct (t =? 2); reflexivity.
Qed.

Lemma tie_weight_not_nan (t : Z) : Float.is_nan (tie_weight t) = false.
Proof. unfold tie_weight. destruct (t =? 0); reflexivity. Qed.

Lemma demo_run_trace : demo_run demo_ops = Some demo_trace.
Proof. vm_compute. reflexivity. Qed.

Lemma demo_ops_valid : Forall op_valid demo_ops.
Proof. repeat constructor; cbn; lia. Qed.

Lemma demo_queue_wf : queue_wf 4 demo_queue.
Proof.
  exact (proj1 (run_good demo_weight demo_overlap unit demo_lock 2 2 2 4
                  demo_weight_not_nan eq_refl ltac:(lia) eq_refl eq_refl
                  demo_ops tt demo_trace demo_ops_valid demo_run_trace)).
Qed.

(** ** The theorems at these queues *)

Lemma heap_invariant_witness :
  demo_run demo_ops = Some demo_trace
  /\ Float.ge (demo_weight (rd 0 (tid demo_queue) ((1 - 1) ÷ 2)))
              (demo_weight (rd 0 (tid demo_queue) 1)) = true.
Proof.
  split; [exact demo_run_trace|].
  apply (heap_invariant demo_weight demo_overlap unit demo_lock 2 2 2 4
           demo_weight_not_nan eq_refl ltac:(lia) eq_refl eq_refl
           demo_ops tt demo_trace demo_run_trace 1).
  cbn. lia.
Defined.

Lemma scenario_weights_5_1_9_3_witness :
  demo_weight 0 = Float.of_Z 5 /\ demo_weight 1 = Float.of_Z 1
  /\ demo_weight 2 = Float.of_Z 9 /\ demo_weight 3 = Float.of_Z 3
  /\ exists r q' ls',
       demo_run [OpInsert 0; OpInsert 1; OpInsert 2; OpInsert 3; OpDrain]
       = Some r
       /\ gettask_repeat demo_weight demo_overlap unit demo_lock 2 2 4 4
            (r_queue unit r) None true (r_locks unit r)
          = Some ([Some 2; Some 0; Some 3; Some 1], q', ls')
       /\ map demo_weight [2; 0; 3; 1] = map Float.of_Z [9; 5; 3; 1].
Proof.
  repeat (split; [reflexivity|]).
  apply (scenario_weights_5_1_9_3 demo_weight demo_overlap unit demo_lock
           2 2 2 4 demo_weight_not_nan eq_refl ltac:(lia) eq_refl eq_refl
           true tt eq_refl eq_refl eq_refl eq_refl
           (fun _ _ => eq_refl) (fun _ _ => eq_refl)).
Defined.

Lemma gettask_result_witness :
  queue_wf 4 demo_queue
  /\ let d := queue_get_incoming demo_weight 2 4 demo_queue in
     match queue_gettask demo_weight demo_overlap unit demo_lock 2 2 4
                         demo_queue None false tt with
     | None => lock demo_queue = true /\ false = true
     | Some (Some t, q', ls') =>
         lock demo_queue = false /\ In t (heap d)
         /\ exists tried ls1,
              lock_fails unit demo_lock tt tried ls1
              /\ demo_lock ls1 t = (true, ls')
              /\ incl tried (heap d)
     | Some (None, q', ls') =>
         (lock demo_queue = true /\ false = false /\ q' = demo_queue
          /\ ls' = tt)
         \/ (lock demo_queue = false
             /\ exists tried,
                  lock_fails unit demo_lock tt tried ls'
                  /\ Permutation tried (heap d))
     end.
Proof.
  split; [exact demo_queue_wf|].
  apply (gettask_result demo_weight demo_overlap unit demo_lock 2 2 4
           eq_refl ltac:(lia) eq_refl demo_queue None false tt demo_queue_wf).
Defined.

Lemma queue_sift_down_left_on_ties_witness :
  0 <= 0 /\ count tie_queue <= Z.of_nat (length (tid tie_queue))
  /\ queue_sift_down tie_weight tie_queue 0 =
     if 2 * 0 + 1 <? count tie_queue then
       let child :=
         sift_child_left_ties tie_weight (count tie_queue) (tid tie_queue) 0 in
       if Float.gt (w_of tie_weight (tid tie_queue) child)
                   (w_of tie_weight (tid tie_queue) 0)
       then queue_sift_down tie_weight
              (set_tid tie_queue (swap_cells (tid tie_queue) child 0)) child
       else (tie_queue, 0)
     else (tie_queue, 0).
Proof.
  split; [lia|]. split; [cbn; lia|].
  apply (queue_sift_down_left_on_ties tie_weight tie_weight_not_nan
           tie_queue 0); cbn; lia.
Defined.

Lemma queue_bubble_up_ties_move_up_witness :
  0 <= 2 < Z.of_nat (length (tid tie_queue))
  /\ queue_bubble_up tie_weight tie_queue 2 =
       (if (2 >? 0)
           && Float.ge (w_of tie_weight (tid tie_queue) 2)
                       (w_of tie_weight (tid tie_queue) ((2 - 1) ÷ 2))
        then queue_bubble_up tie_weight
               (set_tid tie_queue
                        (swap_cells (tid tie_queue) 2 ((2 - 1) ÷ 2)))
               ((2 - 1) ÷ 2)
        else (tie_queue, 2))
  /\ rd 0 (tid (fst (queue_bubble_up tie_weight tie_queue 2)))
           (snd (queue_bubble_up tie_weight tie_queue 2))
     = rd 0 (tid tie_queue) 2.
Proof.
  split; [cbn; lia|].
  apply (queue_bubble_up_ties_move_up tie_weight tie_weight_not_nan
           tie_queue 2); cbn; lia.
Defined.

Lemma growth_keeps_tasks_witness :
  Forall (fun t => 0 <= t) [0; 1; 2] /\ 2 < Z.of_nat (length [0; 1; 2])
  /\ exists q,
       insert_drain_all demo_weight 2 4 [0; 1; 2] (queue_init 2 4) = Some q
       /\ count q = Z.of_nat (length [0; 1; 2])
       /\ Z.of_nat (length [0; 1; 2]) <= size q /\ 2 < size q
       /\ Z.of_nat (length (tid q)) = size q
       /\ (forall k, 1 <= k < count q ->
             Float.ge (demo_weight (rd 0 (tid q) ((k - 1) ÷ 2)))
                      (demo_weight (rd 0 (tid q) k)) = true)
       /\ Permutation (heap q) [0; 1; 2]
       /\ ((forall ls t, fst (demo_lock ls t) = true) ->
           forall prev blocking ls,
           exists out q' ls',
             gettask_repeat demo_weight demo_overlap unit demo_lock 2 2 4
                            (length [0; 1; 2]) q prev blocking ls
             = Some (map Some out, q', ls')
             /\ Permutation out [0; 1; 2]).
Proof.
  assert (H : Forall (fun t => 0 <= t) [0; 1; 2])
    by (repeat constructor; lia).
  split; [exact H|]. split; [cbn; lia|].
  apply (growth_keeps_tasks demo_weight demo_overlap unit demo_lock 2 2 2 4
           demo_weight_not_nan eq_refl ltac:(lia) eq_refl eq_refl
           [0; 1; 2] H).
  cbn. lia.
Defined.

Lemma conservation_witness :
  Forall op_valid demo_ops /\ demo_run demo_ops = Some demo_trace
  /\ Z.of_nat (length (r_inserted unit demo_trace))
     = Z.of_nat (length (r_returned unit demo_trace)) + count demo_queue
       + pending demo_queue.
Proof.
  split; [exact demo_ops_valid|]. split; [exact demo_run_trace|].
  apply (conservation demo_weight demo_overlap unit demo_lock 2 2 2 4
           eq_refl ltac:(lia) eq_refl eq_refl demo_ops tt demo_trace
           demo_ops_valid demo_run_trace).
Defined.

Lemma gettask_nonblocking_lock_held_witness :
  lock (set_lock demo_queue true) = true
  /\ queue_gettask demo_weight demo_overlap unit demo_lock 2 2 4
                   (set_lock demo_queue true) None false tt
     = Some (None, set_lock demo_queue true, tt).
Proof.
  split; [reflexivity|].
  apply (gettask_nonblocking_lock_held demo_weight demo_overlap unit
           demo_lock 2 2 4 (set_lock demo_queue true) None tt eq_refl).
Defined.

Lemma window_count_bounded_witness :
  0 < 2
  /\ let s := Nat.iter 3 (scan_step demo_overlap unit demo_lock 2
                                    (count demo_queue) (tid demo_queue) None)
                       (sel_init unit 2 tt) in
     let r := Nat.iter 1 (rest_step unit demo_lock)
                (unbroken unit
                   (scan_loop demo_overlap unit demo_lock 2
                              (count demo_queue) (tid demo_queue) None tt)) in
     (0 <= s_window_count s <= 2
      /\ Z.of_nat (length (s_window s)) = 2
      /\ (s_break s = false -> s_k s < count demo_queue ->
          in_window 2 (scan_cell unit 2 s)))
     /\ (0 <= s_window_count r <= 2
         /\ Z.of_nat (length (s_window r)) = 2
         /\ (s_break r = false -> 0 < s_window_count r ->
             in_window 2 (window_best (s_window r) (s_window_count r))
             /\ in_window 2 (s_window_count r - 1))).
Proof.
  split; [lia|].
  apply (window_count_bounded demo_overlap unit demo_lock 2 eq_refl
           demo_queue None tt 3 1).
Defined.

Lemma sift_functions_permute_heap_witness :
  0 <= 1 < count demo_queue
  /\ count demo_queue <= Z.of_nat (length (tid demo_queue))
  /\ let up := queue_bubble_up demo_weight demo_queue 1 in
     let down := queue_sift_down demo_weight demo_queue 1 in
     (0 <= snd up < count demo_queue
      /\ Permutation (heap_of (tid (fst up)) (count demo_queue))
                     (heap_of (tid demo_queue) (count demo_queue))
      /\ skipn (Z.to_nat (count demo_queue)) (tid (fst up))
         = skipn (Z.to_nat (count demo_queue)) (tid demo_queue)
      /\ fst up = set_tid demo_queue (tid (fst up)))
     /\ (0 <= snd down < count demo_queue
         /\ Permutation (heap_of (tid (fst down)) (count demo_queue))
                        (heap_of (tid demo_queue) (count demo_queue))
         /\ skipn (Z.to_nat (count demo_queue)) (tid (fst down))
            = skipn (Z.to_nat (count demo_queue)) (tid demo_queue)
         /\ fst down = set_tid demo_queue (tid (fst down))).
Proof.
  assert (H1 : 0 <= 1 < count demo_queue) by (cbn; lia).
  assert (H2 : count demo_queue <= Z.of_nat (length (tid demo_queue)))
    by (cbn; lia).
  split; [exact H1|]. split; [exact H2|].
  apply (sift_functions_permute_heap demo_weight demo_queue 1 H1 H2).
Defined.

(** C4 as the specification words it fails: with two children of equal
    weight, [queue_sift_down] compares the entry with the left child (index
    1) and moves it there, where the right child (index 2) would win the
    tie. *)
Lemma sift_down_tie_takes_left_child :
  sift_child tie_weight 3 [0; 1; 2] 0 = 1
  /\ sift_child_right_ties tie_weight 3 [0; 1; 2] 0 = 2
  /\ sift_child tie_weight 3 [0; 1; 2] 0
     <> sift_child_right_ties tie_weight 3 [0; 1; 2] 0
  /\ queue_sift_down tie_weight tie_queue 0
     = (mkQueue false [1; 0; 2] 3 3 [-1] 0 0 0, 1).
Proof.
  split; [reflexivity|]. split; [reflexivity|].
  split; [vm_compute; discriminate|]. vm_compute. reflexivity.
Qed.

(** ** The further properties at these queues *)

Lemma demo_queue_heap_ok : queue_heap_ok demo_weight demo_queue.
Proof.
  exact (proj1 (proj2
           (run_good demo_weight demo_overlap unit demo_lock 2 2 2 4
              demo_weight_not_nan eq_refl ltac:(lia) eq_refl eq_refl
              demo_ops tt demo_trace demo_ops_valid demo_run_trace))).
Qed.

Lemma demo_affinity_not_nan (prev : option Z) (t : Z) :
  Float.is_nan (demo_affinity prev t) = false.
Proof. unfold demo_affinity. destruct (t =? 3); reflexivity. Qed.

Lemma tie_queue_heap_but : heap_but demo_weight (tid tie_queue) 3 2.
Proof.
  split.
  - intros k Hk Hne Hp. assert (k = 1) by lia. subst k.
    vm_compute. reflexivity.
  - intros k Hk Ep. assert (Hc : k = 1 \/ k = 2) by lia.
    destruct Hc; subst k; vm_compute in Ep; discriminate.
Qed.

Lemma tie_queue_children_ok : children_ok demo_weight (tid tie_queue) 3 2.
Proof.
  intros k Hk Ep. assert (Hc : k = 1 \/ k = 2) by lia.
  destruct Hc; subst k; vm_compute in Ep; discriminate.
Qed.

Lemma light_root_heap_but :
  heap_but demo_weight (tid light_root_queue) 3 0.
Proof.
  split.
  - intros k Hk Hne Hp. assert (Hc : k = 1 \/ k = 2) by lia.
    destruct Hc; subst k; vm_compute in Hp; now destruct Hp.
  - intros k Hk Ep Hi. lia.
Qed.

Lemma light_root_parent_ok : parent_ok demo_weight (tid light_root_queue) 0.
Proof. intros H. lia. Qed.

Lemma demo_pending_wf : queue_wf 4 demo_pending.
Proof.
  unfold queue_wf, heap_wf, incoming_wf. cbn.
  repeat split; try lia. constructor.
Qed.

Lemma demo_pending_ring : ring_ok 4 demo_pending.
Proof.
  unfold ring_ok. cbn [demo_pending first_incoming last_incoming tid_incoming].
  split; [lia|]. split; [lia|]. split; [reflexivity|]. split.
  - intros c Hc. assert (H : c = 0 \/ c = 1) by lia.
    destruct H; subst c; vm_compute; discriminate.
  - intros j Hj Hfree. assert (H : j = 0 \/ j = 1 \/ j = 2 \/ j = 3) by lia.
    destruct H as [->|[->|[->| ->]]]; try reflexivity.
    + now destruct (Hfree 0 ltac:(lia)).
    + now destruct (Hfree 1 ltac:(lia)).
Qed.

Lemma full_queue_wf : queue_wf 1 full_queue.
Proof.
  unfold queue_wf, heap_wf, incoming_wf. cbn.
  repeat split; try lia. constructor.
Qed.

Lemma full_queue_ring : ring_ok 1 full_queue.
Proof.
  unfold ring_ok. cbn [full_queue first_incoming last_incoming tid_incoming].
  split; [lia|]. split; [lia|]. split; [reflexivity|]. split.
  - intros c Hc. assert (c = 0) by lia. subst c. vm_compute. discriminate.
  - intros j Hj Hfree. assert (j = 0) by lia. subst j.
    now destruct (Hfree 0 ltac:(lia)).
Qed.

Lemma queue_bubble_up_restores_heap_witness :
  0 <= 2 < count tie_queue
  /\ count tie_queue <= Z.of_nat (length (tid tie_queue))
  /\ heap_ok demo_weight (tid (fst (queue_bubble_up demo_weight tie_queue 2)))
             (count tie_queue).
Proof.
  assert (H1 : 0 <= 2 < count tie_queue) by (cbn; lia).
  assert (H2 : count tie_queue <= Z.of_nat (length (tid tie_queue)))
    by (cbn; lia).
  split; [exact H1|]. split; [exact H2|].
  apply (queue_bubble_up_restores_heap demo_weight demo_weight_not_nan
           tie_queue 2 H1 H2 tie_queue_heap_but tie_queue_children_ok).
Defined.

Lemma queue_sift_down_restores_heap_witness :
  0 <= 0 < count light_root_queue
  /\ count light_root_queue <= Z.of_nat (length (tid light_root_queue))
  /\ heap_ok demo_weight
             (tid (fst (queue_sift_down demo_weight light_root_queue 0)))
             (count light_root_queue).
Proof.
  assert (H1 : 0 <= 0 < count light_root_queue) by (cbn; lia).
  assert (H2 : count light_root_queue
               <= Z.of_nat (length (tid light_root_queue))) by (cbn; lia).
  split; [exact H1|]. split; [exact H2|].
  apply (queue_sift_down_restores_heap demo_weight demo_weight_not_nan
           light_root_queue 0 H1 H2 light_root_heap_but light_root_parent_ok).
Defined.

Lemma queue_bubble_up_final_position_witness :
  0 <= 2 < count tie_queue
  /\ count tie_queue <= Z.of_nat (length (tid tie_queue))
  /\ let up := queue_bubble_up demo_weight tie_queue 2 in
     0 <= snd up <= 2
     /\ rd 0 (tid (fst up)) (snd up) = rd 0 (tid tie_queue) 2
     /\ (snd up = 0
         \/ Float.lt (demo_weight (rd 0 (tid tie_queue) 2))
                     (demo_weight (rd 0 (tid (fst up)) ((snd up - 1) ÷ 2)))
            = true).
Proof.
  assert (H1 : 0 <= 2 < count tie_queue) by (cbn; lia).
  assert (H2 : count tie_queue <= Z.of_nat (length (tid tie_queue)))
    by (cbn; lia).
  split; [exact H1|]. split; [exact H2|].
  apply (queue_bubble_up_final_position demo_weight tie_queue 2 H1 H2).
Defined.

Lemma queue_sift_down_final_position_witness :
  0 <= 0 < count light_root_queue
  /\ count light_root_queue <= Z.of_nat (length (tid light_root_queue))
  /\ let down := queue_sift_down demo_weight light_root_queue 0 in
     0 <= snd down < count light_root_queue
     /\ rd 0 (tid (fst down)) (snd down) = rd 0 (tid light_root_queue) 0
     /\ forall k, 1 <= k < count light_root_queue ->
          (k - 1) ÷ 2 = snd down ->
          Float.ge (demo_weight (rd 0 (tid light_root_queue) 0))
                   (demo_weight (rd 0 (tid (fst down)) k)) = true.
Proof.
  assert (H1 : 0 <= 0 < count light_root_queue) by (cbn; lia).
  assert (H2 : count light_root_queue
               <= Z.of_nat (length (tid light_root_queue))) by (cbn; lia).
  split; [exact H1|]. split; [exact H2|].
  apply (queue_sift_down_final_position demo_weight demo_weight_not_nan
           light_root_queue 0 H1 H2).
Defined.

Lemma queue_get_incoming_idempotent_witness :
  queue_wf 4 demo_pending
  /\ let d := queue_get_incoming demo_weight 2 4 demo_pending in
     rd 0 (tid_incoming d) (Z.rem (first_incoming d) 4) < 0
     /\ queue_get_incoming demo_weight 2 4 d = d.
Proof.
  split; [exact demo_pending_wf|].
  apply (queue_get_incoming_idempotent demo_weight 2 4 eq_refl ltac:(lia)
           demo_pending demo_pending_wf).
Defined.

Lemma queue_get_incoming_empties_ring_witness :
  queue_wf 4 demo_pending /\ ring_ok 4 demo_pending
  /\ let d := queue_get_incoming demo_weight 2 4 demo_pending in
     Forall (fun x => x = -1) (tid_incoming d)
     /\ first_incoming d = last_incoming d
     /\ Permutation (heap d) (heap demo_pending ++ pending_list demo_pending)
     /\ count d = count demo_pending + pending demo_pending.
Proof.
  split; [exact demo_pending_wf|]. split; [exact demo_pending_ring|].
  apply (queue_get_incoming_empties_ring demo_weight 2 4 eq_refl ltac:(lia)
           demo_pending demo_pending_wf demo_pending_ring).
Defined.

Lemma queue_get_incoming_keeps_size_witness :
  queue_wf 4 demo_pending
  /\ count demo_pending + pending demo_pending <= size demo_pending
  /\ let d := queue_get_incoming demo_weight 2 4 demo_pending in
     size d = size demo_pending
     /\ length (tid d) = length (tid demo_pending).
Proof.
  assert (H : count demo_pending + pending demo_pending
              <= size demo_pending) by (cbn; lia).
  split; [exact demo_pending_wf|]. split; [exact H|].
  apply (queue_get_incoming_keeps_size demo_weight 2 4 eq_refl ltac:(lia)
           demo_pending demo_pending_wf H).
Defined.


Lemma queue_insert_completes_when_unlocked_witness :
  queue_wf 1 full_queue /\ ring_ok 1 full_queue /\ lock full_queue = false
  /\ 0 <= 2 /\ last_incoming full_queue + 1 < UINT_MOD
  /\ exists q',
       queue_insert demo_weight 2 1 full_queue 2 = Some q'
       /\ queue_wf 1 q' /\ ring_ok 1 q' /\ lock q' = false
       /\ last_incoming q' = last_incoming full_queue + 1
       /\ Permutation (heap q' ++ pending_list q')
                      (2 :: heap full_queue ++ pending_list full_queue).
Proof.
  split; [exact full_queue_wf|]. split; [exact full_queue_ring|].
  split; [reflexivity|]. split; [lia|]. split; [reflexivity|].
  apply (queue_insert_completes_when_unlocked demo_weight 2 1 eq_refl
           ltac:(lia) full_queue 2 full_queue_wf full_queue_ring eq_refl
           ltac:(lia) eq_refl).
Defined.

Lemma queue_insert_locked_leaves_heap_witness :
  lock (set_lock (queue_init 2 4) true) = true
  /\ queue_insert demo_weight 2 4 (set_lock (queue_init 2 4) true) 3
     = Some (mkQueue true [0; 0] 2 0 [3; -1; -1; -1] 0 1 1)
  /\ let q := set_lock (queue_init 2 4) true in
     let q' := mkQueue true [0; 0] 2 0 [3; -1; -1; -1] 0 1 1 in
     let ind := Z.rem (last_incoming q) 4 in
     rd 0 (tid_incoming q) ind = -1
     /\ tid q' = tid q /\ count q' = count q /\ size q' = size q
     /\ lock q' = true /\ first_incoming q' = first_incoming q
     /\ tid_incoming q' = wr (tid_incoming q) ind 3
     /\ last_incoming q' = uint_inc (last_incoming q)
     /\ count_incoming q' = uint_inc (count_incoming q).
Proof.
  assert (E : queue_insert demo_weight 2 4 (set_lock (queue_init 2 4) true) 3
              = Some (mkQueue true [0; 0] 2 0 [3; -1; -1; -1] 0 1 1))
    by (vm_compute; reflexivity).
  split; [reflexivity|]. split; [exact E|].
  apply (queue_insert_locked_leaves_heap demo_weight 2 4
           (set_lock (queue_init 2 4) true) 3 _ eq_refl E).
Defined.

Lemma tasks_conserved_witness :
  Forall op_valid demo_ops /\ demo_run demo_ops = Some demo_trace
  /\ Permutation (r_inserted unit demo_trace)
       (r_returned unit demo_trace ++ heap demo_queue
        ++ pending_list demo_queue).
Proof.
  split; [exact demo_ops_valid|]. split; [exact demo_run_trace|].
  apply (tasks_conserved demo_weight demo_overlap unit demo_lock 2 2 2 4
           eq_refl ltac:(lia) eq_refl eq_refl demo_ops tt demo_trace
           demo_ops_valid demo_run_trace).
Defined.

Lemma reachable_queue_bounds_witness :
  demo_run demo_ops = Some demo_trace
  /\ Z.of_nat (length (tid demo_queue)) = size demo_queue
  /\ 0 <= count demo_queue <= size demo_queue
  /\ 2 <= size demo_queue
  /\ (exists j : nat, size demo_queue = 2 * 2 ^ Z.of_nat j)
  /\ Z.of_nat (length (tid_incoming demo_queue)) = 4.
Proof.
  split; [exact demo_run_trace|].
  apply (reachable_queue_bounds demo_weight demo_overlap unit demo_lock
           2 2 2 4 eq_refl ltac:(lia) eq_refl eq_refl demo_ops tt demo_trace
           demo_run_trace).
Defined.

Lemma queue_lock_restored_witness :
  queue_wf 4 demo_queue
  /\ run_op demo_weight demo_overlap unit demo_lock 2 2 4
            (OpGet None false) demo_trace
     = Some (mkTrace unit demo_queue_taken tt (r_inserted unit demo_trace)
                     (2 :: r_returned unit demo_trace))
  /\ lock demo_queue_taken = lock demo_queue.
Proof.
  assert (E : run_op demo_weight demo_overlap unit demo_lock 2 2 4
                     (OpGet None false) demo_trace
              = Some (mkTrace unit demo_queue_taken tt
                              (r_inserted unit demo_trace)
                              (2 :: r_returned unit demo_trace)))
    by (vm_compute; reflexivity).
  split; [exact demo_queue_wf|]. split; [exact E|].
  apply (queue_lock_restored demo_weight demo_overlap unit demo_lock 2 2 4
           eq_refl ltac:(lia) eq_refl (OpGet None false) demo_trace _
           demo_queue_wf (fun held H => ltac:(discriminate H)) E).
Defined.

Lemma queue_gettask_removes_returned_task_witness :
  queue_wf 4 demo_queue /\ lock demo_queue = false
  /\ queue_gettask demo_weight demo_overlap unit demo_lock 2 2 4
                   demo_queue None false tt
     = Some (Some 2, demo_queue_taken, tt)
  /\ let d := queue_get_incoming demo_weight 2 4 demo_queue in
     size demo_queue_taken = size d
     /\ tid_incoming demo_queue_taken = tid_incoming d
     /\ first_incoming demo_queue_taken = first_incoming d
     /\ last_incoming demo_queue_taken = last_incoming d
     /\ Permutation (heap d) (2 :: heap demo_queue_taken)
     /\ count demo_queue_taken = count d - 1.
Proof.
  assert (E : queue_gettask demo_weight demo_overlap unit demo_lock 2 2 4
                            demo_queue None false tt
              = Some (Some 2, demo_queue_taken, tt))
    by (vm_compute; reflexivity).
  split; [exact demo_queue_wf|]. split; [reflexivity|]. split; [exact E|].
  apply (queue_gettask_removes_returned_task demo_weight demo_overlap unit
           demo_lock 2 2 4 eq_refl ltac:(lia) eq_refl demo_queue None false
           tt (Some 2) demo_queue_taken tt demo_queue_wf eq_refl E).
Defined.

Lemma queue_gettask_on_empty_queue_witness :
  lock (queue_init 2 4) = false /\ count (queue_init 2 4) = 0
  /\ rd 0 (tid_incoming (queue_init 2 4))
        (Z.rem (first_incoming (queue_init 2 4)) 4) < 0
  /\ queue_gettask demo_weight demo_overlap unit demo_lock 2 2 4
                   (queue_init 2 4) None true tt
     = Some (None, queue_init 2 4, tt).
Proof.
  split; [reflexivity|]. split; [reflexivity|]. split; [reflexivity|].
  apply (queue_gettask_on_empty_queue demo_weight demo_overlap unit
           demo_lock 2 2 4 (queue_init 2 4) None true tt eq_refl eq_refl
           eq_refl).
Defined.

Lemma queue_gettask_returns_heaviest_witness :
  queue_wf 4 demo_queue /\ queue_heap_ok demo_weight demo_queue
  /\ lock demo_queue = false
  /\ 0 < count (queue_get_incoming demo_weight 2 4 demo_queue)
  /\ let d := queue_get_incoming demo_weight 2 4 demo_queue in
     exists ls',
       queue_gettask demo_weight demo_overlap unit demo_lock 2 2 4
                     demo_queue None false tt
       = Some (Some (rd 0 (tid d) 0), queue_remove demo_weight d 0, ls')
       /\ In (rd 0 (tid d) 0) (heap d)
       /\ forall x, In x (heap d) ->
            Float.ge (demo_weight (rd 0 (tid d) 0)) (demo_weight x) = true.
Proof.
  split; [exact demo_queue_wf|]. split; [exact demo_queue_heap_ok|].
  split; [reflexivity|]. split; [reflexivity|].
  apply (queue_gettask_returns_heaviest demo_weight demo_overlap unit
           demo_lock 2 2 4 demo_weight_not_nan eq_refl ltac:(lia) eq_refl
           demo_queue None false tt (fun _ _ => eq_refl)
           (fun _ _ => eq_refl) demo_queue_wf demo_queue_heap_ok eq_refl
           eq_refl).
Defined.

Lemma queue_sorts_by_weight_witness :
  Forall (fun t => 0 <= t) [0; 1; 2; 3]
  /\ exists q out q' ls',
       insert_drain_all demo_weight 2 4 [0; 1; 2; 3] (queue_init 2 4)
       = Some q
       /\ gettask_repeat demo_weight demo_overlap unit demo_lock 2 2 4
                         (length [0; 1; 2; 3]) q None false tt
          = Some (map Some out, q', ls')
       /\ Permutation out [0; 1; 2; 3]
       /\ StronglySorted
            (fun x y => Float.ge (demo_weight x) (demo_weight y) = true) out
       /\ count q' = 0.
Proof.
  assert (H : Forall (fun t => 0 <= t) [0; 1; 2; 3])
    by (repeat constructor; lia).
  split; [exact H|].
  apply (queue_sorts_by_weight demo_weight demo_overlap unit demo_lock
           2 2 2 4 demo_weight_not_nan eq_refl ltac:(lia) eq_refl eq_refl
           [0; 1; 2; 3] None false tt (fun _ _ => eq_refl)
           (fun _ _ => eq_refl) H).
Defined.

Lemma queue_insert_gettask_round_trip_witness :
  queue_wf 4 (queue_init 2 4) /\ incoming_idle (queue_init 2 4)
  /\ lock (queue_init 2 4) = false /\ count (queue_init 2 4) = 0
  /\ 0 <= 3 /\ demo_lock tt 3 = (true, tt)
  /\ exists q1 q2,
       queue_insert demo_weight 2 4 (queue_init 2 4) 3 = Some q1
       /\ queue_gettask demo_weight demo_overlap unit demo_lock 2 2 4
                        q1 (Some 1) false tt
          = Some (Some 3, q2, tt)
       /\ count q2 = 0 /\ incoming_idle q2 /\ lock q2 = false.
Proof.
  split; [exact (queue_init_wf 2 4 eq_refl eq_refl)|].
  split; [exact (queue_init_idle 2 4)|].
  split; [reflexivity|]. split; [reflexivity|]. split; [lia|].
  split; [reflexivity|].
  apply (queue_insert_gettask_round_trip demo_weight demo_overlap unit
           demo_lock 2 2 4 eq_refl ltac:(lia) eq_refl (queue_init 2 4) 3
           (Some 1) false tt tt (queue_init_wf 2 4 eq_refl eq_refl)
           (queue_init_idle 2 4) eq_refl eq_refl ltac:(lia) eq_refl).
Defined.

Lemma queue_gettask_best_overlap_witness :
  queue_wf 4 demo_queue /\ lock demo_queue = false
  /\ 0 < count (queue_get_incoming demo_weight 2 4 demo_queue)
  /\ let d := queue_get_incoming demo_weight 2 4 demo_queue in
     let w := Z.min (count d) 4 in
     exists t q' ls',
       queue_gettask demo_weight demo_affinity unit demo_lock 2 4 4
                     demo_queue None false tt
       = Some (Some t, q', ls')
       /\ In t (heap_of (tid d) w)
       /\ demo_lock tt t = (true, ls')
       /\ forall x, In x (heap_of (tid d) w) ->
            Float.ge (demo_affinity None t) (demo_affinity None x) = true.
Proof.
  split; [exact demo_queue_wf|]. split; [reflexivity|].
  split; [reflexivity|].
  apply (queue_gettask_best_overlap demo_weight demo_affinity unit demo_lock
           2 4 4 eq_refl ltac:(lia) eq_refl demo_queue None false tt
           (fun _ _ => eq_refl) (demo_affinity_not_nan None) demo_queue_wf
           eq_refl eq_refl).
Defined.

Lemma queue_gettask_tries_each_task_once_witness :
  queue_wf 4 demo_queue /\ lock demo_queue = false
  /\ queue_gettask demo_weight demo_overlap unit demo_lock 2 2 4
                   demo_queue None false tt
     = Some (Some 2, demo_queue_taken, tt)
  /\ let d := queue_get_incoming demo_weight 2 4 demo_queue in
     exists tried ls1,
       lock_fails unit demo_lock tt tried ls1
       /\ demo_lock ls1 2 = (true, tt)
       /\ (exists rest, Permutation (tried ++ 2 :: rest) (heap d))
       /\ Z.of_nat (length tried) + 1 <= count d.
Proof.
  assert (E : queue_gettask demo_weight demo_overlap unit demo_lock 2 2 4
                            demo_queue None false tt
              = Some (Some 2, demo_queue_taken, tt))
    by (vm_compute; reflexivity).
  split; [exact demo_queue_wf|]. split; [reflexivity|]. split; [exact E|].
  apply (queue_gettask_tries_each_task_once demo_weight demo_overlap unit
           demo_lock 2 2 4 eq_refl ltac:(lia) eq_refl demo_queue None false
           tt (Some 2) demo_queue_taken tt demo_queue_wf eq_refl E).
Defined.

Lemma count_incoming_counts_pending_witness :
  Forall op_valid demo_ops /\ demo_run demo_ops = Some demo_trace
  /\ count_incoming demo_queue = pending demo_queue mod UINT_MOD
  /\ (4 < UINT_MOD -> count_incoming demo_queue = pending demo_queue).
Proof.
  split; [exact demo_ops_valid|]. split; [exact demo_run_trace|].
  apply (count_incoming_counts_pending demo_weight demo_overlap unit
           demo_lock 2 2 2 4 eq_refl ltac:(lia) eq_refl eq_refl demo_ops tt
           demo_trace demo_ops_valid demo_run_trace).
Defined.
